(** * Proxima: a shallow embedding of the 2D rigid-body engine

    The C sources embedded here are [proxima.h] (vector and transform
    helpers), [geometry.c] (shapes), [broad-phase.c] (the spatial hash),
    [collision.c] (narrow phase and ray casting), [rigid-body.c] (bodies and
    the contact solver) and [world.c] (the fixed-step driver).

    Numbers are modelled as the code has them: [float] is IEEE-754 binary32
    and [double] is binary64, both with round-to-nearest-even, through the
    parametric operations of [SpecFloat].  Pointers that the code tests
    against [NULL] are [option]s; body pointers are addresses into a heap. *)

From Stdlib Require Import ZArith Lia Bool List.
From Stdlib Require Import Floats.SpecFloat.
From stdpp Require Import base option list gmap sorting.

Local Open Scope Z_scope.

(* ===================================================================== *)
(** ** IEEE-754 arithmetic *)
(* ===================================================================== *)

(** Both C floating types share the carrier [spec_float]; the precision is
    chosen by the operation, exactly as the C type chooses the instruction. *)
Definition float := spec_float.
Definition double := spec_float.

Module F32.
Definition prec : Z := 24.
Definition emax : Z := 128.

Definition add : float -> float -> float := SFadd prec emax.
Definition sub : float -> float -> float := SFsub prec emax.
Definition mul : float -> float -> float := SFmul prec emax.
Definition div : float -> float -> float := SFdiv prec emax.
Definition sqrt : float -> float := SFsqrt prec emax.
Definition neg : float -> float := SFopp.
Definition abs : float -> float := SFabs.

(** C relational operators; every comparison with a NaN is false, and
    [!=] is the negation of [==]. *)
Definition lt (a b : float) : bool := SFltb a b.
Definition le (a b : float) : bool := SFleb a b.
Definition gt (a b : float) : bool := SFltb b a.
Definition ge (a b : float) : bool := SFleb b a.
Definition eq (a b : float) : bool := SFeqb a b.
Definition ne (a b : float) : bool := negb (SFeqb a b).

Definition of_Z (z : Z) : float := binary_normalize prec emax z 0 false.

(** A decimal literal [n/d] with [n], [d] exactly representable: the
    correctly rounded quotient is the nearest binary32 value. *)
Definition lit (n d : Z) : float := div (of_Z n) (of_Z d).

Definition zero : float := S754_zero false.
Definition one : float := Eval vm_compute in of_Z 1.
Definition two : float := Eval vm_compute in of_Z 2.
Definition six : float := Eval vm_compute in of_Z 6.
Definition half : float := Eval vm_compute in lit 1 2.
Definition FLT_MAX : float := Eval vm_compute in SFmax_float prec emax.

Definition is_nan (x : float) : bool :=
  match x with S754_nan => true | _ => false end.

(** [fminf]/[fmaxf]: a NaN argument is ignored in favour of the other. *)
Definition fminf (x y : float) : float :=
  if is_nan x then y else if is_nan y then x
  else if lt y x then y else x.
Definition fmaxf (x y : float) : float :=
  if is_nan x then y else if is_nan y then x
  else if lt x y then y else x.

(** The integer part of a finite value, rounded toward zero. *)
Definition trunc (x : float) : option Z :=
  match x with
  | S754_zero _ => Some 0
  | S754_finite s m e =>
      let q := match e with
               | Zneg p => Z.shiftr (Zpos m) (Zpos p)
               | _ => Z.shiftl (Zpos m) e
               end in
      Some (if s then - q else q)
  | _ => None
  end.

(** Conversion [float -> int]: truncation toward zero, undefined (here
    [None]) for NaN, infinities and values outside the range of [int]. *)
Definition to_int (x : float) : option Z :=
  match trunc x with
  | Some z => if (Z.leb (- 2147483648) z && Z.leb z 2147483647)%bool
              then Some z else None
  | None => None
  end.

(** [floorf]. *)
Definition floorf (x : float) : float :=
  match x with
  | S754_finite s m (Zneg p) =>
      let q := Z.shiftr (Zpos m) (Zpos p) in
      let exact := Z.eqb (Z.shiftl q (Zpos p)) (Zpos m) in
      let z := if s then (if exact then - q else - q - 1) else q in
      binary_normalize prec emax z 0 s
  | _ => x
  end.
End F32.

Module F64.
Definition prec : Z := 53.
Definition emax : Z := 1024.

Definition add : double -> double -> double := SFadd prec emax.
Definition sub : double -> double -> double := SFsub prec emax.
Definition mul : double -> double -> double := SFmul prec emax.
Definition div : double -> double -> double := SFdiv prec emax.

Definition zero : double := S754_zero false.

(** Every binary32 value is a binary64 value: the widening conversion keeps
    the mantissa and the exponent it is given.  The arithmetic of
    [SpecFloat] rounds any such pair correctly; its comparison does not (it
    looks at the exponents first, which orders the canonical pairs of one
    format only), so a [double] is compared with a widened [float] by
    [compare], which brings the two mantissas to a common exponent. *)
Definition of_float (x : float) : double := x.

Definition compare (a b : double) : option comparison :=
  match a, b with
  | S754_finite s1 m1 e1, S754_finite s2 m2 e2 =>
      if Bool.eqb s1 s2 then
        let e := Z.min e1 e2 in
        let c := Z.compare (Z.shiftl (Zpos m1) (e1 - e))
                           (Z.shiftl (Zpos m2) (e2 - e)) in
        Some (if s1 then CompOpp c else c)
      else SFcompare a b
  | _, _ => SFcompare a b
  end.

(** [a >= b]; false when either side is a NaN. *)
Definition ge (a b : double) : bool :=
  match compare b a with
  | Some Lt | Some Eq => true
  | _ => false
  end.

(** Narrowing conversion, rounding to nearest even. *)
Definition to_float (x : double) : float :=
  match x with
  | S754_finite s m e => binary_round F32.prec F32.emax s m e
  | _ => x
  end.

(** [M_PI] of <math.h>: 0x1.921fb54442d18p+1. *)
Definition M_PI : double := S754_finite false 7074237752028440 (-51).
End F64.

Arguments F32.add : simpl never.
Arguments F32.sub : simpl never.
Arguments F32.mul : simpl never.
Arguments F32.div : simpl never.
Arguments F32.sqrt : simpl never.
Arguments F32.floorf : simpl never.
Arguments F32.fminf : simpl never.
Arguments F32.fmaxf : simpl never.
Arguments F64.add : simpl never.
Arguments F64.sub : simpl never.
Arguments F64.mul : simpl never.
Arguments F64.div : simpl never.
Arguments F64.to_float : simpl never.

Declare Scope f32_scope.
Delimit Scope f32_scope with f32.
Infix "+" := F32.add : f32_scope.
Infix "-" := F32.sub : f32_scope.
Infix "*" := F32.mul : f32_scope.
Infix "/" := F32.div : f32_scope.
Notation "- x" := (F32.neg x) : f32_scope.
Infix "<?" := F32.lt : f32_scope.
Infix "<=?" := F32.le : f32_scope.
Infix ">?" := F32.gt : f32_scope.
Infix ">=?" := F32.ge : f32_scope.
Infix "==?" := F32.eq (at level 70) : f32_scope.
Infix "!=?" := F32.ne (at level 70) : f32_scope.

(** The two libm functions the engine calls that have no closed form here.
    They are supplied by the platform, so the embedding takes them as an
    interface. *)
Class Libm := {
  sinf : float -> float;
  cosf : float -> float
}.

(** What ISO C Annex F (F.10.1.5 and F.10.1.6) fixes about them at zero. *)
Class LibmAnnexF (L : Libm) : Prop := {
  sinf_zero : forall s, sinf (S754_zero s) = S754_zero s;
  cosf_zero : forall s, cosf (S754_zero s) = F32.one
}.

(* ===================================================================== *)
(** ** proxima.h: constants, vectors and transforms *)
(* ===================================================================== *)

Definition PR_GEOMETRY_MAX_VERTEX_COUNT : Z := 8.
Definition PR_GEOMETRY_PIXELS_PER_UNIT : float := Eval vm_compute in F32.of_Z 16.
Definition PR_WORLD_BAUMGARTE_FACTOR : float := Eval vm_compute in F32.lit 24 100.
Definition PR_WORLD_BAUMGARTE_SLOP : float := Eval vm_compute in F32.lit 1 100.
Definition PR_WORLD_ITERATION_COUNT : nat := 12.
Definition PR_WORLD_MAX_OBJECT_COUNT : Z := 4096.

Record prVector2 := mkVector2 { v_x : float; v_y : float }.

Record prAABB := mkAABB {
  aabb_x : float; aabb_y : float; aabb_width : float; aabb_height : float
}.

Record prRotation := mkRotation { _sin : float; _cos : float }.

Record prTransform := mkTransform {
  position : prVector2;
  rotation : prRotation;
  angle : float
}.

(** [PR_API_STRUCT_ZERO(T)] for the structures that use it. *)
Definition prVector2_ZERO : prVector2 := mkVector2 F32.zero F32.zero.
Definition prAABB_ZERO : prAABB := mkAABB F32.zero F32.zero F32.zero F32.zero.
Definition prTransform_ZERO : prTransform :=
  mkTransform prVector2_ZERO (mkRotation F32.zero F32.zero) F32.zero.

Section Vector.
Local Open Scope f32_scope.
Context {L : Libm}.

Definition prVector2Add (v1 v2 : prVector2) : prVector2 :=
  mkVector2 (v_x v1 + v_x v2) (v_y v1 + v_y v2).

Definition prVector2Subtract (v1 v2 : prVector2) : prVector2 :=
  mkVector2 (v_x v1 - v_x v2) (v_y v1 - v_y v2).

Definition prVector2Negate (v : prVector2) : prVector2 :=
  mkVector2 (- v_x v) (- v_y v).

Definition prVector2ScalarMultiply (v : prVector2) (k : float) : prVector2 :=
  mkVector2 (v_x v * k) (v_y v * k).

Definition prVector2Dot (v1 v2 : prVector2) : float :=
  (v_x v1 * v_x v2) + (v_y v1 * v_y v2).

Definition prVector2Cross (v1 v2 : prVector2) : float :=
  (v_x v1 * v_y v2) - (v_y v1 * v_x v2).

Definition prVector2MagnitudeSqr (v : prVector2) : float :=
  (v_x v * v_x v) + (v_y v * v_y v).

Definition prVector2Magnitude (v : prVector2) : float :=
  F32.sqrt (prVector2MagnitudeSqr v).

Definition prVector2DistanceSqr (v1 v2 : prVector2) : float :=
  (v_x v2 - v_x v1) * (v_x v2 - v_x v1) + (v_y v2 - v_y v1) * (v_y v2 - v_y v1).

Definition prVector2Normalize (v : prVector2) : prVector2 :=
  let magnitude := prVector2Magnitude v in
  if magnitude >? F32.zero
  then prVector2ScalarMultiply v (F32.one / magnitude)
  else v.

Definition prVector2LeftNormal (v : prVector2) : prVector2 :=
  prVector2Normalize (mkVector2 (- v_y v) (v_x v)).

Definition prVector2RightNormal (v : prVector2) : prVector2 :=
  prVector2Normalize (mkVector2 (v_y v) (- v_x v)).

Definition prVector2Rotate (v : prVector2) (angle : float) : prVector2 :=
  let s := sinf angle in
  let c := cosf angle in
  mkVector2 (v_x v * c - v_y v * s) (v_x v * s + v_y v * c).

Definition prVector2RotateTx (v : prVector2) (tx : prTransform) : prVector2 :=
  mkVector2 (v_x v * _cos (rotation tx) - v_y v * _sin (rotation tx))
            (v_x v * _sin (rotation tx) + v_y v * _cos (rotation tx)).

Definition prVector2Transform (v : prVector2) (tx : prTransform) : prVector2 :=
  mkVector2
    (v_x (position tx) + (v_x v * _cos (rotation tx) - v_y v * _sin (rotation tx)))
    (v_y (position tx) + (v_x v * _sin (rotation tx) + v_y v * _cos (rotation tx))).

(** [(lhs > rhs) - (lhs < rhs)] on C's [int]. *)
Definition prVector2CounterClockwise (v1 v2 v3 : prVector2) : Z :=
  let lhs := (v_y v2 - v_y v1) * (v_x v3 - v_x v1) in
  let rhs := (v_y v3 - v_y v1) * (v_x v2 - v_x v1) in
  let gt := lhs >? rhs in
  let lt := lhs <? rhs in
  (Z.b2z gt - Z.b2z lt)%Z.

Definition prVector2PixelsToUnits (v : prVector2) : prVector2 :=
  if PR_GEOMETRY_PIXELS_PER_UNIT >? F32.zero
  then prVector2ScalarMultiply v (F32.one / PR_GEOMETRY_PIXELS_PER_UNIT)
  else prVector2_ZERO.

Definition prPixelsToUnits (k : float) : float :=
  if PR_GEOMETRY_PIXELS_PER_UNIT >? F32.zero
  then k / PR_GEOMETRY_PIXELS_PER_UNIT
  else F32.zero.
End Vector.

(* ===================================================================== *)
(** ** geometry.c: collision shapes *)
(* ===================================================================== *)

Inductive prShapeType := PR_SHAPE_UNKNOWN | PR_SHAPE_CIRCLE | PR_SHAPE_POLYGON.

Record prMaterial := mkMaterial {
  density : float; friction : float; restitution : float
}.

Definition prMaterial_ZERO : prMaterial := mkMaterial F32.zero F32.zero F32.zero.

(** [prVertices]: the array [data] of [PR_GEOMETRY_MAX_VERTEX_COUNT] slots
    and the separate [count].  A read outside the slots is undefined in C;
    [vget] then yields the zero vector, and [vset] leaves the array as is. *)
Record prVertices := mkVertices { data : list prVector2; count : Z }.

Definition vget (d : list prVector2) (i : Z) : prVector2 :=
  if Z.ltb i 0 then prVector2_ZERO else nth (Z.to_nat i) d prVector2_ZERO.

Definition vset (d : list prVector2) (i : Z) (v : prVector2) : list prVector2 :=
  if Z.ltb i 0 then d else <[Z.to_nat i := v]> d.

(** An initializer list: the named entries, the rest of the slots zero. *)
Definition prVertices_init (l : list prVector2) (n : Z) : prVertices :=
  mkVertices (take (Z.to_nat PR_GEOMETRY_MAX_VERTEX_COUNT)
                (l ++ replicate (Z.to_nat PR_GEOMETRY_MAX_VERTEX_COUNT) prVector2_ZERO)) n.

(** [struct _prShape].  The C union overlays [circle.radius] and
    [polygon]; each accessor below reads the member its type tag selects,
    so the two members are kept side by side. *)
Record prShape := mkShape {
  s_type : prShapeType;
  material : prMaterial;
  area : float;
  radius : float;
  vertices : prVertices;
  normals : prVertices
}.

Definition prShape_calloc : prShape :=
  mkShape PR_SHAPE_UNKNOWN prMaterial_ZERO F32.zero F32.zero
          (prVertices_init [] 0) (prVertices_init [] 0).

Definition shapeType_eqb (a b : prShapeType) : bool :=
  match a, b with
  | PR_SHAPE_UNKNOWN, PR_SHAPE_UNKNOWN
  | PR_SHAPE_CIRCLE, PR_SHAPE_CIRCLE
  | PR_SHAPE_POLYGON, PR_SHAPE_POLYGON => true
  | _, _ => false
  end.

Section Geometry.
Local Open Scope f32_scope.
Context {L : Libm}.

(** One round of the gift wrapping: the first index other than
    [currentIndex], then the scan that moves [nextIndex] to every point
    not clockwise of the current candidate.  [toCandidate] and [toNext]
    are the same expression in the source. *)
Definition prJarvisMarch_next (input : prVertices) (currentIndex nextIndex : Z) : Z :=
  let nextIndex :=
    match find (fun i => negb (Z.eqb i currentIndex)) (seqZ 0 (count input)) with
    | Some i => i
    | None => nextIndex
    end in
  fold_left
    (fun nextIndex i =>
       if (Z.eqb i currentIndex || Z.eqb i nextIndex)%bool then nextIndex
       else
         let direction := prVector2CounterClockwise
                            (vget (data input) currentIndex)
                            (vget (data input) i)
                            (vget (data input) nextIndex) in
         if Z.ltb direction 0 then nextIndex
         else
           let toCandidate := prVector2DistanceSqr
                                (vget (data input) currentIndex)
                                (vget (data input) nextIndex) in
           let toNext := prVector2DistanceSqr
                           (vget (data input) currentIndex)
                           (vget (data input) nextIndex) in
           if (negb (Z.eqb direction 0)
               || (Z.eqb direction 0 && (toCandidate >? toNext)))%bool
           then i else nextIndex)
    (seqZ 0 (count input)) nextIndex.

(** The [for (;;)] loop.  Each round that does not break stores one more
    output vertex; a store past the last slot is undefined ([None]), so
    [PR_GEOMETRY_MAX_VERTEX_COUNT] rounds always suffice. *)
Fixpoint prJarvisMarch_loop (fuel : nat) (input : prVertices)
    (lowestIndex currentIndex nextIndex : Z) (output : prVertices)
    : option prVertices :=
  match fuel with
  | O => None
  | S fuel' =>
      let nextIndex := prJarvisMarch_next input currentIndex nextIndex in
      if Z.eqb nextIndex lowestIndex then Some output
      else if Z.leb PR_GEOMETRY_MAX_VERTEX_COUNT (count output) then None
      else prJarvisMarch_loop fuel' input lowestIndex nextIndex nextIndex
             (mkVertices (vset (data output) (count output)
                               (vget (data input) nextIndex))
                         (count output + 1)%Z)
  end.

Definition prJarvisMarch (input output : prVertices) : option prVertices :=
  if Z.ltb (count input) 3 then Some output
  else
    let lowestIndex :=
      fold_left
        (fun lowestIndex i =>
           if v_x (vget (data input) lowestIndex) >? v_x (vget (data input) i)
           then i else lowestIndex)
        (seqZ 1 (count input - 1)) 0%Z in
    let output := mkVertices (vset (data output) 0 (vget (data input) lowestIndex)) 1 in
    prJarvisMarch_loop (Z.to_nat PR_GEOMETRY_MAX_VERTEX_COUNT) input
      lowestIndex lowestIndex lowestIndex output.

(** [prSetPolygonVertices] for [s != NULL]; [None] is the undefined
    overrun of the hull buffer. *)
Definition prSetPolygonVertices (s : prShape) (vs : option prVertices)
    : option prShape :=
  match vs with
  | None => Some s
  | Some vs =>
      if Z.leb (count vs) 0 then Some s
      else
        match prJarvisMarch vs (prVertices_init [] 0) with
        | None => None
        | Some newVertices =>
            let n := count newVertices in
            let vdata :=
              fold_left (fun d i => vset d i (vget (data newVertices) i))
                        (seqZ 0 n) (data (vertices s)) in
            let ndata :=
              fold_left
                (fun d i =>
                   let j := if Z.eqb i 0 then (n - 1)%Z else (i - 1)%Z in
                   vset d i (prVector2LeftNormal
                               (prVector2Subtract (vget vdata i) (vget vdata j))))
                (seqZ 0 n) (data (normals s)) in
            let twiceAreaSum :=
              fold_left
                (fun acc i =>
                   acc + prVector2Cross
                           (prVector2Subtract (vget vdata i) (vget vdata 0))
                           (prVector2Subtract (vget vdata (i + 1)%Z) (vget vdata 0)))
                (seqZ 0 (n - 1)) F32.zero in
            Some (mkShape (s_type s) (material s)
                          (F32.abs (F32.half * twiceAreaSum))
                          (radius s)
                          (mkVertices vdata n) (mkVertices ndata n))
        end
  end.

(** [prSetCircleRadius] for [s != NULL].  [M_PI] is a [double], so the
    product is taken in binary64 and narrowed on assignment. *)
Definition prSetCircleRadius (s : prShape) (r : float) : prShape :=
  if negb (shapeType_eqb (s_type s) PR_SHAPE_CIRCLE) then s
  else mkShape (s_type s) (material s)
         (F64.to_float (F64.mul F64.M_PI (F64.of_float (r * r))))
         r (vertices s) (normals s).

(** The constructors return [Some None] for a [NULL] handle. *)
Definition prCreateCircle (m : prMaterial) (r : float) : option prShape :=
  if r <=? F32.zero then None
  else
    let result := mkShape PR_SHAPE_CIRCLE m (area prShape_calloc)
                    (radius prShape_calloc) (vertices prShape_calloc)
                    (normals prShape_calloc) in
    Some (prSetCircleRadius result r).

Definition prCreateRectangle (m : prMaterial) (width height : float)
    : option (option prShape) :=
  if ((width <=? F32.zero) || (height <=? F32.zero))%bool then Some None
  else
    let result := mkShape PR_SHAPE_POLYGON m (area prShape_calloc)
                    (radius prShape_calloc) (vertices prShape_calloc)
                    (normals prShape_calloc) in
    let halfWidth := F32.half * width in
    let halfHeight := F32.half * height in
    Some <$> prSetPolygonVertices result
      (Some (prVertices_init
               [ mkVector2 (- halfWidth) (- halfHeight);
                 mkVector2 (- halfWidth) halfHeight;
                 mkVector2 halfWidth halfHeight;
                 mkVector2 halfWidth (- halfHeight) ] 4)).

Definition prCreatePolygon (m : prMaterial) (vs : option prVertices)
    : option (option prShape) :=
  match vs with
  | None => Some None
  | Some v =>
      if Z.leb (count v) 0 then Some None
      else
        let result := mkShape PR_SHAPE_POLYGON m (area prShape_calloc)
                        (radius prShape_calloc) (vertices prShape_calloc)
                        (normals prShape_calloc) in
        Some <$> prSetPolygonVertices result vs
  end.

Definition prGetShapeType (s : option prShape) : prShapeType :=
  match s with Some s => s_type s | None => PR_SHAPE_UNKNOWN end.

Definition prGetShapeFriction (s : option prShape) : float :=
  match s with Some s => friction (material s) | None => F32.zero end.

Definition prGetShapeRestitution (s : option prShape) : float :=
  match s with Some s => restitution (material s) | None => F32.zero end.

Definition prGetShapeArea (s : option prShape) : float :=
  match s with Some s => area s | None => F32.zero end.

Definition prGetShapeMass (s : option prShape) : float :=
  match s with
  | Some s => density (material s) * area s
  | None => F32.zero
  end.

Definition prGetShapeInertia (s : option prShape) : float :=
  match s with
  | None => F32.zero
  | Some sh =>
      if density (material sh) <=? F32.zero then F32.zero
      else
        match s_type sh with
        | PR_SHAPE_CIRCLE =>
            F32.half * prGetShapeMass s * (radius sh * radius sh)
        | PR_SHAPE_POLYGON =>
            let vertexCount := count (vertices sh) in
            let '(numerator, denominator) :=
              fold_left
                (fun '(numerator, denominator) i =>
                   let j := if Z.eqb i 0 then (vertexCount - 1)%Z else (i - 1)%Z in
                   let v1 := vget (data (vertices sh)) j in
                   let v2 := vget (data (vertices sh)) i in
                   let cross := prVector2Cross v1 v2 in
                   let dotSum := prVector2Dot v1 v1 + prVector2Dot v1 v2
                                 + prVector2Dot v2 v2 in
                   (numerator + cross * dotSum, denominator + cross))
                (seqZ 0 vertexCount) (F32.zero, F32.zero) in
            density (material sh) * (numerator / (F32.six * denominator))
        | PR_SHAPE_UNKNOWN => F32.zero
        end
  end.

Definition prGetShapeAABB (s : option prShape) (tx : prTransform) : prAABB :=
  match s with
  | None => prAABB_ZERO
  | Some s =>
      match s_type s with
      | PR_SHAPE_CIRCLE =>
          mkAABB (v_x (position tx) - radius s) (v_y (position tx) - radius s)
                 (F32.two * radius s) (F32.two * radius s)
      | PR_SHAPE_POLYGON =>
          let '(minVertex, maxVertex) :=
            fold_left
              (fun '(minVertex, maxVertex) i =>
                 let v := prVector2Transform (vget (data (vertices s)) i) tx in
                 let minVertex :=
                   mkVector2 (if v_x minVertex >? v_x v then v_x v else v_x minVertex)
                             (if v_y minVertex >? v_y v then v_y v else v_y minVertex) in
                 let maxVertex :=
                   mkVector2 (if v_x maxVertex <? v_x v then v_x v else v_x maxVertex)
                             (if v_y maxVertex <? v_y v then v_y v else v_y maxVertex) in
                 (minVertex, maxVertex))
              (seqZ 0 (count (vertices s)))
              (mkVector2 F32.FLT_MAX F32.FLT_MAX,
               mkVector2 (- F32.FLT_MAX) (- F32.FLT_MAX)) in
          let deltaX := v_x maxVertex - v_x minVertex in
          let deltaY := v_y maxVertex - v_y minVertex in
          mkAABB (v_x minVertex) (v_y minVertex) deltaX deltaY
      | PR_SHAPE_UNKNOWN => prAABB_ZERO
      end
  end.

Definition prGetCircleRadius (s : option prShape) : float :=
  match s with
  | Some sh => if shapeType_eqb (s_type sh) PR_SHAPE_CIRCLE then radius sh else F32.zero
  | None => F32.zero
  end.

(** [NULL] unless the shape is a polygon. *)
Definition prGetPolygonVertices (s : option prShape) : option prVertices :=
  match s with
  | Some sh => if shapeType_eqb (s_type sh) PR_SHAPE_POLYGON then Some (vertices sh) else None
  | None => None
  end.

Definition prGetPolygonNormals (s : option prShape) : option prVertices :=
  match s with
  | Some sh => if shapeType_eqb (s_type sh) PR_SHAPE_POLYGON then Some (normals sh) else None
  | None => None
  end.

Definition prGetPolygonNormal (s : option prShape) (index : Z) : prVector2 :=
  match s with
  | Some sh =>
      if (negb (shapeType_eqb (s_type sh) PR_SHAPE_POLYGON)
          || Z.ltb index 0 || Z.leb (count (normals sh)) index)%bool
      then prVector2_ZERO
      else vget (data (normals sh)) index
  | None => prVector2_ZERO
  end.
End Geometry.

(* ===================================================================== *)
(** ** broad-phase.c: the spatial hash *)
(* ===================================================================== *)

(** [struct _prSpatialHash].  [entries] is the stb_ds hash map from cell
    keys to arrays of values; [queryResult] is the scratch array. *)
Record prSpatialHash := mkSpatialHash {
  cellSize : float;
  inverseCellSize : float;
  queryResult : list Z;
  entries : gmap (Z * Z) (list Z)
}.

(** [(x > y) - (x < y)]. *)
Definition prQSortCompare (x y : Z) : Z := Z.b2z (Z.gtb x y) - Z.b2z (Z.ltb x y).

Definition prQSortLe (x y : Z) : Prop := prQSortCompare x y <= 0.

#[global] Instance prQSortLe_dec x y : Decision (prQSortLe x y).
Proof. unfold prQSortLe. apply _. Defined.

(** [qsort] with [prQSortCompare]: the array put in the order of the
    comparison function. *)
Definition qsort (l : list Z) : list Z := merge_sort prQSortLe l.

Section SpatialHash.
Local Open Scope f32_scope.

(** [NULL] when [cellSize <= 0]. *)
Definition prCreateSpatialHash (cellSize : float) : option prSpatialHash :=
  if cellSize <=? F32.zero then None
  else Some (mkSpatialHash cellSize (F32.one / cellSize) [] ∅).

(** [arrsetlen(.., 0)] on the scratch array and on every cell. *)
Definition prClearSpatialHash (sh : prSpatialHash) : prSpatialHash :=
  mkSpatialHash (cellSize sh) (inverseCellSize sh) []
                ((fun _ => []) <$> entries sh).

(** The four [float -> int] conversions at the head of insertion and
    query: [(minX, minY, maxX, maxY)].  [None] when a conversion is
    undefined. *)
Definition prCellBounds (inverseCellSize : float) (key : prAABB)
    : option (Z * Z * Z * Z) :=
  minX ← F32.to_int (aabb_x key * inverseCellSize);
  minY ← F32.to_int (aabb_y key * inverseCellSize);
  maxX ← F32.to_int ((aabb_x key + aabb_width key) * inverseCellSize);
  maxY ← F32.to_int ((aabb_y key + aabb_height key) * inverseCellSize);
  Some (minX, minY, maxX, maxY).

(** The cells visited by [for (y = minY; y <= maxY; y++) for (x = minX;
    x <= maxX; x++)], in that order. *)
Definition prCells (b : Z * Z * Z * Z) : list (Z * Z) :=
  let '(minX, minY, maxX, maxY) := b in
  y ← seqZ minY (maxY - minY + 1);
  x ← seqZ minX (maxX - minX + 1);
  [(x, y)].

Definition prInsertCell (value : Z) (es : gmap (Z * Z) (list Z)) (key : Z * Z)
    : gmap (Z * Z) (list Z) :=
  match es !! key with
  | Some vs => <[key := vs ++ [value]]> es
  | None => <[key := [value]]> es
  end.

(** [prInsertToSpatialHash] for [sh != NULL]. *)
Definition prInsertToSpatialHash (sh : prSpatialHash) (key : prAABB) (value : Z)
    : option prSpatialHash :=
  b ← prCellBounds (inverseCellSize sh) key;
  Some (mkSpatialHash (cellSize sh) (inverseCellSize sh) (queryResult sh)
          (fold_left (prInsertCell value) (prCells b) (entries sh))).

(** Reads of the scratch array [q] of length [oldLength].  The source
    reads [q[oldLength]] (one past the collected values) in the last round
    of the duplicate scan and [q[newLength - 1]] with [newLength = 0]
    (one before the array) after it; what those two words hold is not
    determined by the program, so they are inputs: [past] and [before]. *)
Definition qread (past before : Z) (q : list Z) (i : Z) : Z :=
  if Z.ltb i 0 then before else nth (Z.to_nat i) q past.

(** The in-place duplicate removal that follows [qsort]. *)
Definition prDedup (past before : Z) (q : list Z) : list Z :=
  let oldLength := Z.of_nat (length q) in
  let '(q, newLength) :=
    fold_left
      (fun '(q, newLength) i =>
         if negb (Z.eqb (qread past before q i) (qread past before q (i + 1)))
         then (<[Z.to_nat newLength := qread past before q i]> q, newLength + 1)
         else (q, newLength))%Z
      (seqZ 0 oldLength) (q, 0%Z) in
  let '(q, newLength) :=
    if negb (Z.eqb (qread past before q (newLength - 1))
                   (qread past before q (oldLength - 1)))
    then (<[Z.to_nat newLength := qread past before q (oldLength - 1)]> q,
          newLength + 1)%Z
    else (q, newLength) in
  take (Z.to_nat newLength) q.

(** The contents of [sh->queryResult] when the callbacks start. *)
Definition prQueryCandidates (past before : Z) (sh : prSpatialHash) (b : Z * Z * Z * Z)
    : list Z :=
  let collected := k ← prCells b; default [] (entries sh !! k) in
  if Z.ltb 1 (Z.of_nat (length collected))
  then prDedup past before (qsort collected)
  else collected.

(** [prQuerySpatialHash] for [sh != NULL]: the callback [func] threads
    its context [ctx]; its boolean result is not looked at. *)
Definition prQuerySpatialHash {Ctx : Type} (past before : Z)
    (sh : prSpatialHash) (aabb : prAABB)
    (func : Z -> Ctx -> bool * Ctx) (ctx : Ctx)
    : option (prSpatialHash * Ctx) :=
  b ← prCellBounds (inverseCellSize sh) aabb;
  let result := prQueryCandidates past before sh b in
  Some (mkSpatialHash (cellSize sh) (inverseCellSize sh) result (entries sh),
        fold_left (fun ctx v => snd (func v ctx)) result ctx).
End SpatialHash.

(* ===================================================================== *)
(** ** Bodies and manifolds: the data of rigid-body.c and collision.c *)
(* ===================================================================== *)

Inductive prBodyType :=
  PR_BODY_UNKNOWN | PR_BODY_STATIC | PR_BODY_KINEMATIC | PR_BODY_DYNAMIC.

Definition bodyType_eqb (a b : prBodyType) : bool :=
  match a, b with
  | PR_BODY_UNKNOWN, PR_BODY_UNKNOWN
  | PR_BODY_STATIC, PR_BODY_STATIC
  | PR_BODY_KINEMATIC, PR_BODY_KINEMATIC
  | PR_BODY_DYNAMIC, PR_BODY_DYNAMIC => true
  | _, _ => false
  end.

(** [prBodyFlag] values, tested with [&] on the [uint_fast8_t] flag word. *)
Definition PR_FLAG_NONE : Z := 0.
Definition PR_FLAG_INFINITE_MASS : Z := 1.
Definition PR_FLAG_INFINITE_INERTIA : Z := 2.

Record prMotionData := mkMotionData {
  mass : float; inverseMass : float;
  inertia : float; inverseInertia : float;
  gravityScale : float;
  velocity : prVector2;
  angularVelocity : float;
  force : prVector2;
  torque : float
}.

(** [struct _prBody].  The shape is held by value; [ctx] is the opaque user
    pointer. *)
Record prBody := mkBody {
  b_type : prBodyType;
  flags : Z;
  shape : option prShape;
  tx : prTransform;
  mtn : prMotionData;
  aabb : prAABB;
  ctx : Z
}.

(** Body pointers are addresses; the heap holds the bodies they point to. *)
Definition addr := nat.
Abbreviation heap := (gmap addr prBody).

Record prBodyPair := mkBodyPair { first : addr; second : addr }.

Record prContactCache := mkContactCache {
  normalMass : float; normalScalar : float;
  tangentMass : float; tangentScalar : float
}.

Record prContact := mkContact {
  id : Z;
  point : prVector2;
  depth : float;
  cache : prContactCache
}.

(** [prCollision]; [contacts] is the two-slot array. *)
Record prCollision := mkCollision {
  c_friction : float;
  c_restitution : float;
  direction : prVector2;
  contacts : prContact * prContact;
  c_count : Z
}.

Definition prContactCache_ZERO : prContactCache :=
  mkContactCache F32.zero F32.zero F32.zero F32.zero.
Definition prContact_ZERO : prContact :=
  mkContact 0 prVector2_ZERO F32.zero prContactCache_ZERO.

(** [(prCollision) { .count = 0 }]. *)
Definition prCollision_ZERO : prCollision :=
  mkCollision F32.zero F32.zero prVector2_ZERO (prContact_ZERO, prContact_ZERO) 0.

(** [contacts[i]] for the two slots that exist, [i = 0] and [i = 1].  The
    narrow phase indexes with these two constants; the solver loop, which
    indexes up to [count], checks its index first (see
    [frResolveContact]). *)
Definition contact_get (c : prCollision) (i : Z) : prContact :=
  if Z.eqb i 0 then fst (contacts c) else snd (contacts c).

Definition contact_set (c : prCollision) (i : Z) (k : prContact) : prCollision :=
  mkCollision (c_friction c) (c_restitution c) (direction c)
    (if Z.eqb i 0 then (k, snd (contacts c)) else (fst (contacts c), k))
    (c_count c).

Record prRay := mkRay {
  origin : prVector2;
  ray_direction : prVector2;
  maxDistance : float
}.

Record prRaycastHit := mkRaycastHit {
  hit_body : option addr;
  hit_point : prVector2;
  hit_normal : prVector2;
  hit_distance : float;
  inside : bool
}.

(** [struct _prEdge] of collision.c. *)
Record prEdge := mkEdge {
  e_data : prVector2 * prVector2;
  indexes : Z * Z;
  e_count : Z
}.

(* ===================================================================== *)
(** ** collision.c: narrow phase *)
(* ===================================================================== *)

Section Collision.
Local Open Scope f32_scope.
Context {L : Libm}.

(** [prClipEdge]: the result flag and the edge as left in [*e]. *)
Definition prClipEdge (e : prEdge) (v : prVector2) (dot : float) : bool * prEdge :=
  let e0 := mkEdge (e_data e) (indexes e) 0 in
  let dot1 := prVector2Dot (fst (e_data e)) v - dot in
  let dot2 := prVector2Dot (snd (e_data e)) v - dot in
  if ((dot1 >=? F32.zero) && (dot2 >=? F32.zero))%bool then
    (true, mkEdge (e_data e) (indexes e) 2)
  else
    let edgeVector := prVector2Subtract (snd (e_data e)) (fst (e_data e)) in
    let midpoint := prVector2Add (fst (e_data e))
                      (prVector2ScalarMultiply edgeVector (dot1 / (dot1 - dot2))) in
    if ((dot1 >? F32.zero) && (dot2 <? F32.zero))%bool then
      (true, mkEdge (fst (e_data e), midpoint) (indexes e) 2)
    else if ((dot1 <? F32.zero) && (dot2 >? F32.zero))%bool then
      (true, mkEdge (snd (e_data e), midpoint) (indexes e) 2)
    else (false, e0).

(** Returns the index of the vertex farthest along [v]. *)
Definition prGetSupportPointIndex (vs : prVertices) (tx : prTransform)
    (v : prVector2) : Z :=
  let v := prVector2Rotate v (- angle tx) in
  snd (fold_left
         (fun '(maxDot, maxIndex) i =>
            let dot := prVector2Dot (vget (data vs) i) v in
            if maxDot <? dot then (dot, i) else (maxDot, maxIndex))
         (seqZ 0 (count vs)) (- F32.FLT_MAX, (-1)%Z)).

(** [prGetSeparatingAxisIndex]: the returned index and the value of
    [*depth] on return ([depth0] on entry).  The early [return] inside the
    loop leaves [*depth] alone. *)
Definition prGetSeparatingAxisIndex (s1 : prShape) (tx1 : prTransform)
    (s2 : prShape) (tx2 : prTransform) (depth0 : float) : Z * float :=
  let vertices1 := vertices s1 in
  let vertices2 := vertices s2 in
  let normals1 := normals s1 in
  let r :=
    fold_left
      (fun (st : Z + float * Z) i =>
         match st with
         | inl _ => st
         | inr (maxDepth, maxIndex) =>
             let vertex := prVector2Transform (vget (data vertices1) i) tx1 in
             let normal := prVector2RotateTx (vget (data normals1) i) tx1 in
             let supportIndex :=
               prGetSupportPointIndex vertices2 tx2 (prVector2Negate normal) in
             if Z.ltb supportIndex 0 then inl supportIndex
             else
               let supportPoint :=
                 prVector2Transform (vget (data vertices2) supportIndex) tx2 in
               let depth := prVector2Dot normal
                              (prVector2Subtract supportPoint vertex) in
               if maxDepth <? depth then inr (depth, i) else inr (maxDepth, maxIndex)
         end)
      (seqZ 0 (count normals1)) (inr (- F32.FLT_MAX, (-1)%Z)) in
  match r with
  | inl supportIndex => (supportIndex, depth0)
  | inr (maxDepth, maxIndex) => (maxIndex, maxDepth)
  end.

(** Returns the edge of [s] that is most perpendicular to [v]. *)
Definition prGetContactEdge (s : prShape) (tx : prTransform) (v : prVector2)
    : prEdge :=
  let vs := vertices s in
  let supportIndex := prGetSupportPointIndex vs tx v in
  let prevIndex := if Z.eqb supportIndex 0 then (count vs - 1)%Z
                   else (supportIndex - 1)%Z in
  let nextIndex := if Z.eqb supportIndex (count vs - 1) then 0%Z
                   else (supportIndex + 1)%Z in
  let prevEdgeVector := prVector2Normalize
      (prVector2Subtract (vget (data vs) supportIndex) (vget (data vs) prevIndex)) in
  let nextEdgeVector := prVector2Normalize
      (prVector2Subtract (vget (data vs) supportIndex) (vget (data vs) nextIndex)) in
  let v := prVector2Rotate v (- angle tx) in
  if prVector2Dot prevEdgeVector v <? prVector2Dot nextEdgeVector v then
    mkEdge (prVector2Transform (vget (data vs) prevIndex) tx,
            prVector2Transform (vget (data vs) supportIndex) tx)
           (prevIndex, supportIndex) 2
  else
    mkEdge (prVector2Transform (vget (data vs) supportIndex) tx,
            prVector2Transform (vget (data vs) nextIndex) tx)
           (supportIndex, nextIndex) 2.

(** The three shape-pair routines take the manifold pointer [collision]
    ([None] for [NULL]) and return the flag with the manifold as left. *)
Definition prComputeCollisionCircles (s1 : prShape) (tx1 : prTransform)
    (s2 : prShape) (tx2 : prTransform) (collision : option prCollision)
    : bool * option prCollision :=
  let dir := prVector2Subtract (position tx2) (position tx1) in
  let radiusSum := prGetCircleRadius (Some s1) + prGetCircleRadius (Some s2) in
  let magnitudeSqr := prVector2MagnitudeSqr dir in
  if radiusSum * radiusSum <? magnitudeSqr then (false, collision)
  else
    (true,
     match collision with
     | None => None
     | Some c =>
         let magnitude := F32.sqrt magnitudeSqr in
         let d := if magnitude >? F32.zero
                  then prVector2ScalarMultiply dir (F32.one / magnitude)
                  else mkVector2 F32.one F32.zero in
         let k0 := mkContact 0
                     (prVector2Transform
                        (prVector2ScalarMultiply d (prGetCircleRadius (Some s1))) tx1)
                     (if magnitude >? F32.zero then radiusSum - magnitude
                      else prGetCircleRadius (Some s1))
                     (cache (fst (contacts c))) in
         Some (mkCollision (c_friction c) (c_restitution c) d (k0, k0) 1)
     end).

(** The common tail of the three branches of the circle-polygon routine
    that store a contact: flip [d] toward body 2, then fill slot 0 and
    copy it to slot 1. *)
Definition prStoreCircleContact (c : prCollision) (tx1 tx2 : prTransform)
    (d : prVector2) (pointOf : prVector2 -> prVector2) (dep : float)
    : prCollision :=
  let deltaPosition := prVector2Subtract (position tx2) (position tx1) in
  let d := if prVector2Dot deltaPosition d <? F32.zero
           then prVector2Negate d else d in
  let k0 := mkContact 0 (pointOf d) dep (cache (fst (contacts c))) in
  mkCollision (c_friction c) (c_restitution c) d (k0, k0) 1.

Definition prComputeCollisionCirclePoly (s1 : prShape) (tx1 : prTransform)
    (s2 : prShape) (tx2 : prTransform) (collision : option prCollision)
    : bool * option prCollision :=
  let '(circle, poly, circleTx, polyTx) :=
    if shapeType_eqb (s_type s1) PR_SHAPE_CIRCLE
    then (s1, s2, tx1, tx2) else (s2, s1, tx2, tx1) in
  let vs := vertices poly in
  let ns := normals poly in
  let txCenter := prVector2Rotate
                    (prVector2Subtract (position circleTx) (position polyTx))
                    (- angle polyTx) in
  let r := prGetCircleRadius (Some circle) in
  let scan :=
    fold_left
      (fun (st : option (float * Z)) i =>
         match st with
         | None => None
         | Some (maxDot, maxIndex) =>
             let dot := prVector2Dot (vget (data ns) i)
                          (prVector2Subtract txCenter (vget (data vs) i)) in
             if dot >? r then None
             else if maxDot <? dot then Some (dot, i)
             else Some (maxDot, maxIndex)
         end)
      (seqZ 0 (count vs)) (Some (- F32.FLT_MAX, (-1)%Z)) in
  match scan with
  | None => (false, collision)
  | Some (maxDot, maxIndex) =>
      if Z.ltb maxIndex 0 then (false, collision)
      else if maxDot <? F32.zero then
        (true,
         (fun c => prStoreCircleContact c tx1 tx2
                     (prVector2Negate (prVector2RotateTx (vget (data ns) maxIndex) polyTx))
                     (fun d => prVector2Add (position circleTx)
                                 (prVector2ScalarMultiply d r))
                     (r - maxDot)) <$> collision)
      else
        let v1 := if Z.gtb maxIndex 0 then vget (data vs) (maxIndex - 1)
                  else vget (data vs) (count vs - 1) in
        let v2 := vget (data vs) maxIndex in
        let edgeVector := prVector2Subtract v2 v1 in
        let v1ToCenter := prVector2Subtract txCenter v1 in
        let v2ToCenter := prVector2Subtract txCenter v2 in
        let v1Dot := prVector2Dot v1ToCenter edgeVector in
        let v2Dot := prVector2Dot v2ToCenter (prVector2Negate edgeVector) in
        if ((v1Dot <=? F32.zero) || (v2Dot <=? F32.zero))%bool then
          let dir := if v1Dot <=? F32.zero then v1ToCenter else v2ToCenter in
          let magnitudeSqr := prVector2MagnitudeSqr dir in
          if magnitudeSqr >? r * r then (false, collision)
          else
            (true,
             (fun c =>
                let magnitude := F32.sqrt magnitudeSqr in
                prStoreCircleContact c tx1 tx2
                  (if magnitude >? F32.zero
                   then prVector2ScalarMultiply
                          (prVector2RotateTx (prVector2Negate dir) polyTx)
                          (F32.one / magnitude)
                   else prVector2_ZERO)
                  (fun d => prVector2Transform (prVector2ScalarMultiply d r) circleTx)
                  (if magnitude >? F32.zero then r - magnitude else r))
             <$> collision)
        else
          (true,
           (fun c => prStoreCircleContact c tx1 tx2
                       (prVector2Negate (prVector2RotateTx (vget (data ns) maxIndex) polyTx))
                       (fun d => prVector2Add (position circleTx)
                                   (prVector2ScalarMultiply d r))
                       (r - maxDot)) <$> collision)
  end.

Definition prComputeCollisionPolys (s1 : prShape) (tx1 : prTransform)
    (s2 : prShape) (tx2 : prTransform) (collision : option prCollision)
    : bool * option prCollision :=
  let '(index1, maxDepth1) :=
    prGetSeparatingAxisIndex s1 tx1 s2 tx2 F32.FLT_MAX in
  if maxDepth1 >=? F32.zero then (false, collision)
  else
    let '(index2, maxDepth2) :=
      prGetSeparatingAxisIndex s2 tx2 s1 tx1 F32.FLT_MAX in
    if maxDepth2 >=? F32.zero then (false, collision)
    else
      match collision with
      | None => (true, None)
      | Some c =>
          let d := if maxDepth1 >? maxDepth2
                   then prVector2RotateTx (prGetPolygonNormal (Some s1) index1) tx1
                   else prVector2RotateTx (prGetPolygonNormal (Some s2) index2) tx2 in
          let deltaPosition := prVector2Subtract (position tx2) (position tx1) in
          let d := if prVector2Dot deltaPosition d <? F32.zero
                   then prVector2Negate d else d in
          let edge1 := prGetContactEdge s1 tx1 d in
          let edge2 := prGetContactEdge s2 tx2 (prVector2Negate d) in
          let edgeVector1 := prVector2Subtract (snd (e_data edge1)) (fst (e_data edge1)) in
          let edgeVector2 := prVector2Subtract (snd (e_data edge2)) (fst (e_data edge2)) in
          let edgeDot1 := prVector2Dot edgeVector1 d in
          let edgeDot2 := prVector2Dot edgeVector2 d in
          let '(refEdge, incEdge, incEdgeFlipped) :=
            if F32.abs edgeDot1 >? F32.abs edgeDot2
            then (edge2, edge1, true) else (edge1, edge2, false) in
          let refEdgeVector := prVector2Normalize
              (prVector2Subtract (snd (e_data refEdge)) (fst (e_data refEdge))) in
          let refDot1 := prVector2Dot (fst (e_data refEdge)) refEdgeVector in
          let refDot2 := prVector2Dot (snd (e_data refEdge)) refEdgeVector in
          let '(ok1, incEdge) := prClipEdge incEdge refEdgeVector refDot1 in
          if negb ok1 then (false, collision)
          else
            let '(ok2, incEdge) :=
              prClipEdge incEdge (prVector2Negate refEdgeVector) (- refDot2) in
            if negb ok2 then (false, collision)
            else
              let refEdgeNormal := prVector2RightNormal refEdgeVector in
              let maxDepth := prVector2Dot (fst (e_data refEdge)) refEdgeNormal in
              let depth1 := prVector2Dot (fst (e_data incEdge)) refEdgeNormal - maxDepth in
              let depth2 := prVector2Dot (snd (e_data incEdge)) refEdgeNormal - maxDepth in
              let id0 := if negb incEdgeFlipped
                         then (PR_GEOMETRY_MAX_VERTEX_COUNT + fst (indexes incEdge))%Z
                         else fst (indexes incEdge) in
              let id1 := if negb incEdgeFlipped
                         then (PR_GEOMETRY_MAX_VERTEX_COUNT + snd (indexes incEdge))%Z
                         else snd (indexes incEdge) in
              let cache0 := cache (fst (contacts c)) in
              let cache1 := cache (snd (contacts c)) in
              if depth1 <? F32.zero then
                (true, Some (mkCollision (c_friction c) (c_restitution c) d
                               (mkContact id0 (snd (e_data incEdge)) depth2 cache0,
                                mkContact id1 (snd (e_data incEdge)) depth2 cache1) 1))
              else if depth2 <? F32.zero then
                (true, Some (mkCollision (c_friction c) (c_restitution c) d
                               (mkContact id0 (fst (e_data incEdge)) depth1 cache0,
                                mkContact id1 (fst (e_data incEdge)) depth1 cache1) 1))
              else
                (true, Some (mkCollision (c_friction c) (c_restitution c) d
                               (mkContact id0 (fst (e_data incEdge)) depth1 cache0,
                                mkContact id1 (snd (e_data incEdge)) depth2 cache1) 2))
      end.

(** [prComputeCollision]: [s1], [s2] and [collision] may be [NULL]. *)
Definition prComputeCollision (s1 : option prShape) (tx1 : prTransform)
    (s2 : option prShape) (tx2 : prTransform) (collision : option prCollision)
    : bool * option prCollision :=
  match s1, s2 with
  | Some sh1, Some sh2 =>
      match s_type sh1, s_type sh2 with
      | PR_SHAPE_CIRCLE, PR_SHAPE_CIRCLE =>
          prComputeCollisionCircles sh1 tx1 sh2 tx2 collision
      | PR_SHAPE_CIRCLE, PR_SHAPE_POLYGON
      | PR_SHAPE_POLYGON, PR_SHAPE_CIRCLE =>
          prComputeCollisionCirclePoly sh1 tx1 sh2 tx2 collision
      | PR_SHAPE_POLYGON, PR_SHAPE_POLYGON =>
          prComputeCollisionPolys sh1 tx1 sh2 tx2 collision
      | _, _ => (false, collision)
      end
  | _, _ => (false, collision)
  end.

(** [prComputeIntersectionCircleLine] with [lambda != NULL]: the flag
    and the value stored to [*lambda]. *)
Definition prComputeIntersectionCircleLine (center : prVector2) (r : float)
    (orig dir : prVector2) : bool * float :=
  let originToCenter := prVector2Subtract center orig in
  let dot := prVector2Dot originToCenter dir in
  let heightSqr := prVector2MagnitudeSqr originToCenter - (dot * dot) in
  let baseSqr := (r * r) - heightSqr in
  (((dot >=? F32.zero) && (baseSqr >=? F32.zero))%bool, dot - F32.sqrt baseSqr).

(** [prComputeIntersectionLines] with [lambda != NULL]: the flag and the
    value of [*lambda] on return ([lambda0] on entry). *)
Definition prComputeIntersectionLines (origin1 direction1 origin2 direction2 : prVector2)
    (lambda0 : float) : bool * float :=
  let rXs := prVector2Cross direction1 direction2 in
  let qp := prVector2Subtract origin2 origin1 in
  let qpXs := prVector2Cross qp direction2 in
  let qpXr := prVector2Cross qp direction1 in
  if rXs !=? F32.zero then
    let inverseRxS := F32.one / rXs in
    let t := qpXs * inverseRxS in
    let u := qpXr * inverseRxS in
    if (((t >=? F32.zero) && (t <=? F32.one))
        && ((u >=? F32.zero) && (u <=? F32.one)))%bool
    then (true, t) else (false, lambda0)
  else
    if qpXr !=? F32.zero then (false, lambda0)
    else
      let rDr := prVector2Dot direction1 direction1 in
      let sDr := prVector2Dot direction2 direction1 in
      let inverseRdR := F32.one / rDr in
      let qpDr := prVector2Dot qp direction1 in
      let t0 := qpDr * inverseRdR in
      let t1 := t0 + sDr * inverseRdR in
      let '(t0, t1) := if sDr <? F32.zero then (t1, t0) else (t0, t1) in
      if (((t0 <? F32.zero) && (t1 ==? F32.zero))
          || ((t0 ==? F32.one) && (t1 >? F32.one)))%bool
      then (true, if t0 ==? F32.one then F32.one else F32.zero)
      else (((t1 >=? F32.zero) && (t0 <=? F32.one))%bool, lambda0).

(** One round of the edge loop of the polygon branch of
    [prComputeRaycast]; the state is [(lambda, minLambda, *raycastHit,
    intersectionCount)]. *)
Definition prRaycastEdge (vs : prVertices) (tx : prTransform) (ray : prRay)
    (st : float * float * option prRaycastHit * Z) (i : Z)
    : float * float * option prRaycastHit * Z :=
  let '(lambda, minLambda, hit, intersectionCount) := st in
  let j := if Z.eqb i 0 then (count vs - 1)%Z else (i - 1)%Z in
  let v1 := prVector2Transform (vget (data vs) i) tx in
  let v2 := prVector2Transform (vget (data vs) j) tx in
  let edgeVector := prVector2Subtract v1 v2 in
  let '(intersects, lambda) :=
    prComputeIntersectionLines (origin ray) (ray_direction ray) v2 edgeVector lambda in
  if (intersects && (lambda <=? maxDistance ray))%bool then
    if minLambda >? lambda then
      (lambda, lambda,
       (fun h => mkRaycastHit (hit_body h)
                   (prVector2Add (origin ray)
                      (prVector2ScalarMultiply (ray_direction ray) lambda))
                   (prVector2LeftNormal edgeVector)
                   (hit_distance h) (inside h)) <$> hit,
       (intersectionCount + 1)%Z)
    else (lambda, minLambda, hit, (intersectionCount + 1)%Z)
  else (lambda, minLambda, hit, intersectionCount).

(** [prComputeRaycast].  [b] is the body pointer, read through the heap
    [h]; [raycastHit] is the output pointer.  The result is the returned
    flag with [*raycastHit] as left; [None] is undefined behaviour: the
    dereference of a null or dangling pointer. *)
Definition prComputeRaycast (h : heap) (b : option addr) (ray : prRay)
    (raycastHit : option prRaycastHit) : option (bool * option prRaycastHit) :=
  match b with
  | None => Some (false, raycastHit)
  | Some a =>
      body ← h !! a;
      let ray := mkRay (origin ray) (prVector2Normalize (ray_direction ray))
                       (maxDistance ray) in
      let s := shape body in
      let tx := tx body in
      match prGetShapeType s with
      | PR_SHAPE_CIRCLE =>
          let '(intersects, lambda) :=
            prComputeIntersectionCircleLine (position tx) (prGetCircleRadius s)
              (origin ray) (ray_direction ray) in
          let result := ((lambda >=? F32.zero) && (lambda <=? maxDistance ray))%bool in
          Some (result,
                (fun _ =>
                   let p := prVector2Add (origin ray)
                              (prVector2ScalarMultiply (ray_direction ray) lambda) in
                   mkRaycastHit (Some a) p
                     (prVector2LeftNormal (prVector2Subtract (origin ray) p))
                     lambda (lambda <? F32.zero)) <$> raycastHit)
      | PR_SHAPE_POLYGON =>
          vs ← prGetPolygonVertices s;
          let '(_, _, hit, intersectionCount) :=
            fold_left (prRaycastEdge vs tx ray) (seqZ 0 (count vs))
                      (F32.FLT_MAX, F32.FLT_MAX, raycastHit, 0%Z) in
          let hit :=
            (fun h => mkRaycastHit (Some a) (hit_point h) (hit_normal h)
                        (hit_distance h) (Z.odd intersectionCount)) <$> hit in
          (* [return (!(raycastHit->inside) && (intersectionCount > 0));] *)
          h' ← hit;
          Some ((negb (inside h') && Z.gtb intersectionCount 0)%bool, hit)
      | PR_SHAPE_UNKNOWN => Some (false, raycastHit)
      end
  end.
End Collision.

(* ===================================================================== *)
(** ** rigid-body.c *)
(* ===================================================================== *)

(** Every [void] function on a body pointer [b] is embedded as the
    transformation it performs on the pointee; [on_body] is the shared
    [if (b == NULL) return;] guard followed by the store through [b]. *)
Definition on_body (f : prBody -> prBody) (b : option addr) (h : heap) : heap :=
  match b with
  | Some a => alter f a h
  | None => h
  end.

Definition with_mtn (b : prBody) (m : prMotionData) : prBody :=
  mkBody (b_type b) (flags b) (shape b) (tx b) m (aabb b) (ctx b).

Definition with_velocity (m : prMotionData) (v : prVector2) (w : float) : prMotionData :=
  mkMotionData (mass m) (inverseMass m) (inertia m) (inverseInertia m)
               (gravityScale m) v w (force m) (torque m).

Definition with_force (m : prMotionData) (f : prVector2) (t : float) : prMotionData :=
  mkMotionData (mass m) (inverseMass m) (inertia m) (inverseInertia m)
               (gravityScale m) (velocity m) (angularVelocity m) f t.

Section RigidBody.
Local Open Scope f32_scope.
Context {L : Libm}.

(** [TWO_PI] and [INVERSE_TWO_PI]: computed in [double] from [M_PI],
    stored in [float] constants. *)
Definition TWO_PI : float :=
  Eval vm_compute in F64.to_float (F64.mul (F64.of_float F32.two) F64.M_PI).
Definition INVERSE_TWO_PI : float :=
  Eval vm_compute in
    F64.to_float (F64.div (F64.of_float F32.one)
                          (F64.mul (F64.of_float F32.two) F64.M_PI)).

Definition prNormalizeAngle (angle : float) : float :=
  angle - (TWO_PI * F32.floorf (angle * INVERSE_TWO_PI)).

(** Computes the mass and the moment of inertia for [b]. *)
Definition prComputeBodyMass (b : prBody) : prBody :=
  let m := mtn b in
  match b_type b with
  | PR_BODY_STATIC =>
      with_mtn b (mkMotionData F32.zero F32.zero F32.zero F32.zero
                    (gravityScale m) (mkVector2 F32.zero F32.zero) F32.zero
                    (force m) (torque m))
  | PR_BODY_DYNAMIC =>
      let '(mass', inverseMass') :=
        if Z.eqb (Z.land (flags b) PR_FLAG_INFINITE_MASS) 0 then
          let mass' := prGetShapeMass (shape b) in
          (mass', if mass' >? F32.zero then F32.one / mass' else F32.zero)
        else (F32.zero, F32.zero) in
      let '(inertia', inverseInertia') :=
        if Z.eqb (Z.land (flags b) PR_FLAG_INFINITE_INERTIA) 0 then
          let inertia' := prGetShapeInertia (shape b) in
          (inertia', if inertia' >? F32.zero then F32.one / inertia' else F32.zero)
        else (F32.zero, F32.zero) in
      with_mtn b (mkMotionData mass' inverseMass' inertia' inverseInertia'
                    (gravityScale m) (velocity m) (angularVelocity m)
                    (force m) (torque m))
  | _ =>
      with_mtn b (mkMotionData F32.zero F32.zero F32.zero F32.zero
                    (gravityScale m) (velocity m) (angularVelocity m)
                    (force m) (torque m))
  end.

(** The [calloc]ed body as [prCreateBody] initializes it. *)
Definition prBody_new (type : prBodyType) (position : prVector2) : prBody :=
  mkBody type 0 None
    (mkTransform position (mkRotation F32.zero F32.one) F32.zero)
    (mkMotionData F32.zero F32.zero F32.zero F32.zero F32.one
                  prVector2_ZERO F32.zero prVector2_ZERO F32.zero)
    prAABB_ZERO 0.

(** [prCreateBody]: the new pointer ([None] for [NULL]) and the heap. *)
Definition prCreateBody (type : prBodyType) (position : prVector2) (h : heap)
    : option addr * heap :=
  match type with
  | PR_BODY_UNKNOWN => (None, h)
  | _ => let a := fresh (dom h) in
         (Some a, <[a := prBody_new type position]> h)
  end.

Definition prReleaseBody (b : option addr) (h : heap) : heap :=
  match b with Some a => delete a h | None => h end.

Definition prGetBodyType (b : option prBody) : prBodyType :=
  match b with Some b => b_type b | None => PR_BODY_UNKNOWN end.

Definition prGetBodyShape (b : option prBody) : option prShape :=
  match b with Some b => shape b | None => None end.

Definition prGetBodyTransform (b : option prBody) : prTransform :=
  match b with Some b => tx b | None => prTransform_ZERO end.

Definition prGetBodyPosition (b : option prBody) : prVector2 :=
  match b with Some b => position (tx b) | None => prVector2_ZERO end.

Definition prGetBodyInverseMass (b : option prBody) : float :=
  match b with Some b => inverseMass (mtn b) | None => F32.zero end.

Definition prGetBodyVelocity (b : option prBody) : prVector2 :=
  match b with Some b => velocity (mtn b) | None => prVector2_ZERO end.

Definition prGetBodyAABB (b : option prBody) : prAABB :=
  match b with
  | Some b => match shape b with Some _ => aabb b | None => prAABB_ZERO end
  | None => prAABB_ZERO
  end.

Definition prSetBodyType (type : prBodyType) (b : prBody) : prBody :=
  prComputeBodyMass (mkBody type (flags b) (shape b) (tx b) (mtn b) (aabb b) (ctx b)).

Definition prSetBodyFlags (fl : Z) (b : prBody) : prBody :=
  prComputeBodyMass (mkBody (b_type b) fl (shape b) (tx b) (mtn b) (aabb b) (ctx b)).

Definition prSetBodyShape (s : option prShape) (b : prBody) : prBody :=
  prComputeBodyMass
    (mkBody (b_type b) (flags b) s (tx b) (mtn b)
            (match s with
             | Some _ => prGetShapeAABB s (tx b)
             | None => prAABB_ZERO
             end)
            (ctx b)).

Definition prCreateBodyFromShape (type : prBodyType) (position : prVector2)
    (s : option prShape) (h : heap) : option addr * heap :=
  let '(result, h) := prCreateBody type position h in
  (result, on_body (prSetBodyShape s) result h).

Definition prSetBodyPosition (p : prVector2) (b : prBody) : prBody :=
  let tx' := mkTransform p (rotation (tx b)) (angle (tx b)) in
  mkBody (b_type b) (flags b) (shape b) tx' (mtn b)
         (prGetShapeAABB (shape b) tx') (ctx b).

Definition prSetBodyAngle (a : float) (b : prBody) : prBody :=
  let a' := prNormalizeAngle a in
  let tx' := mkTransform (position (tx b)) (mkRotation (sinf a') (cosf a')) a' in
  mkBody (b_type b) (flags b) (shape b) tx' (mtn b)
         (prGetShapeAABB (shape b) tx') (ctx b).

Definition prSetBodyGravityScale (scale : float) (b : prBody) : prBody :=
  let m := mtn b in
  with_mtn b (mkMotionData (mass m) (inverseMass m) (inertia m) (inverseInertia m)
                scale (velocity m) (angularVelocity m) (force m) (torque m)).

Definition prSetBodyVelocity (v : prVector2) (b : prBody) : prBody :=
  with_mtn b (with_velocity (mtn b) v (angularVelocity (mtn b))).

Definition prSetBodyAngularVelocity (w : float) (b : prBody) : prBody :=
  with_mtn b (with_velocity (mtn b) (velocity (mtn b)) w).

Definition prSetBodyUserData (c : Z) (b : prBody) : prBody :=
  mkBody (b_type b) (flags b) (shape b) (tx b) (mtn b) (aabb b) c.

Definition prClearBodyForces (b : prBody) : prBody :=
  with_mtn b (with_force (mtn b) (mkVector2 F32.zero F32.zero) F32.zero).

Definition prApplyForceToBody (pt f : prVector2) (b : prBody) : prBody :=
  if inverseMass (mtn b) <=? F32.zero then b
  else with_mtn b (with_force (mtn b)
                     (prVector2Add (force (mtn b)) f)
                     (torque (mtn b) + prVector2Cross pt f)).

Definition prApplyGravityToBody (g : prVector2) (b : prBody) : prBody :=
  if mass (mtn b) <=? F32.zero then b
  else with_mtn b (with_force (mtn b)
                     (prVector2Add (force (mtn b))
                        (prVector2ScalarMultiply g
                           (gravityScale (mtn b) * mass (mtn b))))
                     (torque (mtn b))).

Definition prApplyImpulseToBody (pt impulse : prVector2) (b : prBody) : prBody :=
  if inverseMass (mtn b) <=? F32.zero then b
  else with_mtn b (with_velocity (mtn b)
                     (prVector2Add (velocity (mtn b))
                        (prVector2ScalarMultiply impulse (inverseMass (mtn b))))
                     (angularVelocity (mtn b)
                      + inverseInertia (mtn b) * prVector2Cross pt impulse)).

Definition prIntegrateForBodyVelocity (dt : float) (b : prBody) : prBody :=
  if ((inverseMass (mtn b) <=? F32.zero) || (dt <=? F32.zero))%bool then b
  else with_mtn b (with_velocity (mtn b)
                     (prVector2Add (velocity (mtn b))
                        (prVector2ScalarMultiply (force (mtn b))
                           (inverseMass (mtn b) * dt)))
                     (angularVelocity (mtn b)
                      + (torque (mtn b) * inverseInertia (mtn b)) * dt)).

Definition prIntegrateForBodyPosition (dt : float) (b : prBody) : prBody :=
  if (bodyType_eqb (b_type b) PR_BODY_STATIC || (dt <=? F32.zero))%bool then b
  else
    let p := mkVector2 (v_x (position (tx b)) + v_x (velocity (mtn b)) * dt)
                       (v_y (position (tx b)) + v_y (velocity (mtn b)) * dt) in
    let b := mkBody (b_type b) (flags b) (shape b)
                    (mkTransform p (rotation (tx b)) (angle (tx b)))
                    (mtn b) (aabb b) (ctx b) in
    let b := prSetBodyAngle (angle (tx b) + (angularVelocity (mtn b) * dt)) b in
    mkBody (b_type b) (flags b) (shape b) (tx b) (mtn b)
           (prGetShapeAABB (shape b) (tx b)) (ctx b).
End RigidBody.

Section Solver.
Local Open Scope f32_scope.
Context {L : Libm}.

Definition with_cache (c : prCollision) (i : Z) (k : prContactCache) : prCollision :=
  let p := contact_get c i in
  contact_set c i (mkContact (id p) (point p) (depth p) k).

Definition prZeroVelocity (b : prBody) : prBody :=
  with_mtn b (with_velocity (mtn b) (mkVector2 F32.zero F32.zero) F32.zero).

(** The relative velocity of the contact point as seen from the two
    bodies. *)
Definition prRelVelocity (b1 b2 : prBody) (relNormal1 relNormal2 : prVector2)
    : prVector2 :=
  prVector2Subtract
    (prVector2Add (velocity (mtn b2))
       (prVector2ScalarMultiply relNormal2 (angularVelocity (mtn b2))))
    (prVector2Add (velocity (mtn b1))
       (prVector2ScalarMultiply relNormal1 (angularVelocity (mtn b1)))).

(** The normal impulse magnitude of one contact, as the source computes
    it from the relative normal velocity [relVelocityDot]. *)
Definition prNormalScalar (restitution relVelocityDot dep inverseDt normalMass : float)
    : float :=
  let biasScalar := - (PR_WORLD_BAUMGARTE_FACTOR * inverseDt)
                    * F32.fminf F32.zero (- dep + PR_WORLD_BAUMGARTE_SLOP) in
  ((- (F32.one + restitution) * relVelocityDot) + biasScalar) / normalMass.

Definition prEffectiveMass (b1 b2 : prBody) (relPosition1 relPosition2 axis : prVector2)
    : float :=
  let relPositionCross1 := prVector2Cross relPosition1 axis in
  let relPositionCross2 := prVector2Cross relPosition2 axis in
  (inverseMass (mtn b1) + inverseMass (mtn b2))
  + inverseInertia (mtn b1) * (relPositionCross1 * relPositionCross1)
  + inverseInertia (mtn b2) * (relPositionCross2 * relPositionCross2).

(** One round of the contact loop of [frResolveCollision].  The bodies
    are read and written through the heap, [b1] before [b2]; [None] is the
    dereference of a pointer to no live body, or the access to
    [ctx->contacts[i]] outside the two slots of the array (a manifold whose
    [count] is above 2). *)
Definition frResolveContact (a1 a2 : addr) (inverseDt : float)
    (st : option (heap * prCollision)) (i : Z) : option (heap * prCollision) :=
  '(h, c) ← st;
  if (Z.ltb i 0 || Z.ltb 1 i)%bool then None else
  b1 ← h !! a1;
  b2 ← h !! a2;
  let contactPoint := point (contact_get c i) in
  let relPosition1 := prVector2Subtract contactPoint (prGetBodyPosition (Some b1)) in
  let relPosition2 := prVector2Subtract contactPoint (prGetBodyPosition (Some b2)) in
  let relNormal1 := prVector2LeftNormal relPosition1 in
  let relNormal2 := prVector2LeftNormal relPosition2 in
  let relVelocity := prRelVelocity b1 b2 relNormal1 relNormal2 in
  let relVelocityDot := prVector2Dot relVelocity (direction c) in
  if relVelocityDot >? F32.zero then Some (h, c)
  else
    let normalMass' := prEffectiveMass b1 b2 relPosition1 relPosition2 (direction c) in
    let normalScalar' :=
      prNormalScalar (c_restitution c) relVelocityDot (depth (contact_get c i))
                     inverseDt normalMass' in
    let k := cache (contact_get c i) in
    let c := with_cache c i
               (mkContactCache (normalMass k) normalScalar'
                               (tangentMass k) (tangentScalar k)) in
    let normalImpulse := prVector2ScalarMultiply (direction c) normalScalar' in
    let h := on_body (prApplyImpulseToBody relPosition1 (prVector2Negate normalImpulse))
                     (Some a1) h in
    let h := on_body (prApplyImpulseToBody relPosition2 normalImpulse) (Some a2) h in
    b1 ← h !! a1;
    b2 ← h !! a2;
    let relVelocity := prRelVelocity b1 b2 relNormal1 relNormal2 in
    let tangent := mkVector2 (v_y (direction c)) (- v_x (direction c)) in
    let tangentMass' := prEffectiveMass b1 b2 relPosition1 relPosition2 tangent in
    let tangentScalar' := - prVector2Dot relVelocity tangent / tangentMass' in
    let maxTangentScalar := c_friction c * normalScalar' in
    let tangentScalar' :=
      F32.fminf (F32.fmaxf tangentScalar' (- maxTangentScalar)) maxTangentScalar in
    let k := cache (contact_get c i) in
    let c := with_cache c i
               (mkContactCache (normalMass k) (normalScalar k)
                               (tangentMass k) tangentScalar') in
    let tangentImpulse := prVector2ScalarMultiply tangent tangentScalar' in
    (* the source spells these two calls [frApplyImpulseToBody] and
       [frVector2Negate], the names of the same helpers before the
       library-wide rename *)
    let h := on_body (prApplyImpulseToBody relPosition1 (prVector2Negate tangentImpulse))
                     (Some a1) h in
    let h := on_body (prApplyImpulseToBody relPosition2 tangentImpulse) (Some a2) h in
    Some (h, c).

(** [frResolveCollision], which world.c calls as [prResolveCollision]. *)
Definition frResolveCollision (b1 b2 : option addr) (ctx : option prCollision)
    (inverseDt : float) (h : heap) : option (heap * option prCollision) :=
  match b1, b2, ctx with
  | Some a1, Some a2, Some c =>
      body1 ← h !! a1;
      body2 ← h !! a2;
      if inverseMass (mtn body1) + inverseMass (mtn body2) <=? F32.zero then
        let h :=
          if bodyType_eqb (prGetBodyType (Some body1)) PR_BODY_STATIC
          then on_body prZeroVelocity (Some a1) h else h in
        let h :=
          if bodyType_eqb (prGetBodyType (Some body2)) PR_BODY_STATIC
          then on_body prZeroVelocity (Some a2) h else h in
        Some (h, ctx)
      else
        '(h, c) ← fold_left (frResolveContact a1 a2 inverseDt)
                            (seqZ 0 (c_count c)) (Some (h, c));
        Some (h, Some c)
  | _, _, _ => Some (h, ctx)
  end.

Definition prResolveCollision := frResolveCollision.
End Solver.

(* ===================================================================== *)
(** ** world.c *)
(* ===================================================================== *)

(** A collision event callback, called with a key and the address of the
    cached manifold: user code that may rewrite the manifold and, through
    the body pointers of the key, the bodies.  A callback that goes back
    into the world being stepped (one that adds or removes bodies, say) is
    outside this type; a property of a step that such a callback could
    break is stated for a world with no callback installed. *)
Definition prCollisionEventFunc : Type :=
  prBodyPair -> prCollision -> heap -> prCollision * heap.

Record prCollisionHandler := mkCollisionHandler {
  preStep : option prCollisionEventFunc;
  postStep : option prCollisionEventFunc
}.

(** The contact cache is an stb_ds hash map: its entries lie in an array in
    insertion order, which is the order the solver walks them in. *)
Abbreviation prContactCacheEntry := (prBodyPair * prCollision)%type.

Record prWorld := mkWorld {
  gravity : prVector2;
  bodies : list addr;
  hash : option prSpatialHash;
  w_cache : list prContactCacheEntry;
  handler : prCollisionHandler;
  accumulator : double;
  timestamp : double
}.

Definition bodyPair_eqb (k1 k2 : prBodyPair) : bool :=
  (Nat.eqb (first k1) (first k2) && Nat.eqb (second k1) (second k2))%bool.

(** [hmgetp_null]: the value stored under [key], if any. *)
Fixpoint hmgetp_null (cache : list prContactCacheEntry) (key : prBodyPair)
    : option prCollision :=
  match cache with
  | [] => None
  | (k, v) :: rest => if bodyPair_eqb k key then Some v else hmgetp_null rest key
  end.

Fixpoint hmgeti (cache : list prContactCacheEntry) (key : prBodyPair) : option nat :=
  match cache with
  | [] => None
  | (k, _) :: rest => if bodyPair_eqb k key then Some O else S <$> hmgeti rest key
  end.

(** [hmputs]: overwrite in place, or append. *)
Fixpoint hmputs (cache : list prContactCacheEntry) (key : prBodyPair) (v : prCollision)
    : list prContactCacheEntry :=
  match cache with
  | [] => [(key, v)]
  | (k, v0) :: rest =>
      if bodyPair_eqb k key then (k, v) :: rest else (k, v0) :: hmputs rest key v
  end.

(** [hmdel]: the last entry is moved into the freed slot. *)
Definition hmdel (cache : list prContactCacheEntry) (key : prBodyPair)
    : list prContactCacheEntry :=
  match hmgeti cache key, last cache with
  | Some i, Some e => take (length cache - 1) (<[i := e]> cache)
  | _, _ => cache
  end.

(** Functions that proxima.h declares and world.c calls, with no definition
    in the sources at hand; they are parameters of the embedding. *)
Class RigidBodyExtern := {
  prApplyAccumulatedImpulses :
    option addr -> option addr -> option prCollision -> heap ->
    option (heap * option prCollision)
}.

Section World.
Local Open Scope f32_scope.
Context {L : Libm} {X : RigidBodyExtern}.

Definition prCreateWorld (g : prVector2) (cellSize : float) : prWorld :=
  mkWorld g [] (prCreateSpatialHash cellSize) []
          (mkCollisionHandler None None) F64.zero F64.zero.

Definition prAddBodyToWorld (w : prWorld) (b : option addr) : bool * prWorld :=
  match b with
  | None => (false, w)
  | Some a =>
      if Z.leb PR_WORLD_MAX_OBJECT_COUNT (Z.of_nat (length (bodies w)))
      then (false, w)
      else (true, mkWorld (gravity w) (bodies w ++ [a]) (hash w) (w_cache w)
                          (handler w) (accumulator w) (timestamp w))
  end.

Definition prSetWorldCollisionHandler (w : prWorld) (hd : prCollisionHandler) : prWorld :=
  mkWorld (gravity w) (bodies w) (hash w) (w_cache w) hd
          (accumulator w) (timestamp w).

(** [w->bodies[i]] followed by the dereference. *)
Definition prWorldBody (h : heap) (bs : list addr) (i : Z) : option (addr * prBody) :=
  if Z.ltb i 0 then None
  else a ← bs !! Z.to_nat i; b ← h !! a; Some (a, b).

(** The material pair of a fresh cache entry. *)
Definition prCombineFriction (s1 s2 : option prShape) : float :=
  let f := F32.half * (prGetShapeFriction s1 + prGetShapeFriction s2) in
  if f <=? F32.zero then F32.zero else f.

Definition prCombineRestitution (s1 s2 : option prShape) : float :=
  let e := F32.fminf (prGetShapeRestitution s1) (prGetShapeRestitution s2) in
  if e <=? F32.zero then F32.zero else e.

(** The search of the cached manifold for a contact with the id [cid]:
    [k], or -1. *)
Definition prFindContact (old : prCollision) (cid : Z) : Z :=
  match find (fun j => Z.eqb cid (id (contact_get old j))) (seqZ 0 (c_count old)) with
  | Some j => j
  | None => -1
  end.

(** The cache-hit branch: keep the stored material pair and carry the
    impulses over to the contacts with a matching id. *)
Definition prRefreshCollision (collision old : prCollision) : prCollision :=
  let collision := mkCollision (c_friction old) (c_restitution old)
                     (direction collision) (contacts collision) (c_count collision) in
  fold_left
    (fun collision i =>
       let k := prFindContact old (id (contact_get collision i)) in
       let kc := cache (contact_get collision i) in
       if Z.geb k 0 then
         let oc := cache (contact_get old k) in
         with_cache collision i
           (mkContactCache (normalMass kc) (normalScalar oc)
                           (tangentMass kc) (tangentScalar oc))
       else
         with_cache collision i
           (mkContactCache (normalMass kc) F32.zero (tangentMass kc) F32.zero))
    (seqZ 0 (c_count collision)) collision.

(** [prPreStepHashQueryCallback].  The context is the contact cache of
    the world ([None] once a pointer to no live body was dereferenced). *)
Definition prPreStepHashQueryCallback (h : heap) (bs : list addr) (bodyIndex : Z)
    (otherBodyIndex : Z) (cache : option (list prContactCacheEntry))
    : bool * option (list prContactCacheEntry) :=
  match cache with
  | None => (false, None)
  | Some cache =>
      if Z.leb otherBodyIndex bodyIndex then (false, Some cache)
      else
        match prWorldBody h bs bodyIndex, prWorldBody h bs otherBodyIndex with
        | Some (a1, b1), Some (a2, b2) =>
            if prGetBodyInverseMass (Some b1) + prGetBodyInverseMass (Some b2)
               <=? F32.zero
            then (false, Some cache)
            else
              let key := mkBodyPair a1 a2 in
              let s1 := prGetBodyShape (Some b1) in
              let s2 := prGetBodyShape (Some b2) in
              let tx1 := prGetBodyTransform (Some b1) in
              let tx2 := prGetBodyTransform (Some b2) in
              match prComputeCollision s1 tx1 s2 tx2 (Some prCollision_ZERO) with
              | (true, Some collision) =>
                  let collision :=
                    match hmgetp_null cache key with
                    | Some old => prRefreshCollision collision old
                    | None =>
                        mkCollision (prCombineFriction s1 s2)
                                    (prCombineRestitution s1 s2)
                                    (direction collision) (contacts collision)
                                    (c_count collision)
                    end in
                  (true, Some (hmputs cache key collision))
              | _ => (false, Some (hmdel cache key))
              end
        | _, _ => (false, None)
        end
  end.

(** [prPreStepWorld].  [oob i] is the pair of words the duplicate scan of
    the query for body [i] finds outside the scratch array. *)
Definition prPreStepWorld (oob : Z -> Z * Z) (h : heap) (w : prWorld)
    : option prWorld :=
  let n := Z.of_nat (length (bodies w)) in
  match hash w with
  | None => Some w
  | Some sh =>
      sh ← fold_left
             (fun sh i =>
                sh ← sh;
                '(_, b) ← prWorldBody h (bodies w) i;
                prInsertToSpatialHash sh (prGetBodyAABB (Some b)) i)
             (seqZ 0 n) (Some sh);
      '(sh, cache) ←
        fold_left
          (fun st i =>
             '(sh, cache) ← st;
             '(_, b) ← prWorldBody h (bodies w) i;
             '(sh, cache) ← prQuerySpatialHash (fst (oob i)) (snd (oob i)) sh
                              (prGetBodyAABB (Some b))
                              (prPreStepHashQueryCallback h (bodies w) i)
                              (Some cache);
             cache ← cache;
             Some (sh, cache))
          (seqZ 0 n) (Some (sh, w_cache w));
      Some (mkWorld (gravity w) (bodies w) (Some sh) cache (handler w)
                    (accumulator w) (timestamp w))
  end.

(** [for (i = 0; i < hmlen(w->cache); i++) f(key, &value)], threading the
    heap. *)
Fixpoint prForEachEntry
    (f : prBodyPair -> prCollision -> heap -> option (heap * prCollision))
    (cache : list prContactCacheEntry) (h : heap)
    : option (heap * list prContactCacheEntry) :=
  match cache with
  | [] => Some (h, [])
  | (k, v) :: rest =>
      '(h, v) ← f k v h;
      '(h, rest) ← prForEachEntry f rest h;
      Some (h, (k, v) :: rest)
  end.

Definition prCallHandler (f : option prCollisionEventFunc)
    (k : prBodyPair) (v : prCollision) (h : heap) : option (heap * prCollision) :=
  match f with
  | Some f => let '(v, h) := f k v h in Some (h, v)
  | None => Some (h, v)
  end.

(** A call with the address of a cache slot as the manifold pointer. *)
Definition prOnSlot
    (f : option addr -> option addr -> option prCollision -> heap ->
         option (heap * option prCollision))
    (k : prBodyPair) (v : prCollision) (h : heap) : option (heap * prCollision) :=
  '(h, v') ← f (Some (first k)) (Some (second k)) (Some v) h;
  Some (h, default v v').

Definition prForEachBody (f : prBody -> prBody) (bs : list addr) (h : heap) : heap :=
  fold_left (fun h a => on_body f (Some a) h) bs h.

(** Clears the accumulated forces on each body, then the spatial hash. *)
Definition prPostStepWorld (h : heap) (w : prWorld) : heap * prWorld :=
  (prForEachBody prClearBodyForces (bodies w) h,
   mkWorld (gravity w) (bodies w) (prClearSpatialHash <$> hash w) (w_cache w)
           (handler w) (accumulator w) (timestamp w)).

Definition with_cache_w (w : prWorld) (cache : list prContactCacheEntry) : prWorld :=
  mkWorld (gravity w) (bodies w) (hash w) cache (handler w)
          (accumulator w) (timestamp w).

(** [prStepWorld] for [w != NULL]. *)
Definition prStepWorld (oob : Z -> Z * Z) (dt : float) (st : heap * prWorld)
    : option (heap * prWorld) :=
  let '(h, w) := st in
  if dt <=? F32.zero then Some (h, w)
  else
    w ← prPreStepWorld oob h w;
    '(h, cache) ← prForEachEntry (prCallHandler (preStep (handler w))) (w_cache w) h;
    let h := prForEachBody
               (fun b => prIntegrateForBodyVelocity dt
                           (prApplyGravityToBody (gravity w) b))
               (bodies w) h in
    '(h, cache) ← prForEachEntry (prOnSlot prApplyAccumulatedImpulses) cache h;
    let inverseDt := F32.one / dt in
    '(h, cache) ←
      fold_left
        (fun st _ =>
           '(h, cache) ← st;
           prForEachEntry
             (prOnSlot (fun b1 b2 c => prResolveCollision b1 b2 c inverseDt))
             cache h)
        (seq 0 PR_WORLD_ITERATION_COUNT) (Some (h, cache));
    let h := prForEachBody (prIntegrateForBodyPosition dt) (bodies w) h in
    '(h, cache) ← prForEachEntry (prCallHandler (postStep (handler w))) cache h;
    Some (prPostStepWorld h (with_cache_w w cache)).

(** The loop [for (; w->accumulator >= dt; w->accumulator -= dt)
    prStepWorld(w, dt);], cut off after [fuel] rounds; [oob n i] are the
    out-of-array words of round [n]. *)
Fixpoint prUpdateWorld_loop (fuel : nat) (oob : nat -> Z -> Z * Z) (dt : float)
    (st : heap * prWorld) : option (heap * prWorld) :=
  let '(h, w) := st in
  if F64.ge (accumulator w) (F64.of_float dt) then
    match fuel with
    | O => None
    | S fuel' =>
        '(h, w) ← prStepWorld (oob fuel') dt (h, w);
        prUpdateWorld_loop fuel' oob dt
          (h, mkWorld (gravity w) (bodies w) (hash w) (w_cache w) (handler w)
                      (F64.sub (accumulator w) (F64.of_float dt)) (timestamp w))
    end
  else Some (h, w).

(** [prUpdateWorld] for [w != NULL]; [now] is what [prGetCurrentTime()]
    returns for this call. *)
Definition prUpdateWorld (fuel : nat) (oob : nat -> Z -> Z * Z) (now : double)
    (dt : float) (st : heap * prWorld) : option (heap * prWorld) :=
  let '(h, w) := st in
  if dt <=? F32.zero then Some (h, w)
  else
    let currentTime := now in
    (* [double elapsedTime = currentTime = w->timestamp;] *)
    let currentTime := timestamp w in
    let elapsedTime := currentTime in
    let w := mkWorld (gravity w) (bodies w) (hash w) (w_cache w) (handler w)
                     (F64.add (accumulator w) elapsedTime) currentTime in
    prUpdateWorld_loop fuel oob dt (h, w).
End World.


(* ===================================================================== *)
(** ** Concrete platforms and inputs used by the examples *)
(* ===================================================================== *)

(** A platform on which [sinf] is the identity at zero and [cosf] is
    constantly one there; it is used to evaluate the code on inputs whose
    angles are all zero. *)
Definition libm_at_zero : Libm :=
  {| sinf := fun x => match x with S754_zero _ => x | _ => S754_nan end;
     cosf := fun x => match x with S754_zero _ => F32.one | _ => S754_nan end |}.

(** A rigid-body.c in which warm starting does nothing. *)
Definition extern_no_warm_start : RigidBodyExtern :=
  {| prApplyAccumulatedImpulses := fun _ _ c h => Some (h, c) |}.

(** A fresh world with the default gravity and unit cells. *)
Definition fresh_world : prWorld :=
  prCreateWorld (mkVector2 F32.zero (F32.lit 98 10)) F32.one.

(** The objects of the unit test [BoxToBox1], built the way the test builds
    them: two rectangles given in pixels, each attached to a dynamic body,
    and the two body transforms handed to [prComputeCollision]. *)
Section BoxToBox1.
Context {L : Libm}.

Definition BoxToBox1_s1 : option (option prShape) :=
  prCreateRectangle prMaterial_ZERO
    (prPixelsToUnits (F32.of_Z 150)) (prPixelsToUnits (F32.of_Z 100)).

Definition BoxToBox1_s2 : option (option prShape) :=
  prCreateRectangle prMaterial_ZERO
    (prPixelsToUnits (F32.of_Z 150)) (prPixelsToUnits (F32.of_Z 50)).

Definition BoxToBox1 : option (bool * option prCollision) :=
  s1 ← BoxToBox1_s1;
  let '(b1, h) :=
    prCreateBodyFromShape PR_BODY_DYNAMIC
      (prVector2PixelsToUnits (mkVector2 (F32.of_Z (-50)) F32.zero)) s1 ∅ in
  s2 ← BoxToBox1_s2;
  let '(b2, h) :=
    prCreateBodyFromShape PR_BODY_DYNAMIC
      (prVector2PixelsToUnits (mkVector2 (F32.of_Z 50) F32.zero)) s2 h in
  let tx1 := prGetBodyTransform (b1 ≫= (h !!.)) in
  let tx2 := prGetBodyTransform (b2 ≫= (h !!.)) in
  Some (prComputeCollision s1 tx1 s2 tx2 (Some prCollision_ZERO)).
End BoxToBox1.

(** [ASSERT_IN_RANGE(expected, got, tolerance)] of the test suite: the two
    values differ by no more than the tolerance. *)
Definition in_range (expected got tolerance : float) : bool :=
  F32.le (F32.abs (F32.sub expected got)) tolerance.

(** [PR_TEST_EPSILON], 0.000001f. *)
Definition PR_TEST_EPSILON : float := Eval vm_compute in F32.lit 1 1000000.

(** The manifold [BoxToBox1] expects: direction (1, 0), and two contacts
    at (-1.5625, -1.5625) and (-1.5625, 1.5625), both 3.125 deep. *)
Definition BoxToBox1_expected : prCollision :=
  mkCollision F32.zero F32.zero
    (mkVector2 F32.one (S754_zero true))
    (mkContact 8 (mkVector2 (F32.lit (-15625) 10000) (F32.lit (-15625) 10000))
               (F32.lit 3125 1000) prContactCache_ZERO,
     mkContact 9 (mkVector2 (F32.lit (-15625) 10000) (F32.lit 15625 10000))
               (F32.lit 3125 1000) prContactCache_ZERO)
    2.

(** A heap with one dynamic body at address 0, carrying a unit circle or the
    100x100 px box, and a ray along the x axis. *)
Definition unit_circle : option prShape := prCreateCircle prMaterial_ZERO F32.one.

Definition box_shape : option prShape :=
  default None (prCreateRectangle prMaterial_ZERO (F32.of_Z 2) (F32.of_Z 2)).

Definition heap_with (s : option prShape) : heap :=
  snd (prCreateBodyFromShape PR_BODY_DYNAMIC (mkVector2 (F32.of_Z 5) F32.zero) s ∅).

Definition x_ray : prRay :=
  mkRay prVector2_ZERO (mkVector2 F32.one F32.zero) (F32.of_Z 10).

(** Two overlapping dynamic unit circles, one unit apart, with different
    materials; the bodies live at the addresses 0 and 1. *)
Definition circle_a : option prShape :=
  prCreateCircle (mkMaterial F32.one (F32.lit 4 10) (F32.lit 1 2)) F32.one.

Definition circle_b : option prShape :=
  prCreateCircle (mkMaterial F32.one (F32.lit 2 10) (F32.lit 1 4)) F32.one.

Definition two_circles : heap :=
  snd (prCreateBodyFromShape PR_BODY_DYNAMIC (mkVector2 F32.one F32.zero) circle_b
         (snd (prCreateBodyFromShape PR_BODY_DYNAMIC prVector2_ZERO circle_a ∅))).

Definition two_circles_cache : list prContactCacheEntry :=
  default [] (snd (prPreStepHashQueryCallback (L := libm_at_zero)
                     two_circles [0%nat; 1%nat] 0 1 (Some []))).

(** Two dynamic 2x2 boxes of mass 1 that cannot rotate, overlapping by
    1/128 of a unit (less than the slop); the first one moves toward the
    second at one unit per second.  Then their manifold as the broad-phase
    callback caches it, and the heap and the manifold after one solver
    iteration on it for a step of 1/60 s. *)
Definition unit_mass_box : option prShape :=
  default None (prCreateRectangle (mkMaterial (F32.lit 1 4) F32.zero F32.zero)
                  (F32.of_Z 2) (F32.of_Z 2)).

Definition touching_boxes : heap :=
  let '(b0, h) := prCreateBodyFromShape PR_BODY_DYNAMIC prVector2_ZERO unit_mass_box ∅ in
  let '(b1, h) := prCreateBodyFromShape PR_BODY_DYNAMIC
                    (mkVector2 (F32.lit 255 128) F32.zero) unit_mass_box h in
  let h := on_body (prSetBodyFlags PR_FLAG_INFINITE_INERTIA) b0 h in
  let h := on_body (prSetBodyFlags PR_FLAG_INFINITE_INERTIA) b1 h in
  on_body (prSetBodyVelocity (mkVector2 F32.one F32.zero)) b0 h.

Definition touching_boxes_manifold : prCollision :=
  default prCollision_ZERO
    (snd (prPreStepHashQueryCallback (L := libm_at_zero)
            touching_boxes [0%nat; 1%nat] 0 1 (Some []))
     ≫= (fun cache => hmgetp_null cache (mkBodyPair 0%nat 1%nat))).

Definition inverseDt_60 : float := F32.div F32.one (F32.lit 1 60).

Definition first_iteration : heap * prCollision :=
  default (touching_boxes, touching_boxes_manifold)
    (prOnSlot (fun b1 b2 c => prResolveCollision b1 b2 c inverseDt_60)
       (mkBodyPair 0%nat 1%nat) touching_boxes_manifold touching_boxes).

(** The reading of "accumulated over the solver iterations": the cached
    magnitude after an iteration is the cached magnitude before it plus the
    magnitude the iteration computed. *)
Definition accumulated (before after computed : float) : Prop :=
  after = F32.add before computed.

(* ===================================================================== *)
(** * Definitions for further properties of the code *)
(* ===================================================================== *)

(** ** broad-phase.c: the duplicate scan of [prQuerySpatialHash]

    [prKept past q i] is what the scan has stored after looking at the
    first [i] slots of the sorted scratch array [q]; [prDedupStep] is one
    round of the loop as [prDedup] folds it. *)

Fixpoint prKept (past : Z) (q : list Z) (i : nat) : list Z :=
  match i with
  | O => []
  | S i' => prKept past q i'
            ++ (if Z.eqb (nth i' q past) (nth (S i') q past) then []
                else [nth i' q past])
  end.

Definition prDedupStep (past before : Z) : list Z * Z -> Z -> list Z * Z :=
  fun '(q, newLength) i =>
    if negb (Z.eqb (qread past before q i) (qread past before q (i + 1)))
    then (<[Z.to_nat newLength := qread past before q i]> q, newLength + 1)
    else (q, newLength).

(** The last value of a list, or [d] for the empty list; and the order
    [qsort] leaves the scratch array in. *)
Definition last_or (d : Z) (l : list Z) : Z := default d (last l).

Definition index_sorted (q : list Z) : Prop :=
  forall (i j : nat) (x y : Z),
    (i <= j)%nat -> q !! i = Some x -> q !! j = Some y -> x <= y.

(** ** broad-phase.c: insertion followed by queries

    [prRecordCall] is the callback that records the values it is called
    with, in call order; [prInsertAll] is a run of insertions. *)

Definition prRecordCall (v : Z) (log : list Z) : bool * list Z := (true, log ++ [v]).

Definition prInsertAll (sh : prSpatialHash) (items : list (prAABB * Z))
    : option prSpatialHash :=
  fold_left (fun sh '(key, value) => sh ← sh; prInsertToSpatialHash sh key value)
            items (Some sh).

(** Two cell rectangles that share a cell, and the values stored under a
    cell. *)
Definition cells_meet (b1 b2 : Z * Z * Z * Z) : Prop :=
  exists k, k ∈ prCells b1 /\ k ∈ prCells b2.

Definition cell_values (sh : prSpatialHash) (k : Z * Z) : list Z :=
  default [] (entries sh !! k).

(** ** rigid-body.c: runs of public operations on bodies *)

(** A public operation on bodies, as a client of rigid-body.c issues it. *)
Inductive prBodyOp :=
| OpCreateBody (type : prBodyType) (position : prVector2)
| OpCreateBodyFromShape (type : prBodyType) (position : prVector2) (s : option prShape)
| OpReleaseBody (b : option addr)
| OpSetBodyType (b : option addr) (type : prBodyType)
| OpSetBodyFlags (b : option addr) (fl : Z)
| OpSetBodyShape (b : option addr) (s : option prShape)
| OpSetBodyPosition (b : option addr) (p : prVector2)
| OpSetBodyAngle (b : option addr) (a : float)
| OpSetBodyGravityScale (b : option addr) (scale : float)
| OpSetBodyVelocity (b : option addr) (v : prVector2)
| OpSetBodyAngularVelocity (b : option addr) (w : float)
| OpSetBodyUserData (b : option addr) (c : Z)
| OpClearBodyForces (b : option addr)
| OpApplyForceToBody (b : option addr) (pt f : prVector2)
| OpApplyGravityToBody (b : option addr) (g : prVector2)
| OpApplyImpulseToBody (b : option addr) (pt impulse : prVector2)
| OpIntegrateForBodyVelocity (b : option addr) (dt : float)
| OpIntegrateForBodyPosition (b : option addr) (dt : float)
| OpResolveCollision (b1 b2 : option addr) (c : option prCollision) (inverseDt : float).

(** [prSetBodyVelocity] and [prSetBodyAngularVelocity]. *)
Definition is_velocity_setter (op : prBodyOp) : bool :=
  match op with
  | OpSetBodyVelocity _ _ | OpSetBodyAngularVelocity _ _ => true
  | _ => false
  end.

Section Ops.
Context {L : Libm}.

(** The heap after the operation; [None] when the solver dereferences a
    pointer to no live body. *)
Definition prRunOp (op : prBodyOp) (h : heap) : option heap :=
  match op with
  | OpCreateBody type position => Some (snd (prCreateBody type position h))
  | OpCreateBodyFromShape type position s =>
      Some (snd (prCreateBodyFromShape type position s h))
  | OpReleaseBody b => Some (prReleaseBody b h)
  | OpSetBodyType b type => Some (on_body (prSetBodyType type) b h)
  | OpSetBodyFlags b fl => Some (on_body (prSetBodyFlags fl) b h)
  | OpSetBodyShape b s => Some (on_body (prSetBodyShape s) b h)
  | OpSetBodyPosition b p => Some (on_body (prSetBodyPosition p) b h)
  | OpSetBodyAngle b a => Some (on_body (prSetBodyAngle a) b h)
  | OpSetBodyGravityScale b scale => Some (on_body (prSetBodyGravityScale scale) b h)
  | OpSetBodyVelocity b v => Some (on_body (prSetBodyVelocity v) b h)
  | OpSetBodyAngularVelocity b w => Some (on_body (prSetBodyAngularVelocity w) b h)
  | OpSetBodyUserData b c => Some (on_body (prSetBodyUserData c) b h)
  | OpClearBodyForces b => Some (on_body prClearBodyForces b h)
  | OpApplyForceToBody b pt f => Some (on_body (prApplyForceToBody pt f) b h)
  | OpApplyGravityToBody b g => Some (on_body (prApplyGravityToBody g) b h)
  | OpApplyImpulseToBody b pt impulse =>
      Some (on_body (prApplyImpulseToBody pt impulse) b h)
  | OpIntegrateForBodyVelocity b dt => Some (on_body (prIntegrateForBodyVelocity dt) b h)
  | OpIntegrateForBodyPosition b dt => Some (on_body (prIntegrateForBodyPosition dt) b h)
  | OpResolveCollision b1 b2 c inverseDt =>
      fst <$> frResolveCollision b1 b2 c inverseDt h
  end.

Definition prRunOps (ops : list prBodyOp) (h : heap) : option heap :=
  fold_left (fun h op => h ← h; prRunOp op h) ops (Some h).
End Ops.

(** A static body is pinned: no linear or angular velocity, and an inverse
    mass of zero, which is what keeps impulses and forces away from it. *)
Definition static_pinned (b : prBody) : Prop :=
  b_type b = PR_BODY_STATIC ->
  velocity (mtn b) = mkVector2 F32.zero F32.zero
  /\ angularVelocity (mtn b) = F32.zero
  /\ inverseMass (mtn b) = F32.zero.

(** A body that is not dynamic has all four mass fields zero. *)
Definition massless_unless_dynamic (b : prBody) : Prop :=
  b_type b <> PR_BODY_DYNAMIC ->
  mass (mtn b) = F32.zero /\ inverseMass (mtn b) = F32.zero
  /\ inertia (mtn b) = F32.zero /\ inverseInertia (mtn b) = F32.zero.

(** A property of every live body. *)
Definition heap_all (P : prBody -> Prop) (h : heap) : Prop :=
  forall a b, h !! a = Some b -> P b.

(** The operations that leave the type, the velocity and the mass fields
    of a body with zero inverse mass alone. *)
Definition keeps_motion (f : prBody -> prBody) : Prop :=
  forall b,
    b_type (f b) = b_type b
    /\ mass (mtn (f b)) = mass (mtn b)
    /\ inverseMass (mtn (f b)) = inverseMass (mtn b)
    /\ inertia (mtn (f b)) = inertia (mtn b)
    /\ inverseInertia (mtn (f b)) = inverseInertia (mtn b)
    /\ (inverseMass (mtn b) = F32.zero ->
        velocity (mtn (f b)) = velocity (mtn b)
        /\ angularVelocity (mtn (f b)) = angularVelocity (mtn b)).

(** A property of bodies that every motion-keeping operation preserves. *)
Definition motion_stable (P : prBody -> Prop) : Prop :=
  forall f b, keeps_motion f -> P b -> P (f b).

(** ** world.c: what a step leaves alone *)

(** The fields of a world that a step has no business changing. *)
Definition same_frame (w w' : prWorld) : Prop :=
  bodies w' = bodies w /\ gravity w' = gravity w /\ handler w' = handler w
  /\ accumulator w' = accumulator w /\ timestamp w' = timestamp w.

(** ** collision.c: what the narrow phase writes to a manifold *)

(** What a narrow-phase call may change in the manifold it is handed: the
    direction, the id, point and depth of the contacts, and the count; the
    material pair and the cached impulses of contact 0 stay. *)
Definition manifold_kept (c c' : prCollision) : Prop :=
  c_friction c' = c_friction c
  /\ c_restitution c' = c_restitution c
  /\ cache (fst (contacts c')) = cache (fst (contacts c)).

(** The three possible outcomes of a narrow-phase call on a manifold. *)
Definition narrow_ok (c : prCollision) (r : bool * option prCollision) : Prop :=
  match r with
  | (true, Some c') => (c_count c' = 1 \/ c_count c' = 2) /\ manifold_kept c c'
  | (false, Some c') => c' = c
  | (_, None) => False
  end.

(** ** geometry.c: the convex hull *)



(** ** rigid-body.c and world.c: what the solver and the carry-over write *)

(** Two bodies that differ at most in their linear and angular velocity. *)
Definition velocity_only (b b' : prBody) : Prop :=
  b_type b' = b_type b /\ flags b' = flags b /\ shape b' = shape b
  /\ tx b' = tx b /\ aabb b' = aabb b /\ ctx b' = ctx b
  /\ mass (mtn b') = mass (mtn b)
  /\ inverseMass (mtn b') = inverseMass (mtn b)
  /\ inertia (mtn b') = inertia (mtn b)
  /\ inverseInertia (mtn b') = inverseInertia (mtn b)
  /\ gravityScale (mtn b') = gravityScale (mtn b)
  /\ force (mtn b') = force (mtn b)
  /\ torque (mtn b') = torque (mtn b).

(** Two heaps with the same live addresses, whose bodies differ at most in
    velocity, and not at all away from [a1] and [a2]. *)
Definition solver_frame (a1 a2 : addr) (h h' : heap) : Prop :=
  forall a : addr,
    match h !! a, h' !! a with
    | Some b, Some b' => velocity_only b b' /\ (a <> a1 -> a <> a2 -> b' = b)
    | None, None => True
    | _, _ => False
    end.

(** Two manifolds that differ at most in the two impulse scalars of their
    contacts' caches. *)
Definition contact_scalars_only (p p' : prContact) : Prop :=
  id p' = id p /\ point p' = point p /\ depth p' = depth p
  /\ normalMass (cache p') = normalMass (cache p)
  /\ tangentMass (cache p') = tangentMass (cache p).

Definition scalars_only (c c' : prCollision) : Prop :=
  c_friction c' = c_friction c /\ c_restitution c' = c_restitution c
  /\ direction c' = direction c /\ c_count c' = c_count c
  /\ contact_scalars_only (fst (contacts c)) (fst (contacts c'))
  /\ contact_scalars_only (snd (contacts c)) (snd (contacts c')).



(** ** world.c: the body array and the world raycast *)

(** [arrdelswap(a, i)] of stb_ds: the last element takes the place of the
    i-th, and the array is one shorter. *)
Definition arrdelswap {A : Type} (a : list A) (i : nat) : list A :=
  match last a with
  | Some x => take (length a - 1) (<[i := x]> a)
  | None => a
  end.

(** [prRemoveBodyFromWorld] for [w != NULL]. *)
Definition prRemoveBodyFromWorld (w : prWorld) (b : option addr) : bool * prWorld :=
  match b with
  | None => (false, w)
  | Some a =>
      match list_find (fun x => x = a) (bodies w) with
      | Some (i, _) =>
          (true, mkWorld (gravity w) (arrdelswap (bodies w) i) (hash w) (w_cache w)
                         (handler w) (accumulator w) (timestamp w))
      | None => (false, w)
      end
  end.

(** [prGetBodyFromWorld] and [prGetBodyCountForWorld] for [w != NULL]. *)
Definition prGetBodyFromWorld (w : prWorld) (index : Z) : option addr :=
  if (Z.ltb index 0 || Z.geb index (Z.of_nat (length (bodies w))))%bool then None
  else bodies w !! Z.to_nat index.

Definition prGetBodyCountForWorld (w : prWorld) : Z := Z.of_nat (length (bodies w)).

(** The local [raycastHit = { .distance = 0.0f }] of the callback. *)
Definition prRaycastHit_ZERO : prRaycastHit :=
  mkRaycastHit None prVector2_ZERO prVector2_ZERO F32.zero false.

(** [prRaycastHashQueryCallback].  The context is the list of hits handed
    to [func] so far ([None] once a pointer to no live body, or a slot
    past the body array, was read). *)
Definition prRaycastHashQueryCallback (h : heap) (bs : list addr) (ray : prRay)
    (bodyIndex : Z) (log : option (list prRaycastHit))
    : bool * option (list prRaycastHit) :=
  match log with
  | None => (false, None)
  | Some hits =>
      match (if Z.ltb bodyIndex 0 then None else bs !! Z.to_nat bodyIndex) with
      | None => (false, None)
      | Some a =>
          match prComputeRaycast h (Some a) ray (Some prRaycastHit_ZERO) with
          | None => (false, None)
          | Some (false, _) => (false, Some hits)
          | Some (true, hit) =>
              (true, Some (hits ++ [default prRaycastHit_ZERO hit]))
          end
      end
  end.

Section WorldRaycast.
Local Open Scope f32_scope.

(** [prComputeRaycastForWorld] for [w != NULL] and [func != NULL]: the
    world and the hits [func] was called with, in call order. *)
Definition prComputeRaycastForWorld (past before : Z) (h : heap) (w : prWorld)
    (ray : prRay) : option (prWorld * list prRaycastHit) :=
  match hash w with
  | None => Some (w, [])
  | Some sh =>
      let n := Z.of_nat (length (bodies w)) in
      sh ← fold_left
             (fun sh i =>
                sh ← sh;
                '(_, b) ← prWorldBody h (bodies w) i;
                prInsertToSpatialHash sh (prGetBodyAABB (Some b)) i)
             (seqZ 0 n) (Some (prClearSpatialHash sh));
      let minVertex := origin ray in
      let maxVertex :=
        prVector2Add (origin ray)
          (prVector2ScalarMultiply (prVector2Normalize (ray_direction ray))
                                   (maxDistance ray)) in
      '(sh, log) ←
        prQuerySpatialHash past before sh
          (mkAABB (F32.fminf (v_x minVertex) (v_x maxVertex))
                  (F32.fminf (v_y minVertex) (v_y maxVertex))
                  (F32.abs (v_x maxVertex - v_x minVertex))
                  (F32.abs (v_y maxVertex - v_y minVertex)))
          (prRaycastHashQueryCallback h (bodies w) ray) (Some []);
      hits ← log;
      Some (mkWorld (gravity w) (bodies w) (Some sh) (w_cache w) (handler w)
                    (accumulator w) (timestamp w), hits)
  end.
End WorldRaycast.

(** A hit as [func] may see it: on a live body of the world, and not from
    inside the shape. *)
Definition world_hit (h : heap) (w : prWorld) (hit : prRaycastHit) : Prop :=
  inside hit = false
  /\ exists a, hit_body hit = Some a /\ a ∈ bodies w /\ is_Some (h !! a).

(** ** Sample inputs for the properties above *)

(** The hash [prCreateSpatialHash] makes for unit cells, three boxes to
    store in it (two of them overlapping), the hash after storing them,
    and a box to query with. *)
Definition unit_hash : prSpatialHash :=
  mkSpatialHash F32.one (F32.div F32.one F32.one) [] ∅.

Definition box_at (x y width height : Z) : prAABB :=
  mkAABB (F32.of_Z x) (F32.of_Z y) (F32.of_Z width) (F32.of_Z height).

Definition three_boxes : list (prAABB * Z) :=
  [(box_at 0 0 2 2, 0); (box_at 1 1 2 2, 1); (box_at 10 10 1 1, 2)].

Definition filled_hash : prSpatialHash :=
  default unit_hash (prInsertAll unit_hash three_boxes).

(** A dynamic box that is pushed and then made static; a kinematic box. *)
Definition pushed_then_static : list prBodyOp :=
  [OpCreateBodyFromShape PR_BODY_DYNAMIC prVector2_ZERO unit_mass_box;
   OpApplyImpulseToBody (Some 0%nat) prVector2_ZERO (mkVector2 F32.one F32.zero);
   OpSetBodyType (Some 0%nat) PR_BODY_STATIC;
   OpApplyImpulseToBody (Some 0%nat) prVector2_ZERO (mkVector2 F32.one F32.zero);
   OpApplyGravityToBody (Some 0%nat) (mkVector2 F32.zero F32.one);
   OpIntegrateForBodyVelocity (Some 0%nat) F32.one].

Definition kinematic_box : list prBodyOp :=
  [OpCreateBodyFromShape PR_BODY_KINEMATIC prVector2_ZERO unit_mass_box;
   OpSetBodyFlags (Some 0%nat) PR_FLAG_INFINITE_INERTIA].

Definition heap_after (ops : list prBodyOp) : heap :=
  default ∅ (prRunOps (L := libm_at_zero) ops ∅).

Definition body_0 (h : heap) : prBody :=
  default (prBody_new PR_BODY_UNKNOWN prVector2_ZERO) (h !! 0%nat).

(** The world of the two overlapping circles, and one step of 1/60 s on
    it. *)
Definition two_circles_world : prWorld :=
  snd (prAddBodyToWorld (snd (prAddBodyToWorld fresh_world (Some 0%nat))) (Some 1%nat)).

Definition two_circles_stepped : heap * prWorld :=
  default (two_circles, two_circles_world)
    (prStepWorld (L := libm_at_zero) (X := extern_no_warm_start)
       (fun _ => (0, 0)) (F32.lit 1 60) (two_circles, two_circles_world)).

(** A world holding the body of [heap_with unit_circle], and the ray
    [x_ray] cast through it, with -1 in the two words around the scratch
    array. *)
Definition circle_world : prWorld := snd (prAddBodyToWorld fresh_world (Some 0%nat)).

Definition circle_world_raycast : prWorld * list prRaycastHit :=
  default (circle_world, [])
    (prComputeRaycastForWorld (-1) (-1) (heap_with unit_circle) circle_world x_ray).



(* ===================================================================== *)
(** * Properties *)
(* ===================================================================== *)


Lemma libm_at_zero_AnnexF : LibmAnnexF libm_at_zero.
Proof. split; intros s; reflexivity. Qed.


(* --------------------------------------------------------------------- *)
(** ** The fixed-step driver *)
(* --------------------------------------------------------------------- *)

Section Driver.
Context {L : Libm} {X : RigidBodyExtern}.

(** C9. With [dt <= 0], [prStepWorld] and [prUpdateWorld] return at
    their guard: the bodies (the heap), the contact cache, the accumulator
    and the timestamp of the world are what they were. *)
Theorem step_update_nonpositive_dt_noop :
  forall (oob : Z -> Z * Z) (oobs : nat -> Z -> Z * Z) (fuel : nat)
         (now : double) (dt : float) (h : heap) (w : prWorld),
    F32.le dt F32.zero = true ->
    prStepWorld oob dt (h, w) = Some (h, w)
    /\ prUpdateWorld fuel oobs now dt (h, w) = Some (h, w).
Proof.
  intros oob oobs fuel now dt h w Hdt.
  unfold prStepWorld, prUpdateWorld. rewrite Hdt. split; reflexivity.
Qed.

(** The reading of the clock never reaches the state: the chained
    assignment overwrites it with the stored timestamp. *)
Lemma prUpdateWorld_ignores_clock :
  forall fuel oobs (now1 now2 : double) dt st,
    prUpdateWorld fuel oobs now1 dt st = prUpdateWorld fuel oobs now2 dt st.
Proof. intros. destruct st as [h w]. reflexivity. Qed.

Lemma F64_ge_zero_pos :
  forall dt : float, F32.gt dt F32.zero = true ->
    F64.ge F64.zero (F64.of_float dt) = false.
Proof.
  intros dt. unfold F32.gt, F64.ge, F64.of_float, F32.zero, F64.zero.
  destruct dt as [s|s| |s m e]; try destruct s; cbn; congruence.
Qed.

(** C2 (the defect). On a world whose accumulator and timestamp are
    still zero, [prUpdateWorld] with [dt > 0] changes nothing and runs no
    step, whatever time the clock shows. *)
Theorem prUpdateWorld_never_advances :
  forall fuel oobs (now : double) (dt : float) (h : heap) (w : prWorld),
    F32.gt dt F32.zero = true ->
    accumulator w = F64.zero ->
    timestamp w = F64.zero ->
    prUpdateWorld fuel oobs now dt (h, w) = Some (h, w).
Proof.
  intros fuel oobs now dt h w Hdt Hacc Hts.
  unfold prUpdateWorld.
  assert (Hle : F32.le dt F32.zero = false).
  { revert Hdt. unfold F32.gt, F32.le, F32.zero.
    destruct dt as [s|s| |s m e]; try destruct s; cbn; congruence. }
  rewrite Hle, Hacc, Hts.
  replace (F64.add F64.zero F64.zero) with F64.zero by reflexivity.
  destruct fuel; cbn [prUpdateWorld_loop accumulator];
    rewrite (F64_ge_zero_pos dt Hdt);
    destruct w; cbn in *; subst; reflexivity.
Qed.
End Driver.


(** The failing input of C2: a fresh world, the clock at one second and
    [dt = 1/60].  Sixty steps are due; none is taken and the accumulator
    and the timestamp stay at zero. *)
Lemma prUpdateWorld_never_advances_witness :
  F32.gt (F32.lit 1 60) F32.zero = true
  /\ prUpdateWorld (L := libm_at_zero) (X := extern_no_warm_start)
       100 (fun _ _ => (0, 0)) (F32.of_Z 1) (F32.lit 1 60) (∅, fresh_world)
     = Some (∅, fresh_world).
Proof.
  split; [reflexivity|].
  apply prUpdateWorld_never_advances; reflexivity.
Defined.

Lemma step_update_nonpositive_dt_noop_witness :
  F32.le (F32.of_Z (-1)) F32.zero = true
  /\ prStepWorld (L := libm_at_zero) (X := extern_no_warm_start)
       (fun _ => (0, 0)) (F32.of_Z (-1)) (∅, fresh_world) = Some (∅, fresh_world)
  /\ prUpdateWorld (L := libm_at_zero) (X := extern_no_warm_start)
       5 (fun _ _ => (0, 0)) (F32.of_Z 7) (F32.of_Z (-1)) (∅, fresh_world)
     = Some (∅, fresh_world).
Proof.
  split; [reflexivity|].
  apply (step_update_nonpositive_dt_noop (fun _ => (0, 0)) (fun _ _ => (0, 0))
           5%nat (F32.of_Z 7) (F32.of_Z (-1)) ∅ fresh_world).
  reflexivity.
Defined.

(* --------------------------------------------------------------------- *)
(** ** Polygon construction *)
(* --------------------------------------------------------------------- *)

(** The part of the guard that is there: no vertex array, or a count that
    is not positive, gives the null handle. *)
Lemma prCreatePolygon_null :
  forall (m : prMaterial) (vs : option prVertices),
    (vs = None \/ exists v, vs = Some v /\ count v <= 0) ->
    prCreatePolygon m vs = Some None.
Proof.
  intros m vs [-> | (v & -> & Hc)]; [reflexivity|].
  unfold prCreatePolygon.
  destruct (Z.leb_spec (count v) 0); [reflexivity | lia].
Qed.

(** C7 (the defect). With one or two points, [prCreatePolygon] does not
    fail: the guard lets the count through, [prJarvisMarch] declines to
    build a hull, and the handle returned is a polygon with no vertices, no
    normals and area zero. *)
Theorem prCreatePolygon_short_input_not_null :
  forall (m : prMaterial) (vs : prVertices),
    0 < count vs < 3 ->
    prCreatePolygon m (Some vs)
    = Some (Some (mkShape PR_SHAPE_POLYGON m F32.zero F32.zero
                          (prVertices_init [] 0) (prVertices_init [] 0))).
Proof.
  intros m vs [Hlo Hhi].
  unfold prCreatePolygon, prSetPolygonVertices, prJarvisMarch.
  destruct (Z.leb_spec (count vs) 0); [lia|].
  destruct (Z.ltb_spec (count vs) 3); [|lia].
  reflexivity.
Qed.

Lemma prCreatePolygon_short_input_not_null_witness :
  0 < 2 < 3
  /\ prCreatePolygon prMaterial_ZERO
       (Some (prVertices_init [mkVector2 F32.zero F32.zero;
                               mkVector2 F32.one F32.zero] 2))
     = Some (Some (mkShape PR_SHAPE_POLYGON prMaterial_ZERO F32.zero F32.zero
                           (prVertices_init [] 0) (prVertices_init [] 0))).
Proof.
  split; [lia|].
  apply (prCreatePolygon_short_input_not_null prMaterial_ZERO
           (prVertices_init [mkVector2 F32.zero F32.zero;
                             mkVector2 F32.one F32.zero] 2)).
  cbn. lia.
Defined.

(* --------------------------------------------------------------------- *)
(** ** Narrow phase on axis-aligned boxes *)
(* --------------------------------------------------------------------- *)

Definition is_zero (x : float) : Prop := exists s, x = S754_zero s.

Lemma fold_left_ext_eq {A B : Type} (f g : A -> B -> A) (l : list B) (a : A) :
  (forall a b, f a b = g a b) -> fold_left f l a = fold_left g l a.
Proof.
  intros Hfg. revert a. induction l as [|b l IH]; intros a; cbn; [reflexivity|].
  rewrite Hfg. apply IH.
Qed.

(** With both body angles zero the narrow phase asks the platform only for
    [sinf] and [cosf] at zero, where Annex F fixes the answer; so the result
    is the same on every conforming platform. *)
Section ZeroAngle.
Context (L1 L2 : Libm) (A1 : LibmAnnexF L1) (A2 : LibmAnnexF L2).

Lemma prVector2Rotate_neg_zero (v : prVector2) (a : float) :
  is_zero a ->
  prVector2Rotate (L := L1) v (F32.neg a) = prVector2Rotate (L := L2) v (F32.neg a).
Proof.
  intros [s ->]. unfold prVector2Rotate. cbn [F32.neg SFopp].
  rewrite (sinf_zero (L := L1)), (sinf_zero (L := L2)).
  rewrite (cosf_zero (L := L1)), (cosf_zero (L := L2)).
  reflexivity.
Qed.

Lemma prGetSupportPointIndex_zero_angle vs tx v :
  is_zero (angle tx) ->
  prGetSupportPointIndex (L := L1) vs tx v = prGetSupportPointIndex (L := L2) vs tx v.
Proof.
  intros Hz. unfold prGetSupportPointIndex.
  rewrite (prVector2Rotate_neg_zero v _ Hz). reflexivity.
Qed.

Lemma prGetContactEdge_zero_angle s tx v :
  is_zero (angle tx) ->
  prGetContactEdge (L := L1) s tx v = prGetContactEdge (L := L2) s tx v.
Proof.
  intros Hz. unfold prGetContactEdge.
  rewrite (prGetSupportPointIndex_zero_angle _ _ _ Hz).
  rewrite (prVector2Rotate_neg_zero v _ Hz). reflexivity.
Qed.

Lemma prGetSeparatingAxisIndex_zero_angle s1 tx1 s2 tx2 d :
  is_zero (angle tx2) ->
  prGetSeparatingAxisIndex (L := L1) s1 tx1 s2 tx2 d
  = prGetSeparatingAxisIndex (L := L2) s1 tx1 s2 tx2 d.
Proof.
  intros Hz. unfold prGetSeparatingAxisIndex.
  erewrite fold_left_ext_eq; [reflexivity|].
  intros [i|[m i]] j; [reflexivity|]. cbn beta iota.
  rewrite (prGetSupportPointIndex_zero_angle _ _ _ Hz). reflexivity.
Qed.

Lemma prComputeCollisionPolys_zero_angle s1 tx1 s2 tx2 c :
  is_zero (angle tx1) -> is_zero (angle tx2) ->
  prComputeCollisionPolys (L := L1) s1 tx1 s2 tx2 c
  = prComputeCollisionPolys (L := L2) s1 tx1 s2 tx2 c.
Proof.
  intros Hz1 Hz2. unfold prComputeCollisionPolys.
  rewrite (prGetSeparatingAxisIndex_zero_angle s1 tx1 s2 tx2 _ Hz2).
  rewrite (prGetSeparatingAxisIndex_zero_angle s2 tx2 s1 tx1 _ Hz1).
  destruct (prGetSeparatingAxisIndex s1 tx1 s2 tx2 F32.FLT_MAX) as [index1 maxDepth1].
  destruct (F32.ge maxDepth1 F32.zero); [reflexivity|].
  destruct (prGetSeparatingAxisIndex s2 tx2 s1 tx1 F32.FLT_MAX) as [index2 maxDepth2].
  destruct (F32.ge maxDepth2 F32.zero); [reflexivity|].
  destruct c as [c|]; [|reflexivity].
  cbv zeta.
  rewrite !(prGetContactEdge_zero_angle s1 tx1 _ Hz1).
  rewrite !(prGetContactEdge_zero_angle s2 tx2 _ Hz2).
  reflexivity.
Qed.

Lemma prComputeCollisionCirclePoly_zero_angle s1 tx1 s2 tx2 c :
  is_zero (angle tx1) -> is_zero (angle tx2) ->
  prComputeCollisionCirclePoly (L := L1) s1 tx1 s2 tx2 c
  = prComputeCollisionCirclePoly (L := L2) s1 tx1 s2 tx2 c.
Proof.
  intros Hz1 Hz2. unfold prComputeCollisionCirclePoly.
  destruct (shapeType_eqb (s_type s1) PR_SHAPE_CIRCLE).
  - rewrite (prVector2Rotate_neg_zero _ _ Hz2). reflexivity.
  - rewrite (prVector2Rotate_neg_zero _ _ Hz1). reflexivity.
Qed.

Lemma prComputeCollision_zero_angle s1 tx1 s2 tx2 c :
  is_zero (angle tx1) -> is_zero (angle tx2) ->
  prComputeCollision (L := L1) s1 tx1 s2 tx2 c
  = prComputeCollision (L := L2) s1 tx1 s2 tx2 c.
Proof.
  intros Hz1 Hz2. unfold prComputeCollision.
  destruct s1 as [sh1|], s2 as [sh2|]; try reflexivity.
  destruct (s_type sh1), (s_type sh2); try reflexivity.
  - apply prComputeCollisionCirclePoly_zero_angle; assumption.
  - apply prComputeCollisionCirclePoly_zero_angle; assumption.
  - apply prComputeCollisionPolys_zero_angle; assumption.
Qed.
End ZeroAngle.

(** C4. As the test [BoxToBox1] builds them, the rectangles 150x100 px at
    (-50, 0) px and 150x50 px at (50, 0) px collide; the manifold has two
    contacts, direction (1, 0), contact 0 at (-1.5625, -1.5625) and contact 1
    at (-1.5625, 1.5625), both with depth 3.125.  The values are exact in
    binary32, hence within the tolerance 1e-6 of the test. *)
Theorem BoxToBox1_manifold :
  forall (L : Libm), LibmAnnexF L ->
    BoxToBox1 = Some (true, Some BoxToBox1_expected)
    /\ c_count BoxToBox1_expected = 2
    /\ in_range F32.one (v_x (direction BoxToBox1_expected)) PR_TEST_EPSILON = true
    /\ in_range F32.zero (v_y (direction BoxToBox1_expected)) PR_TEST_EPSILON = true
    /\ in_range (F32.lit (-15625) 10000)
         (v_x (point (fst (contacts BoxToBox1_expected)))) PR_TEST_EPSILON = true
    /\ in_range (F32.lit (-15625) 10000)
         (v_y (point (fst (contacts BoxToBox1_expected)))) PR_TEST_EPSILON = true
    /\ in_range (F32.lit 3125 1000)
         (depth (fst (contacts BoxToBox1_expected))) PR_TEST_EPSILON = true
    /\ in_range (F32.lit (-15625) 10000)
         (v_x (point (snd (contacts BoxToBox1_expected)))) PR_TEST_EPSILON = true
    /\ in_range (F32.lit 15625 10000)
         (v_y (point (snd (contacts BoxToBox1_expected)))) PR_TEST_EPSILON = true
    /\ in_range (F32.lit 3125 1000)
         (depth (snd (contacts BoxToBox1_expected))) PR_TEST_EPSILON = true.
Proof.
  intros L HL. split; [|vm_compute; repeat split; reflexivity].
  transitivity (BoxToBox1 (L := libm_at_zero)); [|vm_compute; reflexivity].
  unfold BoxToBox1.
  destruct BoxToBox1_s1 as [s1|]; [|reflexivity]. cbn [mbind option_bind].
  destruct (prCreateBodyFromShape _ _ s1 ∅) as [b1 h1] eqn:E1.
  destruct BoxToBox1_s2 as [s2|]; [|reflexivity]. cbn [mbind option_bind].
  destruct (prCreateBodyFromShape _ _ s2 h1) as [b2 h2] eqn:E2.
  f_equal.
  assert (Hz : forall (b : option addr) (h : heap) p s h0,
             prCreateBodyFromShape PR_BODY_DYNAMIC p s h0 = (b, h) ->
             forall a body, h !! a = Some body ->
               (forall body0, h0 !! a = Some body0 -> is_zero (angle (tx body0))) ->
               is_zero (angle (tx body))).
  { intros b h p s h0 E a body Ha H0.
    unfold prCreateBodyFromShape, prCreateBody in E. injection E as <- <-.
    cbn [on_body] in Ha.
    rewrite lookup_alter in Ha. case_decide as Hd.
    - subst a. rewrite lookup_insert_eq in Ha. cbn in Ha.
      injection Ha as <-. exists false. reflexivity.
    - rewrite lookup_insert_ne in Ha by congruence. eauto. }
  apply prComputeCollision_zero_angle; try assumption; try apply libm_at_zero_AnnexF.
  - destruct (b1 ≫= (h2 !!.)) as [body|] eqn:Eb; [|exists false; reflexivity].
    destruct b1 as [a1|]; [|discriminate]. cbn in Eb.
    eapply (Hz _ _ _ _ _ E2 a1 body Eb).
    intros body0 H0. eapply (Hz _ _ _ _ _ E1 a1 body0 H0).
    intros ? Hempty. rewrite lookup_empty in Hempty. discriminate.
  - destruct (b2 ≫= (h2 !!.)) as [body|] eqn:Eb; [|exists false; reflexivity].
    destruct b2 as [a2|]; [|discriminate]. cbn in Eb.
    eapply (Hz _ _ _ _ _ E2 a2 body Eb).
    intros body0 H0. eapply (Hz _ _ _ _ _ E1 a2 body0 H0).
    intros ? Hempty. rewrite lookup_empty in Hempty. discriminate.
Qed.

Lemma BoxToBox1_manifold_witness :
  BoxToBox1 (L := libm_at_zero) = Some (true, Some BoxToBox1_expected).
Proof.
  exact (proj1 (BoxToBox1_manifold libm_at_zero libm_at_zero_AnnexF)).
Defined.

(* --------------------------------------------------------------------- *)
(** ** Ray casting with a null output pointer *)
(* --------------------------------------------------------------------- *)

Section Raycast.

(** The edge loop of the polygon branch keeps a null output pointer null
    and a non-null one non-null. *)
Lemma prRaycastEdge_hit_None vs tx ray l :
  forall lambda minLambda n,
    exists lambda' minLambda' n',
      fold_left (prRaycastEdge vs tx ray) l (lambda, minLambda, None, n)
      = (lambda', minLambda', None, n').
Proof.
  induction l as [|i l IH]; intros lambda minLambda n; cbn [fold_left].
  - eauto.
  - unfold prRaycastEdge at 2.
    destruct (prComputeIntersectionLines _ _ _ _ lambda) as [intersects lambda1].
    destruct (intersects && F32.le lambda1 (maxDistance ray))%bool;
      [destruct (F32.gt minLambda lambda1)|]; cbn [fmap option_fmap option_map];
      apply IH.
Qed.

Lemma prRaycastEdge_hit_Some vs tx ray l :
  forall lambda minLambda hit n,
    exists lambda' minLambda' hit' n',
      fold_left (prRaycastEdge vs tx ray) l (lambda, minLambda, Some hit, n)
      = (lambda', minLambda', Some hit', n').
Proof.
  induction l as [|i l IH]; intros lambda minLambda hit n; cbn [fold_left].
  - eauto.
  - unfold prRaycastEdge at 2.
    destruct (prComputeIntersectionLines _ _ _ _ lambda) as [intersects lambda1].
    destruct (intersects && F32.le lambda1 (maxDistance ray))%bool;
      [destruct (F32.gt minLambda lambda1)|]; cbn [fmap option_fmap option_map];
      apply IH.
Qed.

(** C10. For a live body: with a circle shape the call returns for a
    null [raycastHit], every store being guarded; with a polygon shape the
    [return] reads [raycastHit->inside], so the call with a null
    [raycastHit] is undefined, and with a non-null one it returns. *)
Theorem prComputeRaycast_null_hit :
  forall (h : heap) (a : addr) (body : prBody) (ray : prRay),
    h !! a = Some body ->
    (prGetShapeType (shape body) = PR_SHAPE_CIRCLE ->
       exists r, prComputeRaycast h (Some a) ray None = Some (r, None))
    /\ (prGetShapeType (shape body) = PR_SHAPE_POLYGON ->
          prComputeRaycast h (Some a) ray None = None
          /\ forall hit, exists r hit',
               prComputeRaycast h (Some a) ray (Some hit) = Some (r, Some hit')).
Proof.
  intros h a body ray Ha. unfold prComputeRaycast. rewrite Ha.
  cbn [mbind option_bind]. split; intros Ht; rewrite Ht.
  - destruct (prComputeIntersectionCircleLine _ _ _ _) as [intersects lambda].
    cbn [fmap option_fmap option_map]. eauto.
  - assert (Hvs : prGetPolygonVertices (shape body) = Some (vertices
                    (default prShape_calloc (shape body)))).
    { unfold prGetShapeType in Ht. unfold prGetPolygonVertices.
      destruct (shape body) as [sh|]; [|discriminate].
      rewrite Ht. reflexivity. }
    rewrite Hvs. cbn [mbind option_bind]. split.
    + edestruct prRaycastEdge_hit_None as (l' & m' & n' & ->). reflexivity.
    + intros hit.
      edestruct prRaycastEdge_hit_Some as (l' & m' & hit' & n' & ->).
      cbn [fmap option_fmap option_map mbind option_bind]. eauto.
Qed.
End Raycast.

Lemma prComputeRaycast_null_hit_witness :
  heap_with box_shape !! 0%nat
  = Some (prSetBodyShape box_shape
            (prBody_new PR_BODY_DYNAMIC (mkVector2 (F32.of_Z 5) F32.zero)))
  /\ prComputeRaycast (heap_with box_shape) (Some 0%nat) x_ray None
     = None
  /\ exists r, prComputeRaycast (heap_with unit_circle)
                 (Some 0%nat) x_ray None = Some (r, None).
Proof.
  split; [reflexivity|]. split.
  - apply (prComputeRaycast_null_hit (heap_with box_shape) 0%nat
             (prSetBodyShape box_shape
                (prBody_new PR_BODY_DYNAMIC (mkVector2 (F32.of_Z 5) F32.zero)))
             x_ray); reflexivity.
  - apply (prComputeRaycast_null_hit (heap_with unit_circle) 0%nat
             (prSetBodyShape unit_circle
                (prBody_new PR_BODY_DYNAMIC (mkVector2 (F32.of_Z 5) F32.zero)))
             x_ray); reflexivity.
Defined.

(* --------------------------------------------------------------------- *)
(** ** The contact cache *)
(* --------------------------------------------------------------------- *)

Lemma bodyPair_eqb_refl k : bodyPair_eqb k k = true.
Proof. unfold bodyPair_eqb. rewrite !Nat.eqb_refl. reflexivity. Qed.

Lemma bodyPair_eqb_eq k1 k2 : bodyPair_eqb k1 k2 = true <-> k1 = k2.
Proof.
  unfold bodyPair_eqb. rewrite andb_true_iff, !Nat.eqb_eq.
  destruct k1, k2; cbn. split; [intros [-> ->]; reflexivity | intros [= -> ->]; auto].
Qed.

Lemma hmgetp_null_hmputs_eq cache key v :
  hmgetp_null (hmputs cache key v) key = Some v.
Proof.
  induction cache as [|[k v0] rest IH]; cbn.
  - rewrite bodyPair_eqb_refl. reflexivity.
  - destruct (bodyPair_eqb k key) eqn:E; cbn; rewrite E; [reflexivity | exact IH].
Qed.

Lemma hmgetp_null_hmputs_ne cache key key' v :
  key <> key' -> hmgetp_null (hmputs cache key v) key' = hmgetp_null cache key'.
Proof.
  intros Hne. induction cache as [|[k v0] rest IH]; cbn.
  - destruct (bodyPair_eqb key key') eqn:E; [|reflexivity].
    apply bodyPair_eqb_eq in E. contradiction.
  - destruct (bodyPair_eqb k key) eqn:E; cbn.
    + apply bodyPair_eqb_eq in E. subst k.
      destruct (bodyPair_eqb key key') eqn:E'; [|reflexivity].
      apply bodyPair_eqb_eq in E'. contradiction.
    + destruct (bodyPair_eqb k key'); [reflexivity | exact IH].
Qed.

Lemma with_cache_materials c i k :
  c_friction (with_cache c i k) = c_friction c
  /\ c_restitution (with_cache c i k) = c_restitution c
  /\ c_count (with_cache c i k) = c_count c.
Proof. unfold with_cache, contact_set. cbn. auto. Qed.

Lemma prRefreshCollision_materials collision old :
  c_friction (prRefreshCollision collision old) = c_friction old
  /\ c_restitution (prRefreshCollision collision old) = c_restitution old.
Proof.
  unfold prRefreshCollision.
  set (c0 := mkCollision _ _ _ _ _).
  assert (H0 : c_friction c0 = c_friction old /\ c_restitution c0 = c_restitution old)
    by (split; reflexivity).
  generalize (seqZ 0 (c_count c0)). intros l. clearbody c0.
  revert c0 H0. induction l as [|i l IH]; intros c0 H0; cbn [fold_left]; [exact H0|].
  apply IH.
  destruct (Z.geb _ 0);
    destruct (with_cache_materials c0 i
                (mkContactCache (normalMass (cache (contact_get c0 i)))
                   (normalScalar (cache (contact_get old
                      (prFindContact old (id (contact_get c0 i))))))
                   (tangentMass (cache (contact_get c0 i)))
                   (tangentScalar (cache (contact_get old
                      (prFindContact old (id (contact_get c0 i)))))))) as (Hf & Hr & _);
    destruct (with_cache_materials c0 i
                (mkContactCache (normalMass (cache (contact_get c0 i))) F32.zero
                   (tangentMass (cache (contact_get c0 i))) F32.zero)) as (Hf' & Hr' & _);
    destruct H0; split; congruence.
Qed.

Section ContactCache.
Context {L : Libm}.

(** C1. Whenever the broad-phase callback stores a manifold for the pair
    [(b1, b2)]: if the pair had no cache entry, the stored friction is
    [0.5 * (friction s1 + friction s2)] and the stored restitution is
    [fminf(restitution s1, restitution s2)], each replaced by zero when it
    is [<= 0]; if the pair had an entry, the friction and restitution of
    that entry are the ones stored again. *)
Theorem prPreStepHashQueryCallback_materials :
  forall (h : heap) (bs : list addr) (bodyIndex otherBodyIndex : Z)
         (cache cache' : list prContactCacheEntry)
         (a1 a2 : addr) (b1 b2 : prBody),
    prWorldBody h bs bodyIndex = Some (a1, b1) ->
    prWorldBody h bs otherBodyIndex = Some (a2, b2) ->
    prPreStepHashQueryCallback h bs bodyIndex otherBodyIndex (Some cache)
    = (true, Some cache') ->
    exists c,
      hmgetp_null cache' (mkBodyPair a1 a2) = Some c
      /\ match hmgetp_null cache (mkBodyPair a1 a2) with
         | None =>
             let f := F32.mul F32.half
                        (F32.add (prGetShapeFriction (shape b1))
                                 (prGetShapeFriction (shape b2))) in
             let e := F32.fminf (prGetShapeRestitution (shape b1))
                                (prGetShapeRestitution (shape b2)) in
             c_friction c = (if F32.le f F32.zero then F32.zero else f)
             /\ c_restitution c = (if F32.le e F32.zero then F32.zero else e)
         | Some old =>
             c_friction c = c_friction old
             /\ c_restitution c = c_restitution old
         end.
Proof.
  intros h bs i j cache cache' a1 a2 b1 b2 H1 H2 Hcb.
  unfold prPreStepHashQueryCallback in Hcb.
  destruct (Z.leb j i); [discriminate|].
  rewrite H1, H2 in Hcb.
  destruct (F32.le _ F32.zero); [discriminate|].
  cbn [prGetBodyShape prGetBodyTransform] in Hcb.
  destruct (prComputeCollision _ _ _ _ _) as [[|] [collision|]];
    try discriminate.
  injection Hcb as <-.
  eexists. split; [apply hmgetp_null_hmputs_eq|].
  destruct (hmgetp_null cache (mkBodyPair a1 a2)) as [old|].
  - apply prRefreshCollision_materials.
  - split; reflexivity.
Qed.
End ContactCache.

Lemma prPreStepHashQueryCallback_materials_witness :
  exists c,
    hmgetp_null two_circles_cache (mkBodyPair 0%nat 1%nat) = Some c
    /\ c_friction c = F32.lit 3 10
    /\ c_restitution c = F32.lit 1 4.
Proof.
  edestruct (prPreStepHashQueryCallback_materials (L := libm_at_zero)
               two_circles [0%nat; 1%nat] 0 1 [] two_circles_cache)
    as (c & Hc & Hm).
  - vm_compute. reflexivity.
  - vm_compute. reflexivity.
  - vm_compute. reflexivity.
  - exists c. split; [exact Hc|]. exact Hm.
Defined.

(* --------------------------------------------------------------------- *)
(** ** The contact solver *)
(* --------------------------------------------------------------------- *)

Lemma contact_get_set c i k : contact_get (contact_set c i k) i = k.
Proof. unfold contact_get, contact_set. cbn. destruct (Z.eqb i 0); reflexivity. Qed.

Lemma on_body_lookup_Some f a (h : heap) a' b :
  h !! a' = Some b -> exists b', on_body f (Some a) h !! a' = Some b'.
Proof.
  intros Hb. cbn [on_body]. rewrite lookup_alter. case_decide as Hd.
  - subst a'. rewrite Hb. cbn. eauto.
  - eauto.
Qed.

Section Solver.
Local Open Scope f32_scope.

(** One round of the contact loop.  For live bodies [b1], [b2] and a
    contact whose relative normal velocity [vn] is not positive, the round
    computes [lambda = (-(1 + e) * vn + b) / k_n] with
    [b = -(0.24 * inverseDt) * fminf(0, -depth + 0.01)], stores [lambda]
    in the contact's cache in place of what was there, and applies
    [lambda * direction] negated to body 1 and as is to body 2 (before the
    friction impulse [t * tangent], applied the same way). *)
Lemma frResolveContact_normal_impulse :
  forall (h : heap) (a1 a2 : addr) (b1 b2 : prBody) (c : prCollision)
         (i : Z) (inverseDt : float),
    h !! a1 = Some b1 ->
    h !! a2 = Some b2 ->
    (0 <= i <= 1)%Z ->
    let p := point (contact_get c i) in
    let r1 := prVector2Subtract p (position (tx b1)) in
    let r2 := prVector2Subtract p (position (tx b2)) in
    let vrel :=
      prVector2Subtract
        (prVector2Add (velocity (mtn b2))
           (prVector2ScalarMultiply (prVector2LeftNormal r2) (angularVelocity (mtn b2))))
        (prVector2Add (velocity (mtn b1))
           (prVector2ScalarMultiply (prVector2LeftNormal r1) (angularVelocity (mtn b1)))) in
    let vn := prVector2Dot vrel (direction c) in
    let k_n :=
      (inverseMass (mtn b1) + inverseMass (mtn b2))
      + inverseInertia (mtn b1)
        * (prVector2Cross r1 (direction c) * prVector2Cross r1 (direction c))
      + inverseInertia (mtn b2)
        * (prVector2Cross r2 (direction c) * prVector2Cross r2 (direction c)) in
    let b := - (F32.lit 24 100 * inverseDt)
             * F32.fminf F32.zero (- depth (contact_get c i) + F32.lit 1 100) in
    let lambda := ((- (F32.one + c_restitution c) * vn) + b) / k_n in
    let j_n := prVector2ScalarMultiply (direction c) lambda in
    let tangent := mkVector2 (v_y (direction c)) (- v_x (direction c)) in
    F32.gt vn F32.zero = false ->
    exists (h' : heap) (c' : prCollision) (t : float),
      frResolveContact a1 a2 inverseDt (Some (h, c)) i = Some (h', c')
      /\ normalScalar (cache (contact_get c' i)) = lambda
      /\ h' = on_body (prApplyImpulseToBody r2 (prVector2ScalarMultiply tangent t))
                (Some a2)
                (on_body (prApplyImpulseToBody r1
                            (prVector2Negate (prVector2ScalarMultiply tangent t)))
                   (Some a1)
                   (on_body (prApplyImpulseToBody r2 j_n) (Some a2)
                      (on_body (prApplyImpulseToBody r1 (prVector2Negate j_n))
                         (Some a1) h))).
Proof.
  intros h a1 a2 b1 b2 c i inverseDt H1 H2 Hi p r1 r2 vrel vn k_n b lambda j_n
         tangent Hvn.
  unfold frResolveContact. cbn [mbind option_bind].
  destruct (Z.ltb_spec i 0); [lia|]. destruct (Z.ltb_spec 1 i); [lia|].
  cbn [orb].
  rewrite H1, H2. cbn [mbind option_bind prGetBodyPosition].
  fold p. fold r1. fold r2.
  change (prRelVelocity b1 b2 (prVector2LeftNormal r1) (prVector2LeftNormal r2))
    with vrel.
  fold vn. rewrite Hvn.
  change (prNormalScalar (c_restitution c) vn (depth (contact_get c i)) inverseDt
            (prEffectiveMass b1 b2 r1 r2 (direction c))) with lambda.
  set (c1 := with_cache c i _).
  assert (Hd : direction c1 = direction c) by reflexivity.
  rewrite Hd. fold j_n.
  set (h1 := on_body (prApplyImpulseToBody r2 j_n) (Some a2) _).
  destruct (on_body_lookup_Some (prApplyImpulseToBody r1 (prVector2Negate j_n))
              a1 h a1 b1 H1) as [b1a Hb1a].
  destruct (on_body_lookup_Some (prApplyImpulseToBody r2 j_n) a2 _ a1 b1a Hb1a)
    as [b1' Hb1'].
  destruct (on_body_lookup_Some (prApplyImpulseToBody r1 (prVector2Negate j_n))
              a1 h a2 b2 H2) as [b2a Hb2a].
  destruct (on_body_lookup_Some (prApplyImpulseToBody r2 j_n) a2 _ a2 b2a Hb2a)
    as [b2' Hb2'].
  fold h1 in Hb1', Hb2'. rewrite Hb1', Hb2'. cbn [mbind option_bind].
  fold tangent.
  eexists _, _, _. split; [reflexivity|]. split; [|reflexivity].
  unfold with_cache. rewrite !contact_get_set. cbn [normalScalar cache].
  unfold c1, with_cache. rewrite contact_get_set. reflexivity.
Qed.
End Solver.

(* ===================================================================== *)
(** * Further properties of the code *)
(* ===================================================================== *)

(* --------------------------------------------------------------------- *)
(** ** broad-phase.c: the duplicate scan of a query *)
(* --------------------------------------------------------------------- *)

Lemma prKept_length past q i : (length (prKept past q i) <= i)%nat.
Proof.
  induction i as [|i IH]; cbn [prKept length]; [lia|].
  rewrite length_app. destruct (Z.eqb _ _); cbn [length]; lia.
Qed.

Lemma nth_kept_state (E q : list Z) (past : Z) (j : nat) :
  (length E <= j)%nat -> (length E <= length q)%nat ->
  nth j (E ++ drop (length E) q) past = nth j q past.
Proof.
  intros Hj Hq. rewrite !nth_lookup.
  rewrite lookup_app_r by lia. rewrite lookup_drop.
  replace (length E + (j - length E))%nat with j by lia. reflexivity.
Qed.

Lemma prDedup_loop past before q i :
  (i <= length q)%nat ->
  fold_left (prDedupStep past before) (seqZ 0 (Z.of_nat i)) (q, 0)
  = (prKept past q i ++ drop (length (prKept past q i)) q,
     Z.of_nat (length (prKept past q i))).
Proof.
  induction i as [|i IH]; intros Hi.
  - cbn. rewrite drop_0. reflexivity.
  - replace (Z.of_nat (S i)) with (Z.of_nat i + 1) by lia.
    rewrite seqZ_app by lia. rewrite fold_left_app, IH by lia.
    cbn [seqZ fold_left]. change (seqZ (0 + Z.of_nat i) 1) with (seqZ (0 + Z.of_nat i) 1).
    rewrite Z.add_0_l.
    replace (seqZ (Z.of_nat i) 1) with [Z.of_nat i] by reflexivity.
    cbn [fold_left]. unfold prDedupStep.
    pose proof (prKept_length past q i) as HE.
    set (E := prKept past q i) in *.
    unfold qread.
    destruct (Z.ltb_spec (Z.of_nat i) 0); [lia|].
    destruct (Z.ltb_spec (Z.of_nat i + 1) 0); [lia|].
    replace (Z.to_nat (Z.of_nat i + 1)) with (S i) by lia.
    rewrite Nat2Z.id.
    rewrite !nth_kept_state by lia.
    cbn [prKept]. fold E.
    destruct (Z.eqb (nth i q past) (nth (S i) q past)); cbn [negb].
    + rewrite app_nil_r. reflexivity.
    + rewrite Nat2Z.id. rewrite length_app. cbn [length].
      f_equal; [|lia].
      rewrite insert_app_r_alt by lia. rewrite Nat.sub_diag.
      destruct (lookup_lt_is_Some_2 q (length E) ltac:(lia)) as [y Hy].
      rewrite (drop_S _ _ _ Hy). cbn [insert list_insert].
      rewrite <- app_assoc. cbn. do 3 f_equal. lia.
Qed.

Lemma prKept_full past q i :
  (i <= length q)%nat -> length (prKept past q i) = i -> prKept past q i = take i q.
Proof.
  induction i as [|i IH]; intros Hi Hlen; [reflexivity|].
  cbn [prKept] in *. pose proof (prKept_length past q i) as HE.
  rewrite length_app in Hlen.
  destruct (Z.eqb _ _); cbn [length] in Hlen; [lia|].
  rewrite IH by lia.
  destruct (lookup_lt_is_Some_2 q i ltac:(lia)) as [y Hy].
  rewrite (take_S_r _ _ _ Hy). rewrite (nth_lookup_Some _ _ _ _ Hy). reflexivity.
Qed.

Lemma prDedup_eq past before q :
  (1 <= length q)%nat ->
  prDedup past before q
  = let E := prKept past q (length q) in
    let x := nth (length q - 1) q past in
    if Z.eqb (last_or before E) x then E else E ++ [x].
Proof.
  intros Hn. unfold prDedup. cbv zeta.
  change (fold_left _ (seqZ 0 (Z.of_nat (length q))) (q, 0))
    with (fold_left (prDedupStep past before) (seqZ 0 (Z.of_nat (length q))) (q, 0)).
  rewrite prDedup_loop by lia.
  pose proof (prKept_length past q (length q)) as HE.
  pose proof (prKept_full past q (length q) ltac:(lia)) as Hfull.
  set (E := prKept past q (length q)) in *.
  set (S0 := E ++ drop (length E) q).
  assert (Hlast : qread past before S0 (Z.of_nat (length q) - 1)
                  = nth (length q - 1) q past).
  { unfold qread. destruct (Z.ltb_spec (Z.of_nat (length q) - 1) 0); [lia|].
    replace (Z.to_nat (Z.of_nat (length q) - 1)) with (length q - 1)%nat by lia.
    destruct (decide (length E = length q)) as [Heq|Hne].
    - unfold S0. rewrite (Hfull Heq). rewrite firstn_all, drop_all, app_nil_r.
      reflexivity.
    - unfold S0. apply nth_kept_state; lia. }
  assert (Hprev : qread past before S0 (Z.of_nat (length E) - 1) = last_or before E).
  { unfold qread, last_or. rewrite last_lookup.
    destruct (Z.ltb_spec (Z.of_nat (length E) - 1) 0).
    - destruct E; [reflexivity | cbn [length] in *; lia].
    - replace (Z.to_nat (Z.of_nat (length E) - 1)) with (pred (length E)) by lia.
      rewrite nth_lookup. unfold S0. rewrite lookup_app_l by lia.
      destruct (lookup_lt_is_Some_2 E (pred (length E)) ltac:(lia)) as [y Hy].
      rewrite Hy. reflexivity. }
  rewrite Hprev, Hlast.
  destruct (Z.eqb_spec (last_or before E) (nth (length q - 1) q past)) as [Heq|Hne];
    cbn [negb].
  - rewrite Nat2Z.id. unfold S0. apply take_app_length.
  - assert (Hlt : (length E < length q)%nat).
    { destruct (decide (length E = length q)) as [Heq|]; [|lia].
      exfalso. apply Hne. unfold last_or. rewrite (Hfull Heq), firstn_all.
      rewrite last_lookup, nth_lookup.
      replace (pred (length q)) with (length q - 1)%nat by lia.
      destruct (lookup_lt_is_Some_2 q (length q - 1) ltac:(lia)) as [y Hy].
      rewrite Hy. reflexivity. }
    rewrite Nat2Z.id. unfold S0.
    rewrite insert_app_r_alt by lia. rewrite Nat.sub_diag.
    destruct (lookup_lt_is_Some_2 q (length E) ltac:(lia)) as [y Hy].
    rewrite (drop_S _ _ _ Hy). cbn [insert list_insert].
    replace (Z.to_nat (Z.of_nat (length E) + 1)) with (length (E ++ [nth (length q - 1) q past])).
    + rewrite (cons_middle _ E (drop (S (length E)) q)).
      rewrite (app_assoc E [_] (drop (S (length E)) q)). apply take_app_length.
    + rewrite length_app. cbn. lia.
Qed.

Lemma StronglySorted_index_sorted (q : list Z) :
  StronglySorted Z.le q -> index_sorted q.
Proof.
  induction 1 as [|a l Hl IH Ha]; intros i j x y Hij Hi Hj.
  - rewrite lookup_nil in Hi. discriminate.
  - destruct i as [|i], j as [|j]; cbn in Hi, Hj; try lia.
    + assert (x = y) by congruence. lia.
    + injection Hi as <-. rewrite Forall_forall in Ha.
      apply Ha. eapply list_elem_of_lookup_2. exact Hj.
    + eapply IH; [|exact Hi|exact Hj]. lia.
Qed.

Lemma StronglySorted_snoc_lt (l : list Z) (y : Z) :
  StronglySorted Z.lt l -> (forall x, x ∈ l -> x < y) ->
  StronglySorted Z.lt (l ++ [y]).
Proof.
  induction 1 as [|a l Hl IH Ha]; intros Hy; cbn.
  - repeat constructor.
  - constructor.
    + apply IH. intros x Hx. apply Hy. right. exact Hx.
    + rewrite Forall_app. split; [exact Ha|].
      constructor; [|constructor]. apply Hy. left.
Qed.

Section Kept.
Variables (past : Z) (q : list Z).
Hypothesis Hsorted : index_sorted q.

Lemma prKept_elem i x :
  (i <= length q)%nat -> x ∈ prKept past q i ->
  exists j, (j < i)%nat /\ q !! j = Some x /\ x <> nth (S j) q past.
Proof.
  induction i as [|i IH]; intros Hi Hx; cbn [prKept] in Hx.
  - apply elem_of_nil in Hx. contradiction.
  - apply elem_of_app in Hx. destruct Hx as [Hx|Hx].
    + destruct (IH ltac:(lia) Hx) as (j & Hj & Hq & Hne). exists j. split; [lia|auto].
    + destruct (Z.eqb_spec (nth i q past) (nth (S i) q past)) as [|Hne].
      * apply elem_of_nil in Hx. contradiction.
      * apply list_elem_of_singleton in Hx. subst x. exists i. split; [lia|].
        split; [|exact Hne].
        destruct (lookup_lt_is_Some_2 q i ltac:(lia)) as [y Hy].
        rewrite (nth_lookup_Some _ _ _ _ Hy). exact Hy.
Qed.

Lemma prKept_below i x k y :
  (i <= length q)%nat -> x ∈ prKept past q i ->
  (i <= k)%nat -> q !! k = Some y -> x < y.
Proof.
  intros Hi Hx Hk Hy.
  destruct (prKept_elem i x Hi Hx) as (j & Hj & Hq & Hne).
  pose proof (lookup_lt_Some _ _ _ Hy) as Hklen.
  destruct (lookup_lt_is_Some_2 q (S j) ltac:(lia)) as [z Hz].
  rewrite (nth_lookup_Some _ _ _ _ Hz) in Hne.
  pose proof (Hsorted j (S j) x z ltac:(lia) Hq Hz).
  pose proof (Hsorted (S j) k z y ltac:(lia) Hz Hy).
  lia.
Qed.

Lemma prKept_sorted i :
  (i <= length q)%nat -> StronglySorted Z.lt (prKept past q i).
Proof.
  induction i as [|i IH]; intros Hi; cbn [prKept]; [constructor|].
  destruct (Z.eqb _ _).
  - rewrite app_nil_r. apply IH. lia.
  - apply StronglySorted_snoc_lt; [apply IH; lia|].
    intros x Hx.
    destruct (lookup_lt_is_Some_2 q i ltac:(lia)) as [y Hy].
    rewrite (nth_lookup_Some _ _ _ _ Hy).
    eapply prKept_below; [| exact Hx | | exact Hy]; lia.
Qed.

(** Every slot looked at so far is kept, or equals the last slot looked at
    and that one equals what follows it. *)
Lemma prKept_cover i j x :
  (i <= length q)%nat -> (j < i)%nat -> q !! j = Some x ->
  x ∈ prKept past q i
  \/ (nth (i - 1) q past = x /\ x = nth i q past).
Proof.
  induction i as [|i IH]; intros Hi Hj Hx; [lia|].
  cbn [prKept]. replace (S i - 1)%nat with i by lia.
  destruct (lookup_lt_is_Some_2 q i ltac:(lia)) as [y Hy].
  rewrite (nth_lookup_Some _ _ _ _ Hy).
  assert (Hxy : x ∈ prKept past q i \/ x = y).
  { destruct (decide (j = i)) as [->|Hne]; [right; congruence|].
    destruct (IH ltac:(lia) ltac:(lia) Hx) as [H|[_ H]]; [left; exact H|].
    right. rewrite H. apply (nth_lookup_Some _ _ _ _ Hy). }
  destruct (Z.eqb_spec y (nth (S i) q past)) as [Heq|Hne].
  - rewrite app_nil_r. destruct Hxy as [H| ->]; [left; exact H|]. right. auto.
  - left. apply elem_of_app. destruct Hxy as [H| ->]; [left; exact H|].
    right. apply list_elem_of_singleton. reflexivity.
Qed.
End Kept.

(** What the duplicate removal leaves of a sorted array with at least one
    element: a strictly increasing list of elements of the array, holding
    every element of the array except, at worst, one value: the largest,
    and only when both out-of-array words equal it. *)
Lemma prDedup_spec past before q :
  index_sorted q -> (1 <= length q)%nat ->
  StronglySorted Z.lt (prDedup past before q)
  /\ (forall x, x ∈ prDedup past before q -> x ∈ q)
  /\ (forall x, x ∈ q -> x <> past \/ x <> before -> x ∈ prDedup past before q).
Proof.
  intros Hs Hn. rewrite prDedup_eq by exact Hn. cbv zeta.
  set (n := length q).
  destruct (lookup_lt_is_Some_2 q (n - 1) ltac:(lia)) as [m Hm].
  rewrite (nth_lookup_Some _ _ _ _ Hm).
  pose proof (prKept_sorted past q Hs n ltac:(lia)) as HsE.
  assert (HinE : forall x, x ∈ prKept past q n -> x ∈ q).
  { intros x Hx. destruct (prKept_elem past q n x ltac:(lia) Hx) as (j & _ & Hq & _).
    eapply list_elem_of_lookup_2. exact Hq. }
  assert (Hcov : forall x, x ∈ q -> x ∈ prKept past q n \/ (x = m /\ m = past)).
  { intros x Hx. apply list_elem_of_lookup_1 in Hx. destruct Hx as [j Hj].
    pose proof (lookup_lt_Some _ _ _ Hj) as Hjn.
    destruct (prKept_cover past q n j x ltac:(lia) ltac:(lia) Hj) as [H|[H1 H2]];
      [left; exact H|].
    right. fold n in H1. rewrite (nth_lookup_Some _ _ _ _ Hm) in H1.
    subst x. split; [reflexivity|].
    rewrite nth_lookup in H2. rewrite (lookup_ge_None_2 q n) in H2 by (unfold n; lia).
    exact H2. }
  destruct (Z.eqb_spec (last_or before (prKept past q n)) m) as [Heq|Hne].
  - split; [exact HsE|]. split; [exact HinE|].
    intros x Hx Hor. destruct (Hcov x Hx) as [H|[-> ->]]; [exact H|].
    (* the largest value was dropped by the scan: the array before the
       kept values must end in it *)
    unfold last_or in Heq. destruct (last (prKept past q n)) as [z|] eqn:El.
    + cbn in Heq. subst z. rewrite last_lookup in El.
      eapply list_elem_of_lookup_2. exact El.
    + cbn in Heq. destruct Hor as [H|H]; congruence.
  - assert (Hlt : forall x, x ∈ prKept past q n -> x < m).
    { intros x Hx. revert Hne Hx. clear HsE HinE Hcov.
      assert (Hn' : n = S (n - 1)) by (unfold n; lia).
      rewrite Hn'. cbn [prKept].
      rewrite (nth_lookup_Some _ _ _ _ Hm).
      destruct (Z.eqb m (nth (S (n - 1)) q past)).
      - rewrite app_nil_r. intros _ Hx.
        eapply (prKept_below past q Hs (n - 1) x (n - 1) m); [lia|exact Hx|lia|exact Hm].
      - intros Hne. exfalso. apply Hne. unfold last_or. rewrite last_snoc.
        reflexivity. }
    split; [apply StronglySorted_snoc_lt; assumption|]. split.
    + intros x Hx. apply elem_of_app in Hx. destruct Hx as [Hx|Hx]; [auto|].
      apply list_elem_of_singleton in Hx. subst x.
      eapply list_elem_of_lookup_2. exact Hm.
    + intros x Hx _. apply elem_of_app. destruct (Hcov x Hx) as [H|[-> _]];
        [left; exact H|]. right. apply list_elem_of_singleton. reflexivity.
Qed.

Lemma prQSortLe_le x y : prQSortLe x y <-> x <= y.
Proof.
  unfold prQSortLe, prQSortCompare.
  destruct (Z.gtb_spec x y), (Z.ltb_spec x y); cbn; lia.
Qed.

#[local] Instance prQSortLe_trans : Transitive prQSortLe.
Proof. intros x y z. rewrite !prQSortLe_le. lia. Qed.

#[local] Instance prQSortLe_total : Total prQSortLe.
Proof. intros x y. rewrite !prQSortLe_le. lia. Qed.

Lemma qsort_index_sorted l : index_sorted (qsort l).
Proof.
  apply StronglySorted_index_sorted.
  pose proof (StronglySorted_merge_sort prQSortLe l) as H. fold (qsort l) in H.
  induction H as [|a q Hq IH Ha]; constructor; [exact IH|].
  eapply Forall_impl; [exact Ha|]. intros x. apply prQSortLe_le.
Qed.

Lemma qsort_elem_of l x : x ∈ qsort l <-> x ∈ l.
Proof. unfold qsort. rewrite merge_sort_Permutation. reflexivity. Qed.

Lemma qsort_length l : length (qsort l) = length l.
Proof. unfold qsort. rewrite merge_sort_Permutation. reflexivity. Qed.

Lemma elem_of_prCells minX minY maxX maxY x y :
  (x, y) ∈ prCells (minX, minY, maxX, maxY)
  <-> minX <= x <= maxX /\ minY <= y <= maxY.
Proof.
  unfold prCells. rewrite list_elem_of_bind. split.
  - intros (y' & Hx & Hy). apply list_elem_of_bind in Hx.
    destruct Hx as (x' & Hxy & Hx). apply list_elem_of_singleton in Hxy.
    injection Hxy as -> ->. apply elem_of_seqZ in Hx, Hy. lia.
  - intros [Hx Hy]. exists y. split; [|apply elem_of_seqZ; lia].
    apply list_elem_of_bind. exists x. split; [apply list_elem_of_singleton; reflexivity|].
    apply elem_of_seqZ. lia.
Qed.

(** The candidates a query hands to its callback. *)
Lemma prQueryCandidates_spec past before sh b :
  let vs := prQueryCandidates past before sh b in
  StronglySorted Z.lt vs
  /\ (forall v, v ∈ vs ->
        exists k cell, k ∈ prCells b /\ entries sh !! k = Some cell /\ v ∈ cell)
  /\ (forall v k cell, k ∈ prCells b -> entries sh !! k = Some cell -> v ∈ cell ->
        v <> past \/ v <> before -> v ∈ vs).
Proof.
  unfold prQueryCandidates.
  set (collected := k ← prCells b; default [] (entries sh !! k)).
  assert (Hcol : forall v, v ∈ collected <->
            exists k cell, k ∈ prCells b /\ entries sh !! k = Some cell /\ v ∈ cell).
  { intros v. unfold collected. rewrite list_elem_of_bind. split.
    - intros (k & Hv & Hk). destruct (entries sh !! k) as [cell|] eqn:E; cbn in Hv.
      + eauto.
      + apply elem_of_nil in Hv. contradiction.
    - intros (k & cell & Hk & E & Hv). exists k. rewrite E. cbn. auto. }
  destruct (Z.ltb_spec 1 (Z.of_nat (length collected))) as [Hlen|Hlen]; cbv zeta.
  - destruct (prDedup_spec past before (qsort collected) (qsort_index_sorted _)
                ltac:(rewrite qsort_length; lia)) as (Hs & Hin & Hcov).
    split; [exact Hs|]. split.
    + intros v Hv. apply Hcol, qsort_elem_of, Hin, Hv.
    + intros v k cell Hk E Hv Hor. apply Hcov; [|exact Hor].
      apply qsort_elem_of, Hcol. eauto.
  - split.
    + destruct collected as [|a [|a' l]]; cbn [length] in Hlen; try lia;
        repeat constructor.
    + split; intros v; [apply Hcol|]. intros k cell Hk E Hv _. apply Hcol. eauto.
Qed.

(* --------------------------------------------------------------------- *)
(** ** broad-phase.c: insertion, clearing and queries together *)
(* --------------------------------------------------------------------- *)

Lemma fold_prRecordCall vs log :
  fold_left (fun ctx v => snd (prRecordCall v ctx)) vs log = log ++ vs.
Proof.
  revert log. induction vs as [|v vs IH]; intros log; cbn [fold_left].
  - rewrite app_nil_r. reflexivity.
  - rewrite IH. unfold prRecordCall. cbn. rewrite <- app_assoc. reflexivity.
Qed.

Lemma StronglySorted_lt_NoDup (l : list Z) : StronglySorted Z.lt l -> NoDup l.
Proof.
  induction 1 as [|a l Hl IH Ha]; constructor; [|exact IH].
  intros Hin. rewrite Forall_forall in Ha. specialize (Ha a Hin). lia.
Qed.

(** X1.  Whenever the four cell bounds of the query box are defined,
    [prQuerySpatialHash] returns, leaves the stored cells as they were, and
    calls the callback on a strictly increasing run of values: no value is
    reported twice. *)
Theorem prQuerySpatialHash_calls_increasing :
  forall (past before : Z) (sh : prSpatialHash) (aabb : prAABB) (b : Z * Z * Z * Z),
    prCellBounds (inverseCellSize sh) aabb = Some b ->
    exists calls,
      prQuerySpatialHash past before sh aabb prRecordCall []
      = Some (mkSpatialHash (cellSize sh) (inverseCellSize sh) calls (entries sh), calls)
      /\ StronglySorted Z.lt calls
      /\ NoDup calls.
Proof.
  intros past before sh aabb b Hb. unfold prQuerySpatialHash. rewrite Hb.
  cbn [mbind option_bind]. rewrite fold_prRecordCall. cbn [app].
  eexists. split; [reflexivity|].
  destruct (prQueryCandidates_spec past before sh b) as (Hs & _ & _).
  split; [exact Hs|]. apply StronglySorted_lt_NoDup, Hs.
Qed.

Lemma prQuerySpatialHash_calls_stored :
  forall (past before : Z) (sh sh' : prSpatialHash) (aabb : prAABB) (calls : list Z) (v : Z),
    prQuerySpatialHash past before sh aabb prRecordCall [] = Some (sh', calls) ->
    v ∈ calls ->
    exists b k cell,
      prCellBounds (inverseCellSize sh) aabb = Some b
      /\ k ∈ prCells b /\ entries sh !! k = Some cell /\ v ∈ cell.
Proof.
  intros past before sh sh' aabb calls v Hq Hv. unfold prQuerySpatialHash in Hq.
  destruct (prCellBounds (inverseCellSize sh) aabb) as [b|]; [|discriminate].
  cbn [mbind option_bind] in Hq. rewrite fold_prRecordCall in Hq. cbn [app] in Hq.
  injection Hq as _ <-.
  destruct (prQueryCandidates_spec past before sh b) as (_ & Hin & _).
  destruct (Hin v Hv) as (k & cell & ?). exists b, k, cell. auto.
Qed.

Lemma prQuerySpatialHash_reports_stored :
  forall (past before : Z) (sh : prSpatialHash) (aabb : prAABB) (b : Z * Z * Z * Z)
         (k : Z * Z) (cell : list Z) (v : Z),
    prCellBounds (inverseCellSize sh) aabb = Some b ->
    k ∈ prCells b -> entries sh !! k = Some cell -> v ∈ cell ->
    v <> past \/ v <> before ->
    exists sh' calls,
      prQuerySpatialHash past before sh aabb prRecordCall [] = Some (sh', calls)
      /\ v ∈ calls.
Proof.
  intros past before sh aabb b k cell v Hb Hk Hc Hv Hor.
  unfold prQuerySpatialHash. rewrite Hb. cbn [mbind option_bind].
  rewrite fold_prRecordCall. cbn [app]. eexists _, _. split; [reflexivity|].
  destruct (prQueryCandidates_spec past before sh b) as (_ & _ & Hcov). eauto.
Qed.

Lemma NoDup_prCells b : NoDup (prCells b).
Proof.
  destruct b as [[[minX minY] maxX] maxY]. unfold prCells.
  apply NoDup_bind; [| |apply NoDup_seqZ].
  - intros y1 y2 [x y] _ _ H1 H2.
    apply list_elem_of_bind in H1, H2.
    destruct H1 as (x1 & H1 & _), H2 as (x2 & H2 & _).
    apply list_elem_of_singleton in H1, H2. congruence.
  - intros y _. apply NoDup_bind; [| |apply NoDup_seqZ].
    + intros x1 x2 p _ _ H1 H2. apply list_elem_of_singleton in H1, H2. congruence.
    + intros x _. apply NoDup_singleton.
Qed.

Lemma prInsertCell_lookup v es key k :
  prInsertCell v es key !! k
  = if decide (key = k) then Some (default [] (es !! k) ++ [v]) else es !! k.
Proof.
  unfold prInsertCell. case_decide as Hd.
  - subst k. destruct (es !! key); rewrite lookup_insert_eq; reflexivity.
  - destruct (es !! key); rewrite lookup_insert_ne by exact Hd; reflexivity.
Qed.

Lemma fold_prInsertCell_lookup v cells es k :
  NoDup cells ->
  fold_left (prInsertCell v) cells es !! k
  = if decide (k ∈ cells) then Some (default [] (es !! k) ++ [v]) else es !! k.
Proof.
  intros Hnd. revert es. induction Hnd as [|key cells Hnotin Hnd IH]; intros es.
  - cbn. case_decide as Hd; [apply elem_of_nil in Hd; contradiction|reflexivity].
  - cbn [fold_left]. rewrite IH. rewrite prInsertCell_lookup.
    destruct (decide (key = k)) as [->|Hne].
    + rewrite decide_False by exact Hnotin.
      rewrite decide_True by left. reflexivity.
    + destruct (decide (k ∈ cells)) as [Hin|Hnin].
      * rewrite decide_True by (right; exact Hin). reflexivity.
      * rewrite decide_False; [reflexivity|].
        intros Hin. apply elem_of_cons in Hin. destruct Hin; [congruence|contradiction].
Qed.

Lemma prInsertToSpatialHash_cells :
  forall (sh sh' : prSpatialHash) (key : prAABB) (value : Z),
    prInsertToSpatialHash sh key value = Some sh' ->
    exists b,
      prCellBounds (inverseCellSize sh) key = Some b
      /\ inverseCellSize sh' = inverseCellSize sh
      /\ forall k,
           entries sh' !! k
           = if decide (k ∈ prCells b)
             then Some (default [] (entries sh !! k) ++ [value])
             else entries sh !! k.
Proof.
  intros sh sh' key value Hi. unfold prInsertToSpatialHash in Hi.
  destruct (prCellBounds (inverseCellSize sh) key) as [b|]; [|discriminate].
  cbn [mbind option_bind] in Hi. injection Hi as <-. exists b.
  split; [reflexivity|]. split; [reflexivity|].
  intros k. cbn [entries]. apply fold_prInsertCell_lookup, NoDup_prCells.
Qed.

Lemma bind_nil_const {A B} (l : list A) : l ≫= (fun _ => @nil B) = [].
Proof. induction l as [|a l IH]; [reflexivity|]. rewrite bind_cons, IH. reflexivity. Qed.

(** X3.  After [prClearSpatialHash] a query calls the callback for
    nothing, whatever the hash held before and whatever lies around the
    scratch array. *)
Theorem prClearSpatialHash_query_empty :
  forall (past before : Z) (sh : prSpatialHash) (aabb : prAABB) (b : Z * Z * Z * Z),
    prCellBounds (inverseCellSize sh) aabb = Some b ->
    exists sh',
      prQuerySpatialHash past before (prClearSpatialHash sh) aabb prRecordCall []
      = Some (sh', []).
Proof.
  intros past before sh aabb b Hb. unfold prQuerySpatialHash.
  cbn [prClearSpatialHash inverseCellSize]. rewrite Hb. cbn [mbind option_bind].
  rewrite fold_prRecordCall. cbn [app].
  assert (E : prQueryCandidates past before (prClearSpatialHash sh) b = []).
  { unfold prQueryCandidates. cbn [prClearSpatialHash entries].
    erewrite list_bind_ext with (g := fun _ => []); [| |reflexivity].
    - rewrite bind_nil_const. reflexivity.
    - intros k. rewrite lookup_fmap. destruct (entries sh !! k); reflexivity. }
  rewrite E. eauto.
Qed.

Lemma prInsertToSpatialHash_values sh sh' key value k x :
  prInsertToSpatialHash sh key value = Some sh' ->
  x ∈ cell_values sh' k
  <-> x ∈ cell_values sh k
      \/ (x = value /\ exists b, prCellBounds (inverseCellSize sh) key = Some b
                                 /\ k ∈ prCells b).
Proof.
  intros Hi. destruct (prInsertToSpatialHash_cells _ _ _ _ Hi) as (b & Hb & _ & Hk).
  unfold cell_values. rewrite Hk. case_decide as Hd; cbn.
  - rewrite elem_of_app, list_elem_of_singleton. split.
    + intros [H| ->]; [left; exact H|]. right. split; [reflexivity|]. eauto.
    + intros [H|[-> _]]; auto.
  - split; [auto|]. intros [H|[_ (b' & Hb' & Hin)]]; [exact H|].
    rewrite Hb in Hb'. injection Hb' as <-. contradiction.
Qed.

(** X2.  Whenever the cell bounds of the key are defined,
    [prInsertToSpatialHash] returns, and it appends the value exactly once
    to every cell of the key's rectangle of cells and leaves every other
    cell, the cell size and the scratch array alone. *)
Theorem prInsertToSpatialHash_appends_once :
  forall (sh : prSpatialHash) (key : prAABB) (value : Z) (b : Z * Z * Z * Z),
    prCellBounds (inverseCellSize sh) key = Some b ->
    exists sh',
      prInsertToSpatialHash sh key value = Some sh'
      /\ cellSize sh' = cellSize sh
      /\ inverseCellSize sh' = inverseCellSize sh
      /\ queryResult sh' = queryResult sh
      /\ forall k,
           cell_values sh' k
           = cell_values sh k ++ (if decide (k ∈ prCells b) then [value] else []).
Proof.
  intros sh key value b Hb. unfold prInsertToSpatialHash. rewrite Hb.
  cbn [mbind option_bind]. eexists. split; [reflexivity|].
  cbn [cellSize inverseCellSize queryResult].
  split; [reflexivity|]. split; [reflexivity|]. split; [reflexivity|].
  intros k. unfold cell_values. cbn [entries].
  rewrite fold_prInsertCell_lookup by apply NoDup_prCells.
  case_decide; cbn; [reflexivity|]. rewrite app_nil_r. reflexivity.
Qed.

Lemma prInsertAll_None items :
  fold_left (fun sh '(key, value) => sh ← sh; prInsertToSpatialHash sh key value)
            items None = None.
Proof. induction items as [|[key value] items IH]; [reflexivity|exact IH]. Qed.

Lemma prInsertAll_values items :
  forall sh sh' k x,
    prInsertAll sh items = Some sh' ->
    inverseCellSize sh' = inverseCellSize sh
    /\ (x ∈ cell_values sh' k
        <-> x ∈ cell_values sh k
            \/ exists key b, (key, x) ∈ items
                 /\ prCellBounds (inverseCellSize sh) key = Some b
                 /\ k ∈ prCells b).
Proof.
  induction items as [|[key value] items IH]; intros sh sh' k x Hall.
  - injection Hall as <-. split; [reflexivity|]. split; [auto|].
    intros [H|(key & b & Hin & _)]; [exact H|]. apply elem_of_nil in Hin. contradiction.
  - unfold prInsertAll in Hall. cbn [fold_left mbind option_bind] in Hall.
    destruct (prInsertToSpatialHash sh key value) as [sh1|] eqn:E1;
      [|rewrite prInsertAll_None in Hall; discriminate].
    destruct (IH sh1 sh' k x Hall) as [Hinv Hx].
    destruct (prInsertToSpatialHash_cells _ _ _ _ E1) as (b1 & Hb1 & Hinv1 & _).
    split; [congruence|]. rewrite Hx, Hinv1.
    rewrite (prInsertToSpatialHash_values _ _ _ _ k x E1). split.
    + intros [[H|[-> (b & Hb & Hk)]]|(key' & b & Hin & Hb & Hk)].
      * left. exact H.
      * right. exists key, b. split; [left|]. auto.
      * right. exists key', b. split; [right; exact Hin|]. auto.
    + intros [H|(key' & b & Hin & Hb & Hk)]; [left; left; exact H|].
      apply elem_of_cons in Hin. destruct Hin as [Heq|Hin].
      * injection Heq as -> ->. left. right. split; [reflexivity|]. eauto.
      * right. eauto.
Qed.

(** X4.  Completeness of the broad phase at cell level: after a run of
    insertions, a query with a box whose cells meet the cells of an
    inserted box reports the value stored with that box, unless both
    out-of-array words read by the duplicate scan equal that very value. *)
Theorem broad_phase_reports_inserted :
  forall (past before : Z) (sh sh' : prSpatialHash) (items : list (prAABB * Z))
         (A B : prAABB) (v : Z) (bA bB : Z * Z * Z * Z),
    prInsertAll sh items = Some sh' ->
    (A, v) ∈ items ->
    prCellBounds (inverseCellSize sh) A = Some bA ->
    prCellBounds (inverseCellSize sh) B = Some bB ->
    cells_meet bA bB ->
    v <> past \/ v <> before ->
    exists sh'' calls,
      prQuerySpatialHash past before sh' B prRecordCall [] = Some (sh'', calls)
      /\ v ∈ calls.
Proof.
  intros past before sh sh' items A B v bA bB Hall Hin HbA HbB (k & HkA & HkB) Hor.
  destruct (prInsertAll_values items sh sh' k v Hall) as [Hinv Hx].
  assert (Hv : v ∈ cell_values sh' k) by (apply Hx; right; eauto).
  unfold cell_values in Hv.
  destruct (entries sh' !! k) as [cell|] eqn:Ec; cbn in Hv;
    [|apply elem_of_nil in Hv; contradiction].
  eapply prQuerySpatialHash_reports_stored; eauto. congruence.
Qed.

(** X5.  Soundness of the broad phase at cell level: after clearing the
    hash and a run of insertions, every value a query reports was inserted
    with a box whose cells meet the cells of the query box. *)
Theorem broad_phase_reports_only_inserted :
  forall (past before : Z) (sh sh' sh'' : prSpatialHash) (items : list (prAABB * Z))
         (B : prAABB) (calls : list Z) (v : Z),
    prInsertAll (prClearSpatialHash sh) items = Some sh' ->
    prQuerySpatialHash past before sh' B prRecordCall [] = Some (sh'', calls) ->
    v ∈ calls ->
    exists A bA bB,
      (A, v) ∈ items
      /\ prCellBounds (inverseCellSize sh) A = Some bA
      /\ prCellBounds (inverseCellSize sh) B = Some bB
      /\ cells_meet bA bB.
Proof.
  intros past before sh sh' sh'' items B calls v Hall Hq Hv.
  destruct (prQuerySpatialHash_calls_stored _ _ _ _ _ _ _ Hq Hv)
    as (bB & k & cell & HbB & Hk & Hc & Hvc).
  destruct (prInsertAll_values items _ sh' k v Hall) as [Hinv Hx].
  cbn [prClearSpatialHash inverseCellSize] in Hinv, Hx.
  assert (Hcv : v ∈ cell_values sh' k) by (unfold cell_values; rewrite Hc; exact Hvc).
  apply Hx in Hcv. destruct Hcv as [Hold|(A & bA & Hin & HbA & HkA)].
  - unfold cell_values in Hold. cbn [prClearSpatialHash entries] in Hold.
    rewrite lookup_fmap in Hold. destruct (entries sh !! k); cbn in Hold;
      apply elem_of_nil in Hold; contradiction.
  - exists A, bA, bB. rewrite Hinv in HbB. repeat split; try assumption.
    exists k. auto.
Qed.

(* --------------------------------------------------------------------- *)
(** ** rigid-body.c: invariants of runs of operations *)
(* --------------------------------------------------------------------- *)

Lemma heap_all_on_body (P : prBody -> Prop) f p h :
  (forall b, P b -> P (f b)) -> heap_all P h -> heap_all P (on_body f p h).
Proof.
  intros Hf Hh a b. destruct p as [a0|]; cbn [on_body]; [|apply Hh].
  rewrite lookup_alter. case_decide as Hd; [|apply Hh].
  subst a. destruct (h !! a0) as [b0|] eqn:E; cbn; [|discriminate].
  intros [= <-]. apply Hf. eapply Hh. exact E.
Qed.

Lemma heap_all_alter (P : prBody -> Prop) f (a : addr) (h : heap) :
  (forall b, P b -> P (f b)) -> heap_all P h -> heap_all P (alter f a h).
Proof. apply (heap_all_on_body P f (Some a) h). Qed.

Lemma heap_all_insert (P : prBody -> Prop) a b h :
  P b -> heap_all P h -> heap_all P (<[a := b]> h).
Proof.
  intros Hb Hh a' b'. rewrite lookup_insert. case_decide; [intros [= <-]; exact Hb|apply Hh].
Qed.

Lemma heap_all_delete (P : prBody -> Prop) a h :
  heap_all P h -> heap_all P (delete a h).
Proof.
  intros Hh a' b'. rewrite lookup_delete. case_decide; [discriminate|apply Hh].
Qed.

Section BodyInvariants.
Context {L : Libm}.

Lemma prComputeBodyMass_type b : b_type (prComputeBodyMass b) = b_type b.
Proof.
  unfold prComputeBodyMass. destruct (b_type b) eqn:E; try (cbn; exact E).
  destruct (Z.eqb _ 0), (Z.eqb _ 0); cbn; exact E.
Qed.

Lemma prComputeBodyMass_pinned b : static_pinned (prComputeBodyMass b).
Proof.
  intros Ht. rewrite prComputeBodyMass_type in Ht.
  unfold prComputeBodyMass. rewrite Ht. cbn. auto.
Qed.

Lemma prComputeBodyMass_massless b : massless_unless_dynamic (prComputeBodyMass b).
Proof.
  intros Ht. rewrite prComputeBodyMass_type in Ht.
  unfold prComputeBodyMass. destruct (b_type b); try contradiction; cbn; auto.
Qed.

Lemma F32_le_zero_zero : F32.le F32.zero F32.zero = true.
Proof. reflexivity. Qed.

Lemma keeps_motion_pinned f b : keeps_motion f -> static_pinned b -> static_pinned (f b).
Proof.
  intros Hf Hb Ht. destruct (Hf b) as (Hty & _ & Him & _ & _ & Hv).
  rewrite Hty in Ht. destruct (Hb Ht) as (Hv0 & Hw0 & Hm0).
  destruct (Hv Hm0) as [Hv' Hw']. rewrite Hv', Hw', Him. auto.
Qed.

Lemma keeps_motion_massless f b :
  keeps_motion f -> massless_unless_dynamic b -> massless_unless_dynamic (f b).
Proof.
  intros Hf Hb Ht. destruct (Hf b) as (Hty & H1 & H2 & H3 & H4 & _).
  rewrite Hty in Ht. rewrite H1, H2, H3, H4. apply Hb, Ht.
Qed.

Ltac keeps :=
  intros b; repeat split; try reflexivity; try (intros; split; reflexivity).

Lemma keeps_prSetBodyPosition p : keeps_motion (prSetBodyPosition p).
Proof. keeps. Qed.
Lemma keeps_prSetBodyAngle a : keeps_motion (prSetBodyAngle a).
Proof. keeps. Qed.
Lemma keeps_prSetBodyGravityScale s : keeps_motion (prSetBodyGravityScale s).
Proof. keeps. Qed.
Lemma keeps_prSetBodyUserData c : keeps_motion (prSetBodyUserData c).
Proof. keeps. Qed.
Lemma keeps_prClearBodyForces : keeps_motion prClearBodyForces.
Proof. keeps. Qed.
Lemma keeps_prApplyForceToBody pt f : keeps_motion (prApplyForceToBody pt f).
Proof.
  intros b. unfold prApplyForceToBody.
  destruct (F32.le (inverseMass (mtn b)) F32.zero); repeat split; auto.
Qed.
Lemma keeps_prApplyGravityToBody g : keeps_motion (prApplyGravityToBody g).
Proof.
  intros b. unfold prApplyGravityToBody.
  destruct (F32.le (mass (mtn b)) F32.zero); repeat split; auto.
Qed.
Lemma keeps_prApplyImpulseToBody pt j : keeps_motion (prApplyImpulseToBody pt j).
Proof.
  intros b. unfold prApplyImpulseToBody.
  destruct (F32.le (inverseMass (mtn b)) F32.zero) eqn:E;
    repeat split; try reflexivity; 
    match goal with H : inverseMass _ = F32.zero |- _ => rewrite H in E; discriminate end.
Qed.
Lemma keeps_prIntegrateForBodyVelocity dt : keeps_motion (prIntegrateForBodyVelocity dt).
Proof.
  intros b. unfold prIntegrateForBodyVelocity.
  destruct (F32.le (inverseMass (mtn b)) F32.zero) eqn:E; cbn [orb];
    [repeat split; auto|].
  destruct (F32.le dt F32.zero); repeat split; try reflexivity;

    match goal with H : inverseMass _ = F32.zero |- _ => rewrite H in E; discriminate end.
Qed.
Lemma keeps_prIntegrateForBodyPosition dt : keeps_motion (prIntegrateForBodyPosition dt).
Proof.
  intros b. unfold prIntegrateForBodyPosition.
  destruct (bodyType_eqb (b_type b) PR_BODY_STATIC || F32.le dt F32.zero)%bool;
    repeat split; auto.
Qed.
End BodyInvariants.

Lemma static_pinned_stable : motion_stable static_pinned.
Proof. intros f b. apply keeps_motion_pinned. Qed.

Lemma massless_stable : motion_stable massless_unless_dynamic.
Proof. intros f b. apply keeps_motion_massless. Qed.

Lemma prZeroVelocity_pinned b : static_pinned b -> static_pinned (prZeroVelocity b).
Proof. intros Hb Ht. destruct (Hb Ht) as (_ & _ & Hm). cbn. auto. Qed.

Lemma prZeroVelocity_massless b :
  massless_unless_dynamic b -> massless_unless_dynamic (prZeroVelocity b).
Proof. intros Hb Ht. exact (Hb Ht). Qed.

Section SolverInvariants.
Variable P : prBody -> Prop.
Hypothesis Pstable : motion_stable P.
Hypothesis Pzero : forall b, P b -> P (prZeroVelocity b).

Lemma frResolveContact_heap_all a1 a2 inverseDt st i h' c' :
  match st with Some (h, _) => heap_all P h | None => True end ->
  frResolveContact a1 a2 inverseDt st i = Some (h', c') ->
  heap_all P h'.
Proof.
  intros Hh Hr. destruct st as [[h c]|]; [|discriminate].
  unfold frResolveContact in Hr. cbn [mbind option_bind] in Hr.
  destruct (Z.ltb i 0 || Z.ltb 1 i)%bool; [discriminate|].
  destruct (h !! a1) as [b1|]; [|discriminate].
  destruct (h !! a2) as [b2|]; [|discriminate].
  cbn [mbind option_bind] in Hr.
  destruct (F32.gt _ F32.zero); [injection Hr as <- _; exact Hh|].
  match type of Hr with
  | context [on_body ?f2 (Some a2) (on_body ?f1 (Some a1) h)] =>
      assert (H1 : heap_all P (on_body f2 (Some a2) (on_body f1 (Some a1) h)))
        by (apply heap_all_on_body;
            [intros b; apply Pstable, keeps_prApplyImpulseToBody|];
            apply heap_all_on_body;
            [intros b; apply Pstable, keeps_prApplyImpulseToBody|exact Hh]);
      set (h1 := on_body f2 (Some a2) (on_body f1 (Some a1) h)) in *
  end.
  destruct (h1 !! a1) as [b1'|]; [|discriminate].
  destruct (h1 !! a2) as [b2'|]; [|discriminate].
  cbn [mbind option_bind] in Hr. injection Hr as <- _.
  apply heap_all_alter; [intros b; apply Pstable, keeps_prApplyImpulseToBody|].
  apply heap_all_alter; [intros b; apply Pstable, keeps_prApplyImpulseToBody|].
  exact H1.
Qed.

Lemma frResolveContacts_heap_all a1 a2 inverseDt l :
  forall st h' c',
    match st with Some (h, _) => heap_all P h | None => True end ->
    fold_left (frResolveContact a1 a2 inverseDt) l st = Some (h', c') ->
    heap_all P h'.
Proof.
  induction l as [|i l IH]; intros st h' c' Hst Hf; cbn [fold_left] in Hf.
  - subst st. exact Hst.
  - eapply IH; [|exact Hf].
    destruct (frResolveContact a1 a2 inverseDt st i) as [[h1 c1]|] eqn:E; [|exact I].
    eapply frResolveContact_heap_all; [exact Hst|exact E].
Qed.

Lemma frResolveCollision_heap_all b1 b2 c inverseDt h h' c' :
  heap_all P h ->
  frResolveCollision b1 b2 c inverseDt h = Some (h', c') ->
  heap_all P h'.
Proof.
  intros Hh Hr. unfold frResolveCollision in Hr.
  destruct b1 as [a1|], b2 as [a2|], c as [c|]; try (injection Hr as <- _; exact Hh).
  destruct (h !! a1) as [body1|]; [|discriminate].
  destruct (h !! a2) as [body2|]; [|discriminate].
  cbn [mbind option_bind] in Hr.
  destruct (F32.le _ F32.zero).
  - injection Hr as <- _.
    destruct (bodyType_eqb _ PR_BODY_STATIC);
      destruct (bodyType_eqb _ PR_BODY_STATIC);
      repeat (first [apply heap_all_on_body | apply heap_all_alter]; [exact Pzero|]);
      exact Hh.
  - destruct (fold_left _ _ _) as [[h1 c1]|] eqn:E; [|discriminate].
    cbn [mbind option_bind] in Hr. injection Hr as <- _.
    eapply frResolveContacts_heap_all; [|exact E]. exact Hh.
Qed.
End SolverInvariants.

Section OpsInvariants.
Context {L : Libm}.

Lemma prBody_new_pinned type position : static_pinned (prBody_new type position).
Proof. intros _. cbn. auto. Qed.

Lemma prBody_new_massless type position :
  massless_unless_dynamic (prBody_new type position).
Proof. intros _. cbn. auto. Qed.

Lemma prCreateBody_heap_all (P : prBody -> Prop) type position h :
  (forall t p, P (prBody_new t p)) ->
  heap_all P h -> heap_all P (snd (prCreateBody type position h)).
Proof.
  intros Hnew Hh. unfold prCreateBody.
  destruct type; cbn [snd]; try exact Hh; apply heap_all_insert; auto.
Qed.

(** One operation keeps all static bodies pinned unless it is one of the
    two velocity setters. *)
Lemma prRunOp_pinned op h h' :
  is_velocity_setter op = false ->
  heap_all static_pinned h -> prRunOp op h = Some h' -> heap_all static_pinned h'.
Proof.
  intros Hop Hh Hr.
  destruct op; cbn [prRunOp is_velocity_setter] in *; try discriminate;
    try (injection Hr as <-).
  - apply prCreateBody_heap_all; [apply prBody_new_pinned|exact Hh].
  - unfold prCreateBodyFromShape.
    match goal with
    | |- context [prCreateBody ?t ?p h] =>
        pose proof (prCreateBody_heap_all static_pinned t p h prBody_new_pinned Hh) as Hc;
        destruct (prCreateBody t p h) as [r h1]
    end.
    cbn [snd] in *.
    apply heap_all_on_body; [|exact Hc]. intros b0 _. apply prComputeBodyMass_pinned.
  - destruct b; [apply heap_all_delete|]; exact Hh.
  - apply heap_all_on_body; [|exact Hh]. intros b0 _. apply prComputeBodyMass_pinned.
  - apply heap_all_on_body; [|exact Hh]. intros b0 _. apply prComputeBodyMass_pinned.
  - apply heap_all_on_body; [|exact Hh]. intros b0 _. apply prComputeBodyMass_pinned.
  - apply heap_all_on_body; [|exact Hh].
    intros b0. apply keeps_motion_pinned, keeps_prSetBodyPosition.
  - apply heap_all_on_body; [|exact Hh].
    intros b0. apply keeps_motion_pinned, keeps_prSetBodyAngle.
  - apply heap_all_on_body; [|exact Hh].
    intros b0. apply keeps_motion_pinned, keeps_prSetBodyGravityScale.
  - apply heap_all_on_body; [|exact Hh].
    intros b0. apply keeps_motion_pinned, keeps_prSetBodyUserData.
  - apply heap_all_on_body; [|exact Hh].
    intros b0. apply keeps_motion_pinned, keeps_prClearBodyForces.
  - apply heap_all_on_body; [|exact Hh].
    intros b0. apply keeps_motion_pinned, keeps_prApplyForceToBody.
  - apply heap_all_on_body; [|exact Hh].
    intros b0. apply keeps_motion_pinned, keeps_prApplyGravityToBody.
  - apply heap_all_on_body; [|exact Hh].
    intros b0. apply keeps_motion_pinned, keeps_prApplyImpulseToBody.
  - apply heap_all_on_body; [|exact Hh].
    intros b0. apply keeps_motion_pinned, keeps_prIntegrateForBodyVelocity.
  - apply heap_all_on_body; [|exact Hh].
    intros b0. apply keeps_motion_pinned, keeps_prIntegrateForBodyPosition.
  - destruct (frResolveCollision b1 b2 c inverseDt h) as [[h1 c1]|] eqn:E;
      [|discriminate].
    cbn in Hr. injection Hr as <-.
    eapply (frResolveCollision_heap_all static_pinned static_pinned_stable
              prZeroVelocity_pinned); [exact Hh|exact E].
Qed.

Lemma prRunOps_None ops :
  fold_left (fun h op => h ← h; prRunOp op h) ops None = None.
Proof. induction ops as [|op ops IH]; [reflexivity|exact IH]. Qed.

(** X6.  Starting from no bodies, after any run of the public body
    operations that does not call [prSetBodyVelocity] or
    [prSetBodyAngularVelocity], every static body has zero linear and zero
    angular velocity. *)
Theorem static_bodies_stay_pinned :
  forall (ops : list prBodyOp) (h' : heap),
    forallb (fun op => negb (is_velocity_setter op)) ops = true ->
    prRunOps ops ∅ = Some h' ->
    forall (a : addr) (b : prBody),
      h' !! a = Some b -> b_type b = PR_BODY_STATIC ->
      velocity (mtn b) = mkVector2 F32.zero F32.zero
      /\ angularVelocity (mtn b) = F32.zero.
Proof.
  intros ops h' Hops Hrun.
  assert (Hall : heap_all static_pinned h').
  { assert (H0 : heap_all static_pinned (∅ : heap))
      by (intros a b Hab; rewrite lookup_empty in Hab; discriminate).
    revert Hops Hrun H0. unfold prRunOps. generalize (∅ : heap).
    induction ops as [|op ops IH]; intros h Hops Hrun Hh; cbn in Hops, Hrun.
    - injection Hrun as <-. exact Hh.
    - apply andb_true_iff in Hops. destruct Hops as [Hop Hops].
      apply negb_true_iff in Hop.
      destruct (prRunOp op h) as [h1|] eqn:E;
        [|rewrite prRunOps_None in Hrun; discriminate].
      eapply (IH h1 Hops Hrun). eapply prRunOp_pinned; eauto. }
  intros a b Hab Ht. destruct (Hall a b Hab Ht) as (Hv & Hw & _). auto.
Qed.
End OpsInvariants.

Section MoreOpsInvariants.
Context {L : Libm}.

Lemma massless_same_fields f :
  (forall b, b_type (f b) = b_type b
             /\ mass (mtn (f b)) = mass (mtn b)
             /\ inverseMass (mtn (f b)) = inverseMass (mtn b)
             /\ inertia (mtn (f b)) = inertia (mtn b)
             /\ inverseInertia (mtn (f b)) = inverseInertia (mtn b)) ->
  forall b, massless_unless_dynamic b -> massless_unless_dynamic (f b).
Proof.
  intros Hf b Hb Ht. destruct (Hf b) as (Hty & H1 & H2 & H3 & H4).
  rewrite Hty in Ht. rewrite H1, H2, H3, H4. apply Hb, Ht.
Qed.

Lemma prRunOp_massless op h h' :
  heap_all massless_unless_dynamic h -> prRunOp op h = Some h' ->
  heap_all massless_unless_dynamic h'.
Proof.
  intros Hh Hr.
  destruct op; cbn [prRunOp] in *; try (injection Hr as <-).
  - apply prCreateBody_heap_all; [apply prBody_new_massless|exact Hh].
  - unfold prCreateBodyFromShape.
    match goal with
    | |- context [prCreateBody ?t ?p h] =>
        pose proof (prCreateBody_heap_all massless_unless_dynamic t p h prBody_new_massless Hh) as Hc;
        destruct (prCreateBody t p h) as [r h1]
    end.
    cbn [snd] in *.
    apply heap_all_on_body; [|exact Hc]. intros b0 _. apply prComputeBodyMass_massless.
  - destruct b; [apply heap_all_delete|]; exact Hh.
  - apply heap_all_on_body; [|exact Hh]. intros b0 _. apply prComputeBodyMass_massless.
  - apply heap_all_on_body; [|exact Hh]. intros b0 _. apply prComputeBodyMass_massless.
  - apply heap_all_on_body; [|exact Hh]. intros b0 _. apply prComputeBodyMass_massless.
  - apply heap_all_on_body; [|exact Hh].
    intros b0. apply keeps_motion_massless, keeps_prSetBodyPosition.
  - apply heap_all_on_body; [|exact Hh].
    intros b0. apply keeps_motion_massless, keeps_prSetBodyAngle.
  - apply heap_all_on_body; [|exact Hh].
    intros b0. apply keeps_motion_massless, keeps_prSetBodyGravityScale.
  - apply heap_all_on_body; [|exact Hh].
    apply massless_same_fields. intros b0. repeat split; reflexivity.
  - apply heap_all_on_body; [|exact Hh].
    apply massless_same_fields. intros b0. repeat split; reflexivity.
  - apply heap_all_on_body; [|exact Hh].
    intros b0. apply keeps_motion_massless, keeps_prSetBodyUserData.
  - apply heap_all_on_body; [|exact Hh].
    intros b0. apply keeps_motion_massless, keeps_prClearBodyForces.
  - apply heap_all_on_body; [|exact Hh].
    intros b0. apply keeps_motion_massless, keeps_prApplyForceToBody.
  - apply heap_all_on_body; [|exact Hh].
    intros b0. apply keeps_motion_massless, keeps_prApplyGravityToBody.
  - apply heap_all_on_body; [|exact Hh].
    intros b0. apply keeps_motion_massless, keeps_prApplyImpulseToBody.
  - apply heap_all_on_body; [|exact Hh].
    intros b0. apply keeps_motion_massless, keeps_prIntegrateForBodyVelocity.
  - apply heap_all_on_body; [|exact Hh].
    intros b0. apply keeps_motion_massless, keeps_prIntegrateForBodyPosition.
  - destruct (frResolveCollision b1 b2 c inverseDt h) as [[h1 c1]|] eqn:E;
      [|discriminate].
    cbn in Hr. injection Hr as <-.
    eapply (frResolveCollision_heap_all massless_unless_dynamic massless_stable
              prZeroVelocity_massless); [exact Hh|exact E].
Qed.

(** X7.  Starting from no bodies, after any run of the public body
    operations whatsoever, a body that is not dynamic has zero inverse
    mass and zero inverse inertia, and applying an impulse, a force or
    gravity to it, or integrating its velocity, leaves it exactly as it
    is. *)
Theorem nondynamic_bodies_unmoved_by_impulses :
  forall (ops : list prBodyOp) (h' : heap),
    prRunOps ops ∅ = Some h' ->
    forall (a : addr) (b : prBody),
      h' !! a = Some b -> b_type b <> PR_BODY_DYNAMIC ->
      inverseMass (mtn b) = F32.zero
      /\ inverseInertia (mtn b) = F32.zero
      /\ (forall pt j, prApplyImpulseToBody pt j b = b)
      /\ (forall pt f, prApplyForceToBody pt f b = b)
      /\ (forall g, prApplyGravityToBody g b = b)
      /\ (forall dt, prIntegrateForBodyVelocity dt b = b).
Proof.
  intros ops h' Hrun.
  assert (Hall : heap_all massless_unless_dynamic h').
  { assert (H0 : heap_all massless_unless_dynamic (∅ : heap))
      by (intros a b Hab; rewrite lookup_empty in Hab; discriminate).
    revert Hrun H0. unfold prRunOps. generalize (∅ : heap).
    induction ops as [|op ops IH]; intros h Hrun Hh; cbn in Hrun.
    - injection Hrun as <-. exact Hh.
    - destruct (prRunOp op h) as [h1|] eqn:E;
        [|rewrite prRunOps_None in Hrun; discriminate].
      eapply (IH h1 Hrun). eapply prRunOp_massless; eauto. }
  intros a b Hab Ht. destruct (Hall a b Hab Ht) as (Hm & Him & Hi & Hii).
  split; [exact Him|]. split; [exact Hii|].
  unfold prApplyImpulseToBody, prApplyForceToBody, prApplyGravityToBody,
    prIntegrateForBodyVelocity.
  rewrite Him, Hm. repeat split; reflexivity.
Qed.
End MoreOpsInvariants.

(* --------------------------------------------------------------------- *)
(** ** world.c: what a step keeps and what it resets *)
(* --------------------------------------------------------------------- *)

Section WorldStep.
Context {L : Libm} {X : RigidBodyExtern}.

Lemma prPreStepWorld_frame oob h w w' :
  prPreStepWorld oob h w = Some w' -> same_frame w w'.
Proof.
  unfold prPreStepWorld. destruct (hash w) as [sh|].
  - destruct (fold_left _ _ (Some sh)) as [sh1|]; [|discriminate].
    cbn [mbind option_bind].
    destruct (fold_left _ _ (Some (sh1, w_cache w))) as [[sh2 cache]|]; [|discriminate].
    cbn [mbind option_bind]. intros [= <-]. repeat split.
  - intros [= <-]. repeat split.
Qed.

(** X8.  With no collision callback installed, a step that returns
    leaves the body array, the gravity vector, the collision handler, the
    accumulator and the timestamp of the world as they were. *)
Theorem prStepWorld_frame :
  forall (oob : Z -> Z * Z) (dt : float) (h h' : heap) (w w' : prWorld),
    preStep (handler w) = None -> postStep (handler w) = None ->
    prStepWorld oob dt (h, w) = Some (h', w') ->
    bodies w' = bodies w /\ gravity w' = gravity w /\ handler w' = handler w
    /\ accumulator w' = accumulator w /\ timestamp w' = timestamp w.
Proof.
  intros oob dt h h' w w' _ _ Hs. unfold prStepWorld in Hs.
  destruct (F32.le dt F32.zero); [injection Hs as <- <-; repeat split|].
  destruct (prPreStepWorld oob h w) as [w1|] eqn:E1; [|discriminate].
  apply prPreStepWorld_frame in E1. destruct E1 as (Hb & Hg & Hh & Ha & Ht).
  cbn [mbind option_bind] in Hs.
  destruct (prForEachEntry _ (w_cache w1) h) as [[h1 c1]|]; [|discriminate].
  cbn [mbind option_bind] in Hs.
  destruct (prForEachEntry _ c1 _) as [[h2 c2]|]; [|discriminate].
  cbn [mbind option_bind] in Hs.
  destruct (fold_left _ _ (Some (h2, c2))) as [[h3 c3]|]; [|discriminate].
  cbn [mbind option_bind] in Hs.
  destruct (prForEachEntry _ c3 _) as [[h4 c4]|]; [|discriminate].
  cbn [mbind option_bind] in Hs. injection Hs as <- <-.
  cbn. rewrite Hb, Hg, Hh, Ha, Ht. repeat split.
Qed.

Lemma prForEachBody_keeps (Q : prBody -> Prop) f bs :
  (forall b, Q b -> Q (f b)) ->
  forall h a,
    (forall b, h !! a = Some b -> Q b) ->
    forall b, prForEachBody f bs h !! a = Some b -> Q b.
Proof.
  intros Hf. unfold prForEachBody.
  induction bs as [|a0 bs IH]; intros h a Hh b Hb; cbn [fold_left] in Hb.
  - apply Hh, Hb.
  - eapply IH; [|exact Hb]. intros b0. cbn [on_body]. rewrite lookup_alter.
    case_decide as Hd; [|apply Hh]. subst a.
    destruct (h !! a0) as [b1|] eqn:E; cbn; [|discriminate].
    intros [= <-]. apply Hf, Hh. reflexivity.
Qed.

Lemma prForEachBody_all (Q : prBody -> Prop) f bs :
  (forall b, Q (f b)) ->
  forall h a b, a ∈ bs -> prForEachBody f bs h !! a = Some b -> Q b.
Proof.
  intros Hf. unfold prForEachBody.
  induction bs as [|a0 bs IH]; intros h a b Hin Hb; cbn [fold_left] in Hb.
  - apply elem_of_nil in Hin. contradiction.
  - destruct (decide (a = a0)) as [->|Hne].
    + eapply (prForEachBody_keeps Q f bs (fun b0 _ => Hf b0)); [|exact Hb].
      intros b0. cbn [on_body]. rewrite lookup_alter, decide_True by reflexivity.
      destruct (h !! a0); cbn; [|discriminate]. intros [= <-]. apply Hf.
    + apply elem_of_cons in Hin. destruct Hin as [|Hin]; [contradiction|].
      eapply IH; eauto.
Qed.

(** X9.  After a step with a positive [dt], every body of the world that
    is still live has zero accumulated force and torque, and the spatial
    hash of the world is empty: every cell and the scratch array. *)
Theorem prStepWorld_clears_forces :
  forall (oob : Z -> Z * Z) (dt : float) (h h' : heap) (w w' : prWorld),
    F32.le dt F32.zero = false ->
    prStepWorld oob dt (h, w) = Some (h', w') ->
    (forall (a : addr) (b : prBody),
        a ∈ bodies w -> h' !! a = Some b ->
        force (mtn b) = mkVector2 F32.zero F32.zero /\ torque (mtn b) = F32.zero)
    /\ (forall (sh' : prSpatialHash) (k : Z * Z),
          hash w' = Some sh' -> queryResult sh' = [] /\ cell_values sh' k = []).
Proof.
  intros oob dt h h' w w' Hdt Hs. unfold prStepWorld in Hs.
  rewrite Hdt in Hs.
  destruct (prPreStepWorld oob h w) as [w1|] eqn:E1; [|discriminate].
  apply prPreStepWorld_frame in E1. destruct E1 as (Hbs & _).
  cbn [mbind option_bind] in Hs.
  destruct (prForEachEntry _ (w_cache w1) h) as [[h1 c1]|]; [|discriminate].
  cbn [mbind option_bind] in Hs.
  destruct (prForEachEntry _ c1 _) as [[h2 c2]|]; [|discriminate].
  cbn [mbind option_bind] in Hs.
  destruct (fold_left _ _ (Some (h2, c2))) as [[h3 c3]|]; [|discriminate].
  cbn [mbind option_bind] in Hs.
  destruct (prForEachEntry _ c3 _) as [[h4 c4]|]; [|discriminate].
  cbn [mbind option_bind] in Hs. injection Hs as <- <-. split.
  - intros a b Hin Hb. cbn [prPostStepWorld fst with_cache_w bodies] in Hb.
    rewrite <- Hbs in Hin.
    eapply (prForEachBody_all
              (fun b => force (mtn b) = mkVector2 F32.zero F32.zero
                        /\ torque (mtn b) = F32.zero));
      [|exact Hin|exact Hb].
    intros b0. split; reflexivity.
  - intros sh' k Hsh. cbn [hash with_cache_w] in Hsh.
    destruct (hash w1) as [sh1|]; [|discriminate]. injection Hsh as <-.
    split; [reflexivity|]. unfold cell_values. cbn [prClearSpatialHash entries].
    rewrite lookup_fmap. destruct (entries sh1 !! k); reflexivity.
Qed.

End WorldStep.

(* --------------------------------------------------------------------- *)
(** ** collision.c: what the narrow phase writes to a manifold *)
(* --------------------------------------------------------------------- *)

Section NarrowPhase.
Context {L : Libm}.

Lemma prStoreCircleContact_spec c tx1 tx2 d pointOf dep :
  c_count (prStoreCircleContact c tx1 tx2 d pointOf dep) = 1
  /\ manifold_kept c (prStoreCircleContact c tx1 tx2 d pointOf dep).
Proof. unfold prStoreCircleContact, manifold_kept. cbn. auto. Qed.

Lemma prComputeCollisionCircles_ok s1 tx1 s2 tx2 c :
  narrow_ok c (prComputeCollisionCircles s1 tx1 s2 tx2 (Some c)).
Proof.
  unfold prComputeCollisionCircles.
  destruct (F32.lt _ _); cbn; [reflexivity|].
  unfold manifold_kept. cbn. auto.
Qed.

Ltac store_case :=
  cbn [fmap option_fmap option_map narrow_ok];
  match goal with
  | |- (c_count (prStoreCircleContact ?c ?t1 ?t2 ?d ?p ?e) = 1 \/ _) /\ _ =>
      destruct (prStoreCircleContact_spec c t1 t2 d p e) as [H1 H2];
      split; [left; exact H1|exact H2]
  end.

Lemma prComputeCollisionCirclePoly_ok s1 tx1 s2 tx2 c :
  narrow_ok c (prComputeCollisionCirclePoly s1 tx1 s2 tx2 (Some c)).
Proof.
  unfold prComputeCollisionCirclePoly.
  destruct (shapeType_eqb (s_type s1) PR_SHAPE_CIRCLE);
    (destruct (fold_left _ _ _) as [[maxDot maxIndex]|]; [|reflexivity];
     destruct (Z.ltb maxIndex 0); [reflexivity|];
     destruct (F32.lt maxDot F32.zero); [store_case|];
     cbv zeta;
     destruct (_ || _)%bool;
     [destruct (F32.gt _ _); [reflexivity|]; store_case | store_case]).
Qed.

Lemma prComputeCollisionPolys_ok s1 tx1 s2 tx2 c :
  narrow_ok c (prComputeCollisionPolys s1 tx1 s2 tx2 (Some c)).
Proof.
  unfold prComputeCollisionPolys.
  destruct (prGetSeparatingAxisIndex s1 tx1 s2 tx2 F32.FLT_MAX) as [index1 maxDepth1].
  destruct (F32.ge maxDepth1 F32.zero); [reflexivity|].
  destruct (prGetSeparatingAxisIndex s2 tx2 s1 tx1 F32.FLT_MAX) as [index2 maxDepth2].
  destruct (F32.ge maxDepth2 F32.zero); [reflexivity|].
  cbv zeta.
  destruct (F32.gt (F32.abs _) (F32.abs _));
    (destruct (prClipEdge _ _ _) as [[|] incEdge1]; cbn [negb]; [|reflexivity];
     destruct (prClipEdge _ _ _) as [[|] incEdge2]; cbn [negb]; [|reflexivity];
     destruct (F32.lt _ F32.zero);
     [unfold narrow_ok, manifold_kept; cbn; auto|];
     destruct (F32.lt _ F32.zero); unfold narrow_ok, manifold_kept; cbn; auto).
Qed.

(** X10.  When [prComputeCollision] reports a collision on a non-null
    manifold, the manifold has one or two contacts, and its friction, its
    restitution and the impulse cache of contact 0 are the ones handed in;
    when it reports none, the manifold is untouched. *)
Theorem prComputeCollision_manifold :
  forall (s1 s2 : option prShape) (tx1 tx2 : prTransform) (c : prCollision),
    match prComputeCollision s1 tx1 s2 tx2 (Some c) with
    | (true, Some c') =>
        (c_count c' = 1 \/ c_count c' = 2)
        /\ c_friction c' = c_friction c
        /\ c_restitution c' = c_restitution c
        /\ cache (fst (contacts c')) = cache (fst (contacts c))
    | (false, Some c') => c' = c
    | (_, None) => False
    end.
Proof.
  intros s1 s2 tx1 tx2 c.
  change (narrow_ok c (prComputeCollision s1 tx1 s2 tx2 (Some c))).
  unfold prComputeCollision.
  destruct s1 as [sh1|], s2 as [sh2|]; try reflexivity.
  destruct (s_type sh1), (s_type sh2); try reflexivity.
  - apply prComputeCollisionCircles_ok.
  - apply prComputeCollisionCirclePoly_ok.
  - apply prComputeCollisionCirclePoly_ok.
  - apply prComputeCollisionPolys_ok.
Qed.
End NarrowPhase.

(* --------------------------------------------------------------------- *)
(** ** collision.c and geometry.c: reported ray hits, hull vertices *)
(* --------------------------------------------------------------------- *)

Lemma F32_ge_zero_not_lt (x : float) :
  F32.ge x F32.zero = true -> F32.lt x F32.zero = false.
Proof.
  unfold F32.ge, F32.lt, F32.zero, SFleb, SFltb.
  destruct x as [s|s| |s m e]; try destruct s; cbn; congruence.
Qed.

Lemma prComputeRaycast_true h b ray hit hit' :
  prComputeRaycast h b ray (Some hit) = Some (true, Some hit') ->
  inside hit' = false /\ hit_body hit' = b /\ is_Some (b ≫= (h !!.)).
Proof.
  intros Hr. unfold prComputeRaycast in Hr.
  destruct b as [a|]; [|discriminate].
  destruct (h !! a) as [body|] eqn:Ea; [|discriminate].
  cbn [mbind option_bind] in Hr.
  assert (Hlive : is_Some (Some a ≫= (h !!.))) by (cbn; rewrite Ea; eauto).
  destruct (prGetShapeType (shape body)); [discriminate| |].
  - destruct (prComputeIntersectionCircleLine _ _ _ _) as [intersects lambda].
    cbn [fmap option_fmap option_map] in Hr. injection Hr as Hres <-.
    apply andb_true_iff in Hres. destruct Hres as [Hge _].
    cbn [inside hit_body]. rewrite (F32_ge_zero_not_lt _ Hge). auto.
  - destruct (prGetPolygonVertices (shape body)) as [vs|]; [|discriminate].
    cbn [mbind option_bind] in Hr.
    destruct (fold_left _ _ _) as [[[lambda minLambda] hit1] n].
    destruct hit1 as [h1|]; [|discriminate].
    cbn [fmap option_fmap option_map mbind option_bind inside] in Hr.
    injection Hr as Hres <-. apply andb_true_iff in Hres. destruct Hres as [Hin _].
    apply negb_true_iff in Hin. cbn [inside hit_body]. auto.
Qed.

Lemma prComputeRaycast_keeps_pointer h b ray hit r :
  prComputeRaycast h b ray (Some hit) = Some (r, None) -> False.
Proof.
  intros Er. unfold prComputeRaycast in Er.
  destruct b as [a|]; [|discriminate].
  destruct (h !! a); [|discriminate]. cbn [mbind option_bind] in Er.
  destruct (prGetShapeType _); [discriminate| |].
  - destruct (prComputeIntersectionCircleLine _ _ _ _). discriminate.
  - destruct (prGetPolygonVertices _); [|discriminate].
    cbn [mbind option_bind] in Er.
    destruct (fold_left _ _ _) as [[[? ?] [?|]] ?]; discriminate.
Qed.

(** X11.  With a non-null hit record, [prComputeRaycast] never loses the
    record, and when it returns true the body is a live one, the hit names
    that body and the hit is not flagged as coming from inside the shape. *)
Theorem prComputeRaycast_reported_hit :
  forall (h : heap) (b : option addr) (ray : prRay) (hit : prRaycastHit),
    match prComputeRaycast h b ray (Some hit) with
    | Some (true, Some hit') =>
        inside hit' = false /\ hit_body hit' = b /\ is_Some (b ≫= (h !!.))
    | Some (_, None) => False
    | _ => True
    end.
Proof.
  intros h b ray hit.
  destruct (prComputeRaycast h b ray (Some hit)) as [[r [hit'|]]|] eqn:E.
  - destruct r; [|exact I]. exact (prComputeRaycast_true _ _ _ _ _ E).
  - destruct r; exact (prComputeRaycast_keeps_pointer _ _ _ _ _ E).
  - exact I.
Qed.




Section Jarvis.
Variable input : prVertices.
Hypothesis Hcount : 3 <= count input.




End Jarvis.

(* --------------------------------------------------------------------- *)
(** ** rigid-body.c and world.c: the solver and the impulse carry-over *)
(* --------------------------------------------------------------------- *)

Lemma velocity_only_refl b : velocity_only b b.
Proof. repeat split. Qed.

Lemma velocity_only_trans b1 b2 b3 :
  velocity_only b1 b2 -> velocity_only b2 b3 -> velocity_only b1 b3.
Proof.
  unfold velocity_only. intros H12 H23.
  repeat match goal with H : _ /\ _ |- _ => destruct H end.
  repeat split; congruence.
Qed.

Lemma velocity_only_prApplyImpulseToBody pt j b :
  velocity_only b (prApplyImpulseToBody pt j b).
Proof.
  unfold prApplyImpulseToBody. destruct (F32.le _ _); repeat split.
Qed.

Lemma velocity_only_prZeroVelocity b : velocity_only b (prZeroVelocity b).
Proof. repeat split. Qed.

Lemma solver_frame_refl a1 a2 h : solver_frame a1 a2 h h.
Proof.
  intros a. destruct (h !! a); [|exact I].
  split; [apply velocity_only_refl|reflexivity].
Qed.

Lemma solver_frame_trans a1 a2 h1 h2 h3 :
  solver_frame a1 a2 h1 h2 -> solver_frame a1 a2 h2 h3 -> solver_frame a1 a2 h1 h3.
Proof.
  intros H12 H23 a. specialize (H12 a). specialize (H23 a).
  destruct (h1 !! a), (h2 !! a), (h3 !! a); try tauto.
  destruct H12 as [V12 E12], H23 as [V23 E23]. split.
  - eapply velocity_only_trans; eassumption.
  - intros N1 N2. rewrite E23, E12 by assumption. reflexivity.
Qed.

Lemma solver_frame_alter a1 a2 (f : prBody -> prBody) (a : addr) (h : heap) :
  (forall b, velocity_only b (f b)) -> a = a1 \/ a = a2 ->
  solver_frame a1 a2 h (alter f a h).
Proof.
  intros Hf Ha x. destruct (decide (x = a)) as [->|Hne].
  - rewrite lookup_alter_eq. destruct (h !! a) as [b|]; cbn; [|exact I].
    split; [apply Hf|]. intros; destruct Ha; congruence.
  - rewrite lookup_alter_ne by congruence. destruct (h !! x); [|exact I].
    split; [apply velocity_only_refl|reflexivity].
Qed.

Lemma solver_frame_pair a1 a2 (f1 f2 : prBody -> prBody) (h : heap) :
  (forall b, velocity_only b (f1 b)) -> (forall b, velocity_only b (f2 b)) ->
  solver_frame a1 a2 h (on_body f2 (Some a2) (on_body f1 (Some a1) h)).
Proof.
  intros Hf1 Hf2. cbn [on_body].
  apply (solver_frame_trans a1 a2 h (alter f1 a1 h));
    apply solver_frame_alter; auto.
Qed.

Lemma solver_frame_live a1 a2 h h' a :
  solver_frame a1 a2 h h' -> is_Some (h !! a) -> is_Some (h' !! a).
Proof.
  intros Hf [b Hb]. specialize (Hf a). rewrite Hb in Hf.
  destruct (h' !! a); [eauto|contradiction].
Qed.

Lemma contact_scalars_only_refl p : contact_scalars_only p p.
Proof. repeat split. Qed.

Lemma scalars_only_refl c : scalars_only c c.
Proof. repeat split. Qed.

Lemma scalars_only_trans c1 c2 c3 :
  scalars_only c1 c2 -> scalars_only c2 c3 -> scalars_only c1 c3.
Proof.
  unfold scalars_only, contact_scalars_only. intros H12 H23.
  repeat match goal with H : _ /\ _ |- _ => destruct H end.
  repeat split; congruence.
Qed.

Lemma scalars_only_with_cache c i k :
  normalMass k = normalMass (cache (contact_get c i)) ->
  tangentMass k = tangentMass (cache (contact_get c i)) ->
  scalars_only c (with_cache c i k).
Proof.
  unfold with_cache, contact_set, contact_get. intros Hn Ht.
  destruct (Z.eqb i 0); repeat split; assumption.
Qed.

Section SolverFrame.
Variables a1 a2 : addr.
Variable inverseDt : float.

Lemma frResolveContact_frame (h : heap) (c : prCollision) (i : Z) :
  0 <= i <= 1 ->
  is_Some (h !! a1) -> is_Some (h !! a2) ->
  exists h' c',
    frResolveContact a1 a2 inverseDt (Some (h, c)) i = Some (h', c')
    /\ solver_frame a1 a2 h h' /\ scalars_only c c'.
Proof.
  intros Hi [b1 H1] [b2 H2]. unfold frResolveContact.
  cbn [mbind option_bind].
  destruct (Z.ltb_spec i 0); [lia|]. destruct (Z.ltb_spec 1 i); [lia|].
  cbn [orb]. rewrite H1, H2. cbn [mbind option_bind].
  destruct (F32.gt _ F32.zero).
  { exists h, c. split; [reflexivity|].
    split; [apply solver_frame_refl|apply scalars_only_refl]. }
  match goal with
  | |- context [on_body ?f2 (Some a2) (on_body ?f1 (Some a1) h)] =>
      assert (F1 : solver_frame a1 a2 h (on_body f2 (Some a2) (on_body f1 (Some a1) h)))
        by (apply solver_frame_pair; intros; apply velocity_only_prApplyImpulseToBody);
      set (h1 := on_body f2 (Some a2) (on_body f1 (Some a1) h)) in *
  end.
  destruct (solver_frame_live _ _ _ _ a1 F1 (ex_intro _ b1 H1)) as [b1' H1'].
  destruct (solver_frame_live _ _ _ _ a2 F1 (ex_intro _ b2 H2)) as [b2' H2'].
  rewrite H1', H2'. cbn [mbind option_bind].
  eexists _, _. split; [reflexivity|]. split.
  - eapply solver_frame_trans; [exact F1|].
    apply solver_frame_pair; intros; apply velocity_only_prApplyImpulseToBody.
  - eapply scalars_only_trans; apply scalars_only_with_cache; reflexivity.
Qed.

Lemma frResolveContacts_frame (l : list Z) :
  Forall (fun i => 0 <= i <= 1) l ->
  forall (h : heap) (c : prCollision),
    is_Some (h !! a1) -> is_Some (h !! a2) ->
    exists h' c',
      fold_left (frResolveContact a1 a2 inverseDt) l (Some (h, c)) = Some (h', c')
      /\ solver_frame a1 a2 h h' /\ scalars_only c c'.
Proof.
  induction 1 as [|i l Hi Hl IH]; intros h c L1 L2; cbn [fold_left].
  - exists h, c. split; [reflexivity|].
    split; [apply solver_frame_refl|apply scalars_only_refl].
  - destruct (frResolveContact_frame h c i Hi L1 L2) as (h1 & c1 & -> & F1 & S1).
    destruct (IH h1 c1 (solver_frame_live _ _ _ _ _ F1 L1)
                 (solver_frame_live _ _ _ _ _ F1 L2)) as (h2 & c2 & -> & F2 & S2).
    exists h2, c2. split; [reflexivity|]. split.
    + eapply solver_frame_trans; eassumption.
    + eapply scalars_only_trans; eassumption.
Qed.

(** X13.  On two live bodies and a manifold of at most two contacts
    [frResolveCollision] always returns.  It changes nothing in the heap
    but the linear and angular velocity of the two bodies, and nothing in
    the manifold but the normal and tangent impulse scalars of the contact
    caches. *)
Theorem frResolveCollision_only_velocities :
  forall (c : prCollision) (h : heap),
    c_count c <= 2 ->
    is_Some (h !! a1) -> is_Some (h !! a2) ->
    exists h' c',
      frResolveCollision (Some a1) (Some a2) (Some c) inverseDt h = Some (h', Some c')
      /\ solver_frame a1 a2 h h' /\ scalars_only c c'.
Proof.
  intros c h Hc L1 L2. unfold frResolveCollision.
  destruct L1 as [b1 H1]. destruct L2 as [b2 H2].
  rewrite H1, H2. cbn [mbind option_bind].
  destruct (F32.le _ F32.zero).
  - cbv zeta.
    destruct (bodyType_eqb (prGetBodyType (Some b1)) PR_BODY_STATIC),
             (bodyType_eqb (prGetBodyType (Some b2)) PR_BODY_STATIC);
      (eexists _, c; split; [reflexivity|]; split; [|apply scalars_only_refl]).
    + apply solver_frame_pair; apply velocity_only_prZeroVelocity.
    + apply solver_frame_alter; [apply velocity_only_prZeroVelocity|auto].
    + apply solver_frame_alter; [apply velocity_only_prZeroVelocity|auto].
    + apply solver_frame_refl.
  - assert (Hl : Forall (fun i => 0 <= i <= 1) (seqZ 0 (c_count c))).
    { apply Forall_forall. intros i Hi. apply elem_of_seqZ in Hi. lia. }
    destruct (frResolveContacts_frame (seqZ 0 (c_count c)) Hl h c
                (ex_intro _ b1 H1) (ex_intro _ b2 H2)) as (h' & c' & -> & F & S).
    cbn [mbind option_bind]. exists h', c'. auto.
Qed.

(** The round for contact 1 leaves contact 0 of the manifold as it is. *)
Lemma frResolveContact_keeps_first_slot (h h' : heap) (c c' : prCollision) :
  frResolveContact a1 a2 inverseDt (Some (h, c)) 1 = Some (h', c') ->
  fst (contacts c') = fst (contacts c).
Proof.
  unfold frResolveContact. cbn [mbind option_bind Z.ltb Z.compare orb].
  destruct (h !! a1) as [b1|]; [|discriminate].
  destruct (h !! a2) as [b2|]; [|discriminate].
  cbn [mbind option_bind].
  destruct (F32.gt _ F32.zero); [intros [= _ <-]; reflexivity|].
  match goal with
  | |- context [on_body ?f2 (Some a2) (on_body ?f1 (Some a1) h)] =>
      set (h1 := on_body f2 (Some a2) (on_body f1 (Some a1) h))
  end.
  destruct (h1 !! a1) as [b1'|]; [|discriminate].
  destruct (h1 !! a2) as [b2'|]; [|discriminate].
  cbn [mbind option_bind]. intros [= _ <-]. reflexivity.
Qed.
End SolverFrame.

Section SolverIteration.
Local Open Scope f32_scope.

(** C3 (the defect).  One solver iteration on a cached manifold, as
    [prStepWorld] runs it: [prResolveCollision] is called with the two
    bodies of the key, the cache slot and [1 / dt].  When the two bodies
    are live and not both without mass, the manifold has one or two
    contacts and the relative normal velocity [vn] at contact 0 is not
    separating, the value left in the cache of contact 0 is
    [lambda = (-(1 + e) * vn + b) / k_n] with
    [b = -(0.24 * (1 / dt)) * fminf(0, -depth + 0.01)], the magnitude of
    this iteration alone: what the cache held before the iteration does
    not occur in it, so nothing is accumulated from one iteration to the
    next. *)
Theorem prResolveCollision_overwrites_normal_impulse :
  forall (h : heap) (key : prBodyPair) (b1 b2 : prBody) (c : prCollision)
         (dt : float),
    h !! first key = Some b1 ->
    h !! second key = Some b2 ->
    (inverseMass (mtn b1) + inverseMass (mtn b2) <=? F32.zero) = false ->
    (1 <= c_count c <= 2)%Z ->
    let inverseDt := F32.one / dt in
    let p := point (fst (contacts c)) in
    let r1 := prVector2Subtract p (position (tx b1)) in
    let r2 := prVector2Subtract p (position (tx b2)) in
    let vrel :=
      prVector2Subtract
        (prVector2Add (velocity (mtn b2))
           (prVector2ScalarMultiply (prVector2LeftNormal r2) (angularVelocity (mtn b2))))
        (prVector2Add (velocity (mtn b1))
           (prVector2ScalarMultiply (prVector2LeftNormal r1) (angularVelocity (mtn b1)))) in
    let vn := prVector2Dot vrel (direction c) in
    let k_n :=
      (inverseMass (mtn b1) + inverseMass (mtn b2))
      + inverseInertia (mtn b1)
        * (prVector2Cross r1 (direction c) * prVector2Cross r1 (direction c))
      + inverseInertia (mtn b2)
        * (prVector2Cross r2 (direction c) * prVector2Cross r2 (direction c)) in
    let b := - (F32.lit 24 100 * inverseDt)
             * F32.fminf F32.zero (- depth (fst (contacts c)) + F32.lit 1 100) in
    let lambda := ((- (F32.one + c_restitution c) * vn) + b) / k_n in
    F32.gt vn F32.zero = false ->
    exists (h' : heap) (c' : prCollision),
      prOnSlot (fun b1 b2 c => prResolveCollision b1 b2 c inverseDt) key c h
      = Some (h', c')
      /\ normalScalar (cache (fst (contacts c'))) = lambda.
Proof.
  intros h key b1 b2 c dt H1 H2 Hmass Hc inverseDt p r1 r2 vrel vn k_n b lambda Hvn.
  unfold prOnSlot, prResolveCollision, frResolveCollision.
  rewrite H1, H2. cbn [mbind option_bind].
  unfold F32.le in Hmass |- *. rewrite Hmass.
  destruct (frResolveContact_normal_impulse h (first key) (second key) b1 b2 c 0
              inverseDt H1 H2 ltac:(lia) Hvn) as (h1 & c1 & t & E1 & Hl & _).
  change (contact_get c1 0) with (fst (contacts c1)) in Hl.
  assert (c_count c = 1 \/ c_count c = 2)%Z as [Ec|Ec] by lia; rewrite Ec.
  - change (seqZ 0 1) with [0%Z]. cbn [fold_left]. rewrite E1.
    cbn [mbind option_bind default]. exists h1, c1. split; [reflexivity|exact Hl].
  - change (seqZ 0 2) with [0%Z; 1%Z]. cbn [fold_left]. rewrite E1.
    destruct (frResolveContact_frame (first key) (second key) inverseDt h c 0
                ltac:(lia) (ex_intro _ b1 H1) (ex_intro _ b2 H2))
      as (h1' & c1' & E1' & F1 & _).
    rewrite E1 in E1'. injection E1' as <- <-.
    destruct (frResolveContact_frame (first key) (second key) inverseDt h1 c1 1
                ltac:(lia)
                (solver_frame_live _ _ _ _ _ F1 (ex_intro _ b1 H1))
                (solver_frame_live _ _ _ _ _ F1 (ex_intro _ b2 H2)))
      as (h2 & c2 & E2 & _ & _).
    rewrite E2. cbn [mbind option_bind default]. exists h2, c2.
    split; [reflexivity|].
    rewrite (frResolveContact_keeps_first_slot _ _ _ _ _ _ _ E2). exact Hl.
Qed.
End SolverIteration.









(* --------------------------------------------------------------------- *)
(** ** world.c: the world raycast and the body array *)
(* --------------------------------------------------------------------- *)

Lemma prRaycastHashQueryCallback_hits h w ray (l : list Z) :
  forall log hits,
    (forall hits0, log = Some hits0 -> Forall (world_hit h w) hits0) ->
    fold_left (fun ctx v => snd (prRaycastHashQueryCallback h (bodies w) ray v ctx)) l log
    = Some hits ->
    Forall (world_hit h w) hits.
Proof.
  induction l as [|v l IH]; intros log hits Hlog Hf; cbn [fold_left] in Hf.
  - apply Hlog, Hf.
  - eapply IH; [|exact Hf]. clear Hf IH. intros hits1 H1.
    unfold prRaycastHashQueryCallback in H1.
    destruct log as [hits0|]; [|discriminate].
    specialize (Hlog hits0 eq_refl).
    destruct (Z.ltb v 0); [discriminate|].
    destruct (bodies w !! Z.to_nat v) as [a|] eqn:Ea; [|discriminate].
    destruct (prComputeRaycast h (Some a) ray (Some prRaycastHit_ZERO))
      as [[[] hit]|] eqn:Er; cbn [snd] in H1; try discriminate.
    + injection H1 as <-. apply Forall_app. split; [exact Hlog|].
      apply Forall_singleton.
      destruct hit as [hit|].
      * destruct (prComputeRaycast_true _ _ _ _ _ Er) as (Hin & Hb & Hl).
        split; [exact Hin|]. exists a. split; [exact Hb|].
        split; [eapply list_elem_of_lookup_2; exact Ea|exact Hl].
      * destruct (prComputeRaycast_keeps_pointer _ _ _ _ _ Er).
    + injection H1 as <-. exact Hlog.
Qed.

(** X15.  When [prComputeRaycastForWorld] returns, the body array is as
    it was and every hit passed to the callback is on a live body of the
    world and is not flagged as coming from inside a shape. *)
Theorem prComputeRaycastForWorld_hits :
  forall (past before : Z) (h : heap) (w w' : prWorld) (ray : prRay)
         (hits : list prRaycastHit),
    prComputeRaycastForWorld past before h w ray = Some (w', hits) ->
    bodies w' = bodies w
    /\ forall hit, hit ∈ hits ->
         inside hit = false
         /\ exists a, hit_body hit = Some a /\ a ∈ bodies w /\ is_Some (h !! a).
Proof.
  intros past before h w w' ray hits Hr. unfold prComputeRaycastForWorld in Hr.
  destruct (hash w) as [sh|].
  - destruct (fold_left _ _ (Some (prClearSpatialHash sh))) as [sh1|]; [|discriminate].
    cbn [mbind option_bind] in Hr. unfold prQuerySpatialHash in Hr.
    destruct (prCellBounds _ _) as [b|]; [|discriminate].
    cbn [mbind option_bind] in Hr.
    destruct (fold_left _ _ (Some [])) as [hits1|] eqn:Ef; [|discriminate].
    cbn [mbind option_bind] in Hr. injection Hr as <- <-.
    split; [reflexivity|].
    apply (prRaycastHashQueryCallback_hits h w ray) in Ef.
    + intros hit Hin. rewrite Forall_forall in Ef. apply (Ef hit Hin).
    + intros hits0 [= <-]. constructor.
  - injection Hr as <- <-. split; [reflexivity|].
    intros hit Hin. apply elem_of_nil in Hin. contradiction.
Qed.

Lemma arrdelswap_Permutation {A : Type} (a : list A) (i : nat) (x : A) :
  a !! i = Some x -> a ≡ₚ (x :: arrdelswap a i).
Proof.
  intros Hi. unfold arrdelswap.
  induction a as [|y a0 _] using rev_ind; [discriminate|].
  rewrite last_snoc, length_app. cbn [length].
  replace (length a0 + 1 - 1)%nat with (length a0) by lia.
  destruct (decide (i < length a0)%nat) as [Hlt|Hge].
  - rewrite lookup_app_l in Hi by exact Hlt.
    rewrite insert_app_l by exact Hlt.
    rewrite take_app_length' by (rewrite length_insert; reflexivity).
    destruct (list_elem_of_split_length a0 i x Hi) as (l1 & l2 & -> & Hl).
    subst i. rewrite insert_app_r_alt by lia.
    replace (length l1 - length l1)%nat with 0%nat by lia. cbn.
    rewrite <- Permutation_cons_append, <- !Permutation_middle. apply perm_swap.
  - assert (i = length a0) as ->.
    { apply lookup_lt_Some in Hi. rewrite length_app in Hi. cbn in Hi. lia. }
    rewrite list_lookup_middle in Hi by reflexivity. injection Hi as <-.
    rewrite insert_app_r_alt by lia.
    replace (length a0 - length a0)%nat with 0%nat by lia. cbn.
    rewrite take_app_length. symmetry. apply Permutation_cons_append.
Qed.

(** X16.  [prRemoveBodyFromWorld] returns true exactly when the body is
    in the world; it then removes one occurrence of it, keeps the other
    bodies (in a possibly different order) and leaves the hash and the
    contact cache alone.  Otherwise the world is unchanged. *)
Theorem prRemoveBodyFromWorld_removes_one :
  forall (w : prWorld) (a : addr),
    match prRemoveBodyFromWorld w (Some a) with
    | (true, w') =>
        bodies w ≡ₚ (a :: bodies w')
        /\ prGetBodyCountForWorld w' = prGetBodyCountForWorld w - 1
        /\ hash w' = hash w /\ w_cache w' = w_cache w
    | (false, w') => (a ∉ bodies w) /\ w' = w
    end.
Proof.
  intros w a. unfold prRemoveBodyFromWorld.
  destruct (list_find (fun x => x = a) (bodies w)) as [[i x]|] eqn:E.
  - apply list_find_Some in E. destruct E as (Hi & -> & _).
    pose proof (arrdelswap_Permutation _ _ _ Hi) as Hp.
    split; [exact Hp|]. split; [|split; reflexivity].
    unfold prGetBodyCountForWorld. cbn [bodies].
    apply Permutation_length in Hp. cbn [length] in Hp. lia.
  - split; [|reflexivity]. apply list_find_None in E.
    intros Hin. rewrite Forall_forall in E. apply (E a Hin). reflexivity.
Qed.

(** X17.  Adding a body that is not yet in a world with room left puts it
    at the index of the old body count, and removing it again gives back
    the world as it was. *)
Theorem prAddBodyToWorld_then_remove :
  forall (w : prWorld) (a : addr),
    a ∉ bodies w ->
    prGetBodyCountForWorld w < PR_WORLD_MAX_OBJECT_COUNT ->
    prRemoveBodyFromWorld (snd (prAddBodyToWorld w (Some a))) (Some a) = (true, w)
    /\ prGetBodyFromWorld (snd (prAddBodyToWorld w (Some a)))
                          (prGetBodyCountForWorld w) = Some a.
Proof.
  intros w a Hnin Hlt. unfold prGetBodyCountForWorld in *.
  unfold prAddBodyToWorld.
  destruct (Z.leb_spec PR_WORLD_MAX_OBJECT_COUNT (Z.of_nat (length (bodies w))));
    [lia|].
  cbn [snd]. split.
  - unfold prRemoveBodyFromWorld. cbn [bodies gravity hash w_cache handler
                                        accumulator timestamp].
    assert (E : list_find (fun x => x = a) (bodies w ++ [a])
                = Some (length (bodies w), a)).
    { apply list_find_Some. split; [apply list_lookup_middle; reflexivity|].
      split; [reflexivity|]. intros j y Hj Hlen ->.
      rewrite lookup_app_l in Hj by exact Hlen.
      apply Hnin. eapply list_elem_of_lookup_2. exact Hj. }
    rewrite E. f_equal. destruct w as [g bs sh c hd acc ts]. cbn. f_equal.
    unfold arrdelswap. rewrite last_snoc, length_app. cbn [length].
    replace (length bs + 1 - 1)%nat with (length bs) by lia.
    rewrite insert_app_r_alt by lia.
    replace (length bs - length bs)%nat with 0%nat by lia. cbn.
    apply take_app_length.
  - unfold prGetBodyFromWorld. cbn [bodies]. rewrite length_app. cbn [length].
    destruct (Z.ltb_spec (Z.of_nat (length (bodies w))) 0); [lia|].
    destruct (Z.geb_spec (Z.of_nat (length (bodies w)))
                         (Z.of_nat (length (bodies w) + 1))); [lia|].
    cbn [orb]. rewrite Nat2Z.id. apply list_lookup_middle. reflexivity.
Qed.

(* --------------------------------------------------------------------- *)
(** ** The properties above on sample inputs *)
(* --------------------------------------------------------------------- *)

Lemma prQuerySpatialHash_calls_increasing_witness :
  prCellBounds (inverseCellSize filled_hash) (box_at 0 0 2 2) = Some (0, 0, 2, 2)
  /\ exists calls,
       prQuerySpatialHash 0 0 filled_hash (box_at 0 0 2 2) prRecordCall []
       = Some (mkSpatialHash (cellSize filled_hash) (inverseCellSize filled_hash)
                             calls (entries filled_hash), calls)
       /\ StronglySorted Z.lt calls
       /\ NoDup calls.
Proof.
  split; [vm_compute; reflexivity|].
  apply (prQuerySpatialHash_calls_increasing 0 0 filled_hash (box_at 0 0 2 2) (0, 0, 2, 2)).
  vm_compute. reflexivity.
Defined.

Lemma prInsertToSpatialHash_appends_once_witness :
  prCellBounds (inverseCellSize filled_hash) (box_at 1 1 2 2) = Some (1, 1, 3, 3)
  /\ exists sh',
       prInsertToSpatialHash filled_hash (box_at 1 1 2 2) 7 = Some sh'
       /\ cellSize sh' = cellSize filled_hash
       /\ inverseCellSize sh' = inverseCellSize filled_hash
       /\ queryResult sh' = queryResult filled_hash
       /\ forall k,
            cell_values sh' k
            = cell_values filled_hash k
              ++ (if decide (k ∈ prCells (1, 1, 3, 3)) then [7] else []).
Proof.
  split; [vm_compute; reflexivity|].
  apply (prInsertToSpatialHash_appends_once filled_hash (box_at 1 1 2 2) 7 (1, 1, 3, 3)).
  vm_compute. reflexivity.
Defined.

Lemma prClearSpatialHash_query_empty_witness :
  exists sh',
    prQuerySpatialHash 0 0 (prClearSpatialHash filled_hash) (box_at 0 0 2 2)
                       prRecordCall []
    = Some (sh', []).
Proof.
  apply (prClearSpatialHash_query_empty 0 0 filled_hash (box_at 0 0 2 2) (0, 0, 2, 2)).
  vm_compute. reflexivity.
Defined.

Lemma broad_phase_reports_inserted_witness :
  exists sh'' calls,
    prQuerySpatialHash 0 0 filled_hash (box_at 0 0 2 2) prRecordCall []
    = Some (sh'', calls)
    /\ 1 ∈ calls.
Proof.
  apply (broad_phase_reports_inserted 0 0 unit_hash filled_hash three_boxes
           (box_at 1 1 2 2) (box_at 0 0 2 2) 1 (1, 1, 3, 3) (0, 0, 2, 2)).
  - vm_compute. reflexivity.
  - right. left.
  - vm_compute. reflexivity.
  - vm_compute. reflexivity.
  - exists (1, 1).
    split; apply list_elem_of_In; vm_compute;
      repeat (first [left; reflexivity | right]).
  - left. lia.
Defined.

Lemma broad_phase_reports_only_inserted_witness :
  exists A bA bB,
    (A, 1) ∈ three_boxes
    /\ prCellBounds (inverseCellSize unit_hash) A = Some bA
    /\ prCellBounds (inverseCellSize unit_hash) (box_at 0 0 2 2) = Some bB
    /\ cells_meet bA bB.
Proof.
  apply (broad_phase_reports_only_inserted 0 0 unit_hash filled_hash
           (mkSpatialHash (cellSize filled_hash) (inverseCellSize filled_hash)
                          [0; 1] (entries filled_hash))
           three_boxes (box_at 0 0 2 2) [0; 1] 1).
  - vm_compute. reflexivity.
  - vm_compute. reflexivity.
  - right. left.
Defined.

Lemma static_bodies_stay_pinned_witness :
  b_type (body_0 (heap_after pushed_then_static)) = PR_BODY_STATIC
  /\ velocity (mtn (body_0 (heap_after pushed_then_static)))
     = mkVector2 F32.zero F32.zero
  /\ angularVelocity (mtn (body_0 (heap_after pushed_then_static))) = F32.zero.
Proof.
  split; [vm_compute; reflexivity|].
  apply (static_bodies_stay_pinned (L := libm_at_zero) pushed_then_static
           (heap_after pushed_then_static)) with (a := 0%nat).
  - reflexivity.
  - vm_compute. reflexivity.
  - vm_compute. reflexivity.
  - vm_compute. reflexivity.
Defined.

Lemma nondynamic_bodies_unmoved_by_impulses_witness :
  b_type (body_0 (heap_after kinematic_box)) <> PR_BODY_DYNAMIC
  /\ inverseMass (mtn (body_0 (heap_after kinematic_box))) = F32.zero
  /\ inverseInertia (mtn (body_0 (heap_after kinematic_box))) = F32.zero
  /\ (forall pt j, prApplyImpulseToBody pt j (body_0 (heap_after kinematic_box))
                   = body_0 (heap_after kinematic_box))
  /\ (forall pt f, prApplyForceToBody pt f (body_0 (heap_after kinematic_box))
                   = body_0 (heap_after kinematic_box))
  /\ (forall g, prApplyGravityToBody g (body_0 (heap_after kinematic_box))
                = body_0 (heap_after kinematic_box))
  /\ (forall dt, prIntegrateForBodyVelocity dt (body_0 (heap_after kinematic_box))
                 = body_0 (heap_after kinematic_box)).
Proof.
  split; [vm_compute; discriminate|].
  apply (nondynamic_bodies_unmoved_by_impulses (L := libm_at_zero) kinematic_box
           (heap_after kinematic_box)) with (a := 0%nat).
  - vm_compute. reflexivity.
  - vm_compute. reflexivity.
  - vm_compute. discriminate.
Defined.

Lemma prStepWorld_frame_witness :
  preStep (handler two_circles_world) = None
  /\ postStep (handler two_circles_world) = None
  /\ bodies (snd two_circles_stepped) = bodies two_circles_world
  /\ gravity (snd two_circles_stepped) = gravity two_circles_world
  /\ handler (snd two_circles_stepped) = handler two_circles_world
  /\ accumulator (snd two_circles_stepped) = accumulator two_circles_world
  /\ timestamp (snd two_circles_stepped) = timestamp two_circles_world.
Proof.
  split; [reflexivity|]. split; [reflexivity|].
  apply (prStepWorld_frame (L := libm_at_zero) (X := extern_no_warm_start)
           (fun _ => (0, 0)) (F32.lit 1 60)
           two_circles (fst two_circles_stepped)
           two_circles_world (snd two_circles_stepped)).
  - reflexivity.
  - reflexivity.
  - vm_compute. reflexivity.
Defined.

Lemma prStepWorld_clears_forces_witness :
  F32.le (F32.lit 1 60) F32.zero = false
  /\ (forall (a : addr) (b : prBody),
         a ∈ bodies two_circles_world -> fst two_circles_stepped !! a = Some b ->
         force (mtn b) = mkVector2 F32.zero F32.zero /\ torque (mtn b) = F32.zero)
  /\ (forall (sh' : prSpatialHash) (k : Z * Z),
         hash (snd two_circles_stepped) = Some sh' ->
         queryResult sh' = [] /\ cell_values sh' k = []).
Proof.
  split; [reflexivity|].
  apply (prStepWorld_clears_forces (L := libm_at_zero) (X := extern_no_warm_start)
           (fun _ => (0, 0)) (F32.lit 1 60)
           two_circles (fst two_circles_stepped)
           two_circles_world (snd two_circles_stepped)).
  - reflexivity.
  - vm_compute. reflexivity.
Defined.

Lemma prComputeRaycastForWorld_hits_witness :
  length (snd circle_world_raycast) = 1%nat
  /\ bodies (fst circle_world_raycast) = bodies circle_world
  /\ forall hit, hit ∈ snd circle_world_raycast ->
       inside hit = false
       /\ exists a, hit_body hit = Some a /\ a ∈ bodies circle_world
                    /\ is_Some (heap_with unit_circle !! a).
Proof.
  split; [vm_compute; reflexivity|].
  apply (prComputeRaycastForWorld_hits (-1) (-1) (heap_with unit_circle) circle_world
           (fst circle_world_raycast) x_ray (snd circle_world_raycast)).
  vm_compute. reflexivity.
Defined.


Lemma frResolveCollision_only_velocities_witness :
  c_count touching_boxes_manifold = 2
  /\ exists h' c',
    frResolveCollision (Some 0%nat) (Some 1%nat) (Some touching_boxes_manifold)
                       inverseDt_60 touching_boxes
    = Some (h', Some c')
    /\ solver_frame 0%nat 1%nat touching_boxes h'
    /\ scalars_only touching_boxes_manifold c'.
Proof.
  split; [vm_compute; reflexivity|].
  apply (frResolveCollision_only_velocities 0%nat 1%nat inverseDt_60
           touching_boxes_manifold touching_boxes).
  - vm_compute. discriminate.
  - vm_compute. eexists. reflexivity.
  - vm_compute. eexists. reflexivity.
Defined.


Lemma prAddBodyToWorld_then_remove_witness :
  prRemoveBodyFromWorld (snd (prAddBodyToWorld circle_world (Some 1%nat))) (Some 1%nat)
  = (true, circle_world)
  /\ prGetBodyFromWorld (snd (prAddBodyToWorld circle_world (Some 1%nat)))
                        (prGetBodyCountForWorld circle_world)
     = Some 1%nat.
Proof.
  apply (prAddBodyToWorld_then_remove circle_world 1%nat).
  - intros H. apply list_elem_of_In in H. vm_compute in H.
    destruct H as [H|[]]. discriminate H.
  - vm_compute. reflexivity.
Defined.

(** The failing input of C3: the two touching boxes after the first solver
    iteration of a step of 1/60 s, when the cache of contact 0 holds 0.5.
    The second iteration computes -0 and leaves -0 in the cache, not the
    sum 0.5 + (-0). *)
Lemma prResolveCollision_overwrites_normal_impulse_witness :
  normalScalar (cache (fst (contacts (snd first_iteration)))) = F32.half
  /\ exists h' c',
       prOnSlot (fun b1 b2 c =>
                   prResolveCollision b1 b2 c (F32.div F32.one (F32.lit 1 60)))
         (mkBodyPair 0%nat 1%nat) (snd first_iteration) (fst first_iteration)
       = Some (h', c')
       /\ normalScalar (cache (fst (contacts c'))) = S754_zero true
       /\ ~ accumulated F32.half (normalScalar (cache (fst (contacts c'))))
                        (S754_zero true).
Proof.
  split; [vm_compute; reflexivity|].
  assert (H1 : fst first_iteration !! first (mkBodyPair 0%nat 1%nat)
               = Some (default (prBody_new PR_BODY_DYNAMIC prVector2_ZERO)
                         (fst first_iteration !! 0%nat)))
    by (vm_compute; reflexivity).
  assert (H2 : fst first_iteration !! second (mkBodyPair 0%nat 1%nat)
               = Some (default (prBody_new PR_BODY_DYNAMIC prVector2_ZERO)
                         (fst first_iteration !! 1%nat)))
    by (vm_compute; reflexivity).
  edestruct (prResolveCollision_overwrites_normal_impulse
               (fst first_iteration) (mkBodyPair 0%nat 1%nat) _ _
               (snd first_iteration) (F32.lit 1 60) H1 H2)
    as (h' & c' & E & Hl).
  - vm_compute. reflexivity.
  - vm_compute. split; discriminate.
  - vm_compute. reflexivity.
  - exists h', c'. split; [exact E|]. rewrite Hl.
    split; [vm_compute; reflexivity|].
    unfold accumulated. vm_compute. discriminate.
Defined.

(* --------------------------------------------------------------------- *)
(** ** The comparison of the accumulator with the step *)
(* --------------------------------------------------------------------- *)

(** The accumulator is a [double] and is compared with a widened [float]:
    one second is not below a sixtieth, and a world that owes two steps of
    1/60 s takes both. *)
Lemma F64_ge_widened :
  F64.ge (F64.sub (F64.of_float F32.two) (F64.of_float F32.one))
         (F64.of_float (F32.lit 1 60)) = true
  /\ F64.ge (F64.of_float (F32.lit 1 60))
            (F64.sub (F64.of_float F32.two) (F64.of_float F32.one)) = false.
Proof. split; vm_compute; reflexivity. Qed.

Lemma prUpdateWorld_loop_two_rounds :
  accumulator
    <$> (snd
           <$> prUpdateWorld_loop (L := libm_at_zero) (X := extern_no_warm_start)
                 5 (fun _ _ => (0, 0)) (F32.lit 1 60)
                 (∅, mkWorld (gravity fresh_world) [] (hash fresh_world) []
                             (handler fresh_world)
                             (F64.of_float (F32.lit 1 30)) F64.zero))
  = Some (F64.sub (F64.sub (F64.of_float (F32.lit 1 30))
                           (F64.of_float (F32.lit 1 60)))
                  (F64.of_float (F32.lit 1 60))).
Proof. vm_compute. reflexivity. Qed.
